(** * Decision-tree visualizer: tree store, EMV evaluation, replay controller
      and layout, embedded from the TypeScript sources.

    Numbers.  A JavaScript [number] is modelled by an exact rational [Q]
    (no rounding, no NaN, no infinities); numeric results are compared with
    [==] ([Qeq]) where a sum or a product is involved.  An optional field
    [f?: T] is an [option T], [None] standing for [undefined].

    Domain.  A [TreeNode] of the embedding is a tree whose number fields
    hold finite numbers or are absent.  The program can leave that domain
    in two places: the value and probability fields of the panel store
    [parseFloat] of their text unchecked (Controls.tsx 77 and 95), which is
    NaN for an emptied field, and the JSON copy a replay works on
    (index.tsx 149, 161, 200) writes NaN and the infinities as [null].
    From a NaN leaf [Math.max] and the products of [calculateNodeEMV] give
    NaN, and the tolerance test of [markOptimalPath] is false.  Whatever is
    stated below about evaluated values, about the states of a run or about
    a session is stated of trees inside the domain, and of field changes
    that type a number; nothing is stated of a tree that holds NaN, [null]
    or an infinity.

    References.  The auto-replay loop mutates the objects of its working
    tree through the references that [flattenTreePostOrder] returned.  The
    working tree is the shared store; a reference to one of its objects is
    the position ([path]) of that object in the tree.

    Events.  What the user does is a sequence of events, each handled to its
    end before the next one; a replay request is the whole paced replay,
    with its cancellation point.  The ids [generateId] draws come from a
    supply indexed by the number of draws made so far.  [handleAnalyze] is
    split at its [await] into the part that starts the request and the part
    that runs once the request has settled. *)

From Stdlib Require Import List String ZArith QArith Qabs Bool Lia Arith PeanoNat FinFun
  Permutation.
Import ListNotations.
Open Scope Q_scope.

(** ** types.ts *)

Inductive NodeType := DECISION | CHANCE | TERMINAL.

Definition NodeType_eqb (a b : NodeType) : bool :=
  match a, b with
  | DECISION, DECISION | CHANCE, CHANCE | TERMINAL, TERMINAL => true
  | _, _ => false
  end.

Unset Elimination Schemes.
Inductive TreeNode := mkTreeNode {
  id : string;
  type : NodeType;
  label : string;
  value : option Q;
  probability : option Q;
  children : list TreeNode;
  collapsed : option bool;
  calculatedValue : option Q;
  isOptimal : option bool;
  notes : option string
}.
Set Elimination Schemes.

(** Object spreads [{ ...node, field: v }]. *)
Definition with_children (n : TreeNode) (cs : list TreeNode) : TreeNode :=
  mkTreeNode (id n) (type n) (label n) (value n) (probability n) cs
             (collapsed n) (calculatedValue n) (isOptimal n) (notes n).

Definition with_calculatedValue (n : TreeNode) (v : option Q) : TreeNode :=
  mkTreeNode (id n) (type n) (label n) (value n) (probability n) (children n)
             (collapsed n) v (isOptimal n) (notes n).

Definition with_isOptimal (n : TreeNode) (b : option bool) : TreeNode :=
  mkTreeNode (id n) (type n) (label n) (value n) (probability n) (children n)
             (collapsed n) (calculatedValue n) b (notes n).

(** The nested induction principle of the multiway tree. *)
Section TreeInd.
Variable P : TreeNode -> Prop.
Hypothesis step : forall n, Forall P (children n) -> P n.

Fixpoint TreeNode_nested_ind (n : TreeNode) : P n :=
  step n
    ((fix go (cs : list TreeNode) : Forall P cs :=
        match cs with
        | [] => Forall_nil P
        | c :: r => Forall_cons c (TreeNode_nested_ind c) (go r)
        end) (children n)).
End TreeInd.

(** The value of an optional number, [x ?? d]. *)
Definition orElse (x : option Q) (d : Q) : Q :=
  match x with Some v => v | None => d end.

(** ** utils/treeUtils.ts *)

(** [findNode]: depth-first, first match. *)
Fixpoint findNode (root : TreeNode) (i : string) : option TreeNode :=
  if String.eqb (id root) i then Some root
  else
    (fix loop (cs : list TreeNode) : option TreeNode :=
       match cs with
       | [] => None
       | child :: rest =>
           match findNode child i with
           | Some found => Some found
           | None => loop rest
           end
       end) (children root).

(** [generateId] draws from [Math.random]; the draws are a supply [gen]
    indexed by the number of draws made so far. *)
Definition newNodeLabel (ty : NodeType) : string :=
  match ty with
  | TERMINAL => "结果"
  | CHANCE => "不确定事件"
  | DECISION => "决策"
  end%string.

Definition newNode (fresh : string) (ty : NodeType) : TreeNode :=
  mkTreeNode fresh ty (newNodeLabel ty) (Some 0) (Some (1 # 2)) []
             None None None None.

(** [addNodeToTree]: every call first builds its [newNode] (one draw), then
    either appends it to the matched node or recurses into the children,
    left to right. *)
Fixpoint addNodeToTree (gen : nat -> string) (root : TreeNode)
         (parentId : string) (ty : NodeType) (draws : nat) : TreeNode * nat :=
  let fresh := newNode (gen draws) ty in
  let draws1 := S draws in
  if String.eqb (id root) parentId then
    (with_children root (children root ++ [fresh]), draws1)
  else
    let '(cs, draws2) :=
      (fix mapChildren (cs : list TreeNode) (d : nat) : list TreeNode * nat :=
         match cs with
         | [] => ([], d)
         | child :: rest =>
             let '(child', d1) := addNodeToTree gen child parentId ty d in
             let '(rest', d2) := mapChildren rest d1 in
             (child' :: rest', d2)
         end) (children root) draws1 in
    (with_children root cs, draws2).

(** [flattenTreePostOrder]: the accumulator of the [forEach], then the node. *)
Fixpoint flattenTreePostOrder (node : TreeNode) : list TreeNode :=
  fold_left (fun list child => list ++ flattenTreePostOrder child)
            (children node) [] ++ [node].

(** [Math.max] of a non-empty argument list. *)
Definition Qmax2 (a b : Q) : Q := if Qle_bool a b then b else a.

Definition Math_max (x : Q) (xs : list Q) : Q := fold_left Qmax2 xs x.

(** [calculateNodeEMV].  The early return on [children.length === 0] is the
    [[]] case of the match, which is also what hands [Math.max] a non-empty
    argument list. *)
Definition calculateNodeEMV (node : TreeNode) : Q :=
  if NodeType_eqb (type node) TERMINAL then orElse (value node) 0
  else
    match children node with
    | [] => 0
    | c :: cs =>
        if NodeType_eqb (type node) DECISION then
          Math_max (orElse (calculatedValue c) 0)
                   (map (fun c => orElse (calculatedValue c) 0) cs)
        else if NodeType_eqb (type node) CHANCE then
          fold_left
            (fun sum child =>
               sum + orElse (calculatedValue child) 0
                     * orElse (probability child) 0)
            (c :: cs) 0
        else 0
    end.

(** The tolerance test of [markOptimalPath]:
    [Math.abs((child.calculatedValue ?? 0) - maxVal) < 0.0001]. *)
Definition withinTolerance (childValue : option Q) (maxVal : Q) : bool :=
  negb (Qle_bool (1 # 10000) (Qabs (orElse childValue 0 - maxVal))).

(** [markOptimalPath]. *)
Fixpoint markOptimalPath (root : TreeNode) : TreeNode :=
  if NodeType_eqb (type root) TERMINAL || (List.length (children root) =? 0)%nat
  then root
  else
    let cs := map markOptimalPath (children root) in
    match NodeType_eqb (type root) DECISION, calculatedValue root with
    | true, Some maxVal =>
        with_children root
          (map (fun child =>
                  with_isOptimal child
                    (Some (withinTolerance (calculatedValue child) maxVal)))
               cs)
    | _, _ => with_children root cs
    end.

(** The derivation recorded in a log entry ([getCalculationFormula]); the
    rendering of the numbers into text is left out, the operands are kept. *)
Inductive Formula :=
| DirectValue (v : option Q)
| MaxOf (values : list (option Q))
| WeightedSum (parts : list (option Q * option Q)).

Definition getCalculationFormula (node : TreeNode) : Formula :=
  match type node with
  | TERMINAL => DirectValue (value node)
  | DECISION => MaxOf (map calculatedValue (children node))
  | CHANCE =>
      WeightedSum
        (map (fun c => (probability c, calculatedValue c)) (children node))
  end.

(** ** Positions in a tree *)

Definition path := list nat.

Fixpoint subtree (t : TreeNode) (p : path) : option TreeNode :=
  match p with
  | [] => Some t
  | i :: q =>
      match nth_error (children t) i with
      | Some c => subtree c q
      | None => None
      end
  end.

Fixpoint updateNth {A} (i : nat) (f : A -> A) (l : list A) : list A :=
  match l, i with
  | [], _ => []
  | x :: r, O => f x :: r
  | x :: r, S j => x :: updateNth j f r
  end.

(** An assignment through a reference: the object at position [p] of the
    store [t] is replaced by [f] of itself. *)
Fixpoint updateAt (f : TreeNode -> TreeNode) (t : TreeNode) (p : path)
  : TreeNode :=
  match p with
  | [] => f t
  | i :: q => with_children t (updateNth i (fun c => updateAt f c q) (children t))
  end.

(** [node.calculatedValue = v] for the object at [p]. *)
Definition assignCalculatedValue (t : TreeNode) (p : path) (v : option Q)
  : TreeNode :=
  updateAt (fun n => with_calculatedValue n v) t p.

(** The references [flattenTreePostOrder] returns, as positions. *)
Fixpoint postOrderPaths (t : TreeNode) : list path :=
  (fix go (i : nat) (cs : list TreeNode) : list path :=
     match cs with
     | [] => []
     | c :: r => map (cons i) (postOrderPaths c) ++ go (S i) r
     end) 0%nat (children t) ++ [[]].

(** ** The application state (index.tsx) *)

Inductive Mode := EditMode | StepMode | AutoMode.

(** A log entry.  [id] and [timestamp] come from [Math.random] and
    [Date.now] and are left out; [logNode] is a ghost field: the position of
    the node the entry was computed for. *)
Record CalculationLog := mkLog {
  nodeLabel : string;
  nodeType : NodeType;
  formula : Formula;
  result : Q;
  logNode : path
}.

Record AppState := mkApp {
  root : TreeNode;
  calculationMode : Mode;
  logs : list CalculationLog
}.

(** [clearValues] of [resetCalculation]: every node. *)
Fixpoint clearValues (node : TreeNode) : TreeNode :=
  mkTreeNode (id node) (type node) (label node) (value node)
             (probability node) (map clearValues (children node))
             (collapsed node) None None (notes node).

Definition resetCalculation (s : AppState) : AppState :=
  mkApp (clearValues (root s)) EditMode [].

Definition isSome {A} (x : option A) : bool :=
  match x with Some _ => true | None => false end.

(** [stepCalculate] of the step branch of [handleSolve].  The closure
    variable [foundNext] and the log are threaded; [here] is the position of
    [node] (ghost, for [logNode]). *)
Fixpoint stepCalculate (here : path) (node : TreeNode)
         (st : bool * list CalculationLog)
  : TreeNode * (bool * list CalculationLog) :=
  match calculatedValue node with
  | Some _ => (node, st)
  | None =>
      if NodeType_eqb (type node) TERMINAL then
        (with_calculatedValue node (value node), st)
      else
        let '(children', st1) :=
          (fix mapChildren (i : nat) (cs : list TreeNode)
               (st : bool * list CalculationLog)
             : list TreeNode * (bool * list CalculationLog) :=
             match cs with
             | [] => ([], st)
             | c :: r =>
                 let '(c', st1) := stepCalculate (here ++ [i]) c st in
                 let '(r', st2) := mapChildren (S i) r st1 in
                 (c' :: r', st2)
             end) 0%nat (children node) st in
        let allChildrenCalculated :=
          forallb (fun c => isSome (calculatedValue c)) children' in
        if allChildrenCalculated && negb (fst st1) then
          let nodeWithChildren := with_children node children' in
          let val := calculateNodeEMV nodeWithChildren in
          (with_calculatedValue nodeWithChildren (Some val),
           (true,
            snd st1 ++ [mkLog (label node) (type node)
                              (getCalculationFormula nodeWithChildren)
                              val here]))
        else (with_children node children', st1)
  end.

(** [handleSolve(true)]: one manual step. *)
Definition handleSolveStep (s : AppState) : AppState :=
  let '(nextRoot, (foundNext, logs')) := stepCalculate [] (root s) (false, logs s) in
  if foundNext then mkApp nextRoot StepMode logs'
  else mkApp (markOptimalPath nextRoot) AutoMode logs'.

(** [clearValues] of the auto branch: the derived fields of every node that
    is not TERMINAL. *)
Fixpoint clearValuesAuto (node : TreeNode) : TreeNode :=
  if NodeType_eqb (type node) TERMINAL then
    with_children node (map clearValuesAuto (children node))
  else
    mkTreeNode (id node) (type node) (label node) (value node)
               (probability node) (map clearValuesAuto (children node))
               (collapsed node) None None (notes node).

(** The state of a replay: the working tree, the application state it
    publishes to, and the number of pacing delays awaited so far. *)
Record Replay := mkReplay {
  workingRoot : TreeNode;
  app : AppState;
  delays : nat
}.

(** [controller.signal.aborted].  The replay only yields inside a pacing
    delay, so the signal can only change there: [cancelAt = Some k] says
    that the cancellation arrives during the delay that follows [k]
    completed ones, [None] that it never arrives. *)
Definition aborted (cancelAt : option nat) (r : Replay) : bool :=
  match cancelAt with
  | Some k => (k <? delays r)%nat
  | None => false
  end.

Inductive LoopResult := Finished (r : Replay) | Returned (r : Replay).

(** One iteration of [for (const node of nodesInOrder)]: [Finished] when
    the iteration ends (also by [continue]), [Returned] when it leaves
    [handleSolve] by [return]. *)
Definition autoVisit (cancelAt : option nat) (p : path) (r : Replay)
  : LoopResult :=
  if aborted cancelAt r then Returned r
  else
    match subtree (workingRoot r) p with
    | None => Finished r
    | Some node =>
        if NodeType_eqb (type node) TERMINAL then
          Finished
            (mkReplay (assignCalculatedValue (workingRoot r) p (value node))
                      (app r) (delays r))
        else if isSome (calculatedValue node) then Finished r
        else
          let r1 := mkReplay (workingRoot r) (app r) (S (delays r)) in
          if aborted cancelAt r1 then Returned r1
          else
            let val := calculateNodeEMV node in
            let w := assignCalculatedValue (workingRoot r) p (Some val) in
            let newLog :=
              mkLog (label node) (type node)
                    (getCalculationFormula node) val p in
            Finished
              (mkReplay w
                        (mkApp w (calculationMode (app r))
                               (logs (app r) ++ [newLog]))
                        (delays r1))
    end.

Fixpoint autoLoop (cancelAt : option nat) (nodesInOrder : list path)
         (r : Replay) : LoopResult :=
  match nodesInOrder with
  | [] => Finished r
  | p :: rest =>
      match autoVisit cancelAt p r with
      | Finished r' => autoLoop cancelAt rest r'
      | Returned r' => Returned r'
      end
  end.

(** The entry of [handleSolve(false)]: the working copy of the tree
    ([JSON.parse(JSON.stringify(root))]) and, when the mode is 'edit' or
    'auto', its reset, published together with the emptied log.  On a tree
    whose number fields hold finite numbers the JSON copy is a deep copy
    with the same fields, absent ones staying absent (a negative zero is
    written as 0, the one zero of [Q]); it would write NaN and the
    infinities as [null], which no [TreeNode] of the embedding holds. *)
Definition autoEntry (s : AppState) : Replay :=
  let copy := root s in
  match calculationMode s with
  | EditMode | AutoMode =>
      let cleared := clearValuesAuto copy in
      mkReplay cleared (mkApp cleared StepMode []) 0
  | StepMode => mkReplay copy (mkApp (root s) StepMode (logs s)) 0
  end.

(** [handleSolve(false)]: the paced replay. *)
Definition handleSolveAuto (cancelAt : option nat) (s : AppState) : Replay :=
  let r0 := autoEntry s in
  match autoLoop cancelAt (postOrderPaths (workingRoot r0)) r0 with
  | Returned r => r
  | Finished r =>
      if aborted cancelAt r then r
      else
        let final := markOptimalPath (workingRoot r) in
        mkReplay final (mkApp final AutoMode (logs (app r))) (delays r)
  end.

(** The node operations of the application.  [handleAddNode] resets a
    running calculation and then adds the node. *)
Definition handleAddNode (gen : nat -> string) (parentId : string)
           (ty : NodeType) (s : AppState) (draws : nat) : AppState * nat :=
  let s1 := if match calculationMode s with EditMode => false | _ => true end
            then resetCalculation s else s in
  let '(r, draws') := addNodeToTree gen (root s1) parentId ty draws in
  (mkApp r (calculationMode s1) (logs s1), draws').

(** [selectedNode] of the application:
    [selectedNodeId ? findNode(root, selectedNodeId) : null], where [null]
    and the empty string are falsy. *)
Definition selectedNode (root : TreeNode) (selectedNodeId : option string)
  : option TreeNode :=
  match selectedNodeId with
  | None => None
  | Some i => if String.eqb i "" then None else findNode root i
  end.

(** ** components/Controls.tsx *)

(** The [onAddNode] calls the panel offers for the selected node: the three
    buttons are rendered only when [selectedNode.type !== NodeType.TERMINAL],
    and nothing is rendered without a selection. *)
Definition addChildActions (selectedNode : option TreeNode)
  : list (string * NodeType) :=
  match selectedNode with
  | None => []
  | Some n =>
      if negb (NodeType_eqb (type n) TERMINAL) then
        [(id n, DECISION); (id n, CHANCE); (id n, TERMINAL)]
      else []
  end.

(** ** components/TreeVisualizer.tsx *)

Unset Elimination Schemes.
Inductive LayoutNode := mkLayoutNode {
  data : TreeNode;
  x : Q;
  y : Q;
  layoutChildren : list LayoutNode
}.
Set Elimination Schemes.

Definition HORIZONTAL_SPACING : Q := 280.
Definition VERTICAL_SPACING : Q := 100.

Definition depthQ (depth : nat) : Q := inject_Z (Z.of_nat depth).

(** [childrenLayouts[i].y]; the index is always in range where it is used. *)
Definition yAt (ls : list LayoutNode) (i : nat) : Q :=
  match nth_error ls i with Some l => y l | None => 0 end.

(** [calculateLayout]; the closure variable [nextY] is threaded. *)
Fixpoint calculateLayout (node : TreeNode) (depth : nat) (nextY : Q)
  : LayoutNode * Q :=
  match children node with
  | [] =>
      (mkLayoutNode node (depthQ depth * HORIZONTAL_SPACING) nextY [],
       nextY + VERTICAL_SPACING)
  | _ =>
      let '(childrenLayouts, nextY') :=
        (fix each (cs : list TreeNode) (nextY : Q) : list LayoutNode * Q :=
           match cs with
           | [] => ([], nextY)
           | child :: rest =>
               let '(l, nextY1) := calculateLayout child (S depth) nextY in
               let '(ls, nextY2) := each rest nextY1 in
               (l :: ls, nextY2)
           end) (children node) nextY in
      let firstChildY := yAt childrenLayouts 0 in
      let lastChildY := yAt childrenLayouts (List.length childrenLayouts - 1) in
      (mkLayoutNode node (depthQ depth * HORIZONTAL_SPACING)
                    ((firstChildY + lastChildY) / 2) childrenLayouts,
       nextY')
  end.

Definition layoutTree (data : TreeNode) : LayoutNode :=
  fst (calculateLayout data 0 0).

Fixpoint layoutAt (l : LayoutNode) (p : path) : option LayoutNode :=
  match p with
  | [] => Some l
  | i :: q =>
      match nth_error (layoutChildren l) i with
      | Some c => layoutAt c q
      | None => None
      end
  end.

(** The leaves of a layout, left to right, depth first. *)
Fixpoint layoutLeaves (l : LayoutNode) : list LayoutNode :=
  match layoutChildren l with
  | [] => [l]
  | cs => flat_map layoutLeaves cs
  end.

(** The leaves of a tree (nodes without children), left to right, depth
    first. *)
Fixpoint treeLeaves (t : TreeNode) : list TreeNode :=
  match children t with
  | [] => [t]
  | cs => flat_map treeLeaves cs
  end.

(** ** Predicates on trees and logs *)

(** Data-model invariant: a TERMINAL node has no children. *)
Fixpoint terminalsAreLeaves (t : TreeNode) : bool :=
  (negb (NodeType_eqb (type t) TERMINAL)
   || (List.length (children t) =? 0)%nat)
  && forallb terminalsAreLeaves (children t).

(** [q] lies strictly below [p]. *)
Definition strictlyBelow (p q : path) : Prop :=
  exists r, r <> [] /\ q = p ++ r.

(** A sequence of logged positions is post-ordered when no position is
    followed, later in the sequence, by a position strictly below it. *)
Definition postOrdered (l : list path) : Prop :=
  forall i j p q,
    nth_error l i = Some p -> nth_error l j = Some q ->
    strictlyBelow p q -> (j < i)%nat.

(** Spec, EvaluationEngine: the expectation of a Chance node,
    "sum over children of calculatedValue times probability", missing
    operands read as 0. *)
Definition specExpectation (cs : list TreeNode) : Q :=
  fold_right
    (fun c acc => orElse (calculatedValue c) 0 * orElse (probability c) 0 + acc)
    0 cs.

(** ** Example trees *)

Definition terminalNode (i : string) (v p : Q) : TreeNode :=
  mkTreeNode i TERMINAL i (Some v) (Some p) [] None None None None.

Definition innerNode (i : string) (ty : NodeType) (cs : list TreeNode)
  : TreeNode :=
  mkTreeNode i ty i (Some 0) (Some (1 # 2)) cs None None None None.

(** Scenario A of the spec: a Decision root over two Chance nodes,
    A with branches 100 at 0.5 and 0 at 0.5, B with one branch 40 at 1. *)
Definition scenarioA : TreeNode :=
  innerNode "root" DECISION
    [ innerNode "A" CHANCE
        [terminalNode "a1" 100 (1 # 2); terminalNode "a2" 0 (1 # 2)];
      innerNode "B" CHANCE [terminalNode "b1" 40 1] ].

(** Scenario B of the spec: a Decision root, two Chance children, two
    Terminal leaves under each. *)
Definition scenarioB : TreeNode :=
  innerNode "root" DECISION
    [ innerNode "C1" CHANCE
        [terminalNode "t1" 2500 (6 # 10); terminalNode "t2" (-500) (4 # 10)];
      innerNode "C2" CHANCE
        [terminalNode "t3" 1200 (6 # 10); terminalNode "t4" 300 (4 # 10)] ].

(** A Decision root over two Terminal leaves. *)
Definition twoOutcomes : TreeNode :=
  innerNode "root" DECISION
    [terminalNode "win" 10 (1 # 2); terminalNode "lose" 3 (1 # 2)].

(** The Solved state reached from [twoOutcomes] by a complete replay. *)
Definition twoOutcomesSolved : AppState :=
  app (handleSolveAuto None (mkApp twoOutcomes EditMode [])).

(** The Solved state of Scenario A. *)
Definition scenarioASolved : TreeNode :=
  root (app (handleSolveAuto None (mkApp scenarioA EditMode []))).

(** * Predicates and auxiliary functions used in the proofs *)

(** The fields of a node, without its children. *)
Definition local (n : TreeNode) : TreeNode := with_children n [].

(** Two positions are the same or not. *)
Definition samePath (p q : path) : {p = q} + {p <> q} :=
  list_eq_dec Nat.eq_dec p q.
Arguments samePath : simpl never.

(** [postOrdered], by recursion on the sequence: nothing after a position
    lies strictly below it. *)
Fixpoint noLaterBelow (l : list path) : Prop :=
  match l with
  | [] => True
  | p :: r => (forall q, In q r -> ~ strictlyBelow p q) /\ noLaterBelow r
  end.

(** The inner loop of [postOrderPaths]: the references into the children
    [cs], the first of which is child number [i]. *)
Definition childPaths (i : nat) (cs : list TreeNode) : list path :=
  (fix go (i : nat) (cs : list TreeNode) : list path :=
     match cs with
     | [] => []
     | c :: r => map (cons i) (postOrderPaths c) ++ go (S i) r
     end) i cs.

(** The children of a marked node. *)
Definition markedChild (parent child : TreeNode) : TreeNode :=
  match NodeType_eqb (type parent) DECISION, calculatedValue parent with
  | true, Some maxVal =>
      with_isOptimal (markOptimalPath child)
        (Some (withinTolerance (calculatedValue child) maxVal))
  | _, _ => markOptimalPath child
  end.

(** TERMINAL nodes are leaves, position by position. *)
Definition LeavesOnly (t : TreeNode) : Prop :=
  forall p n, subtree t p = Some n -> type n = TERMINAL ->
              List.length (children n) = 0%nat.

(** The [forEach] of [calculateLayout] over the children, at depth [depth]. *)
Definition layoutEach (depth : nat) : list TreeNode -> Q -> list LayoutNode * Q :=
  fix each (cs : list TreeNode) (nextY : Q) : list LayoutNode * Q :=
    match cs with
    | [] => ([], nextY)
    | child :: rest =>
        let '(l, nextY1) := calculateLayout child depth nextY in
        let '(ls, nextY2) := each rest nextY1 in
        (l :: ls, nextY2)
    end.

(** The vertical slot [k] steps after [y0]. *)
Definition slot (y0 : Q) (k : nat) : Q :=
  Nat.iter k (fun y => y + VERTICAL_SPACING) y0.

(** The leaves of the layout of [n] are the leaves of [n], in consecutive
    slots from [y0] on, and [nextY] ends one slot after the last. *)
Definition leafSlots (n : TreeNode) : Prop :=
  forall depth y0,
    map data (layoutLeaves (fst (calculateLayout n depth y0))) = treeLeaves n /\
    map y (layoutLeaves (fst (calculateLayout n depth y0)))
    = map (slot y0) (seq 0 (List.length (treeLeaves n))) /\
    snd (calculateLayout n depth y0) = slot y0 (List.length (treeLeaves n)).

(** Two trees have the same positions, with nodes related by [R]. *)
Definition related (R : TreeNode -> TreeNode -> Prop) (t t' : TreeNode) : Prop :=
  forall p,
    match subtree t p, subtree t' p with
    | Some n, Some n' => R n n'
    | None, None => True
    | _, _ => False
    end.

(** Same type, value, label, probability and number of children. *)
Definition staticEq (n n' : TreeNode) : Prop :=
  type n' = type n /\ value n' = value n /\ label n' = label n /\
  probability n' = probability n /\
  List.length (children n') = List.length (children n).

(** The same, and the same calculatedValue. *)
Definition viewEq (n n' : TreeNode) : Prop :=
  staticEq n n' /\ calculatedValue n' = calculatedValue n.

Definition sameShape := related staticEq.
Definition sameView := related viewEq.

(** The replay state after the evaluation of the internal node [node] at
    [p]: value assigned, log entry appended, tree published, one more delay. *)
Definition afterEvaluation (p : path) (node : TreeNode) (r : Replay) : Replay :=
  let w := assignCalculatedValue (workingRoot r) p
             (Some (calculateNodeEMV node)) in
  mkReplay w
    (mkApp w (calculationMode (app r))
       (logs (app r)
        ++ [mkLog (label node) (type node) (getCalculationFormula node)
                  (calculateNodeEMV node) p]))
    (S (delays r)).

(** The replay state after the TERMINAL node [node] at [p] took its value. *)
Definition afterTerminal (p : path) (node : TreeNode) (r : Replay) : Replay :=
  mkReplay (assignCalculatedValue (workingRoot r) p (value node))
           (app r) (delays r).

(** The iterations of the replay loop that do not return. *)
Inductive visitStep (p : path) (r : Replay) : Replay -> Prop :=
| visit_missing :
    subtree (workingRoot r) p = None -> visitStep p r r
| visit_terminal n :
    subtree (workingRoot r) p = Some n -> type n = TERMINAL ->
    visitStep p r (afterTerminal p n r)
| visit_skip n :
    subtree (workingRoot r) p = Some n -> type n <> TERMINAL ->
    calculatedValue n <> None -> visitStep p r r
| visit_evaluate n :
    subtree (workingRoot r) p = Some n -> type n <> TERMINAL ->
    calculatedValue n = None -> visitStep p r (afterEvaluation p n r).

(** The node at [p] is internal and has a calculatedValue. *)
Definition evaluatedInternal (t : TreeNode) (p : path) : Prop :=
  exists n, subtree t p = Some n /\ type n <> TERMINAL /\
            calculatedValue n <> None.

(** The invariant of a tree [t] and the sequence [lp] of logged positions:
    TERMINAL nodes are leaves; below an evaluated internal node every
    internal node is evaluated; the logged positions are the evaluated
    internal nodes, each once, in post-order; a TERMINAL node that has a
    calculatedValue has its value. *)
Record TreeInv (t : TreeNode) (lp : list path) : Prop := mkTreeInv {
  inv_leaves : forall p n,
    subtree t p = Some n -> type n = TERMINAL ->
    List.length (children n) = 0%nat;
  inv_down : forall p q m,
    evaluatedInternal t p -> strictlyBelow p q -> subtree t q = Some m ->
    type m <> TERMINAL -> calculatedValue m <> None;
  inv_logged : forall p, In p lp <-> evaluatedInternal t p;
  inv_order : noLaterBelow lp;
  inv_nodup : NoDup lp;
  inv_terminal : forall p n v,
    subtree t p = Some n -> type n = TERMINAL ->
    calculatedValue n = Some v -> value n = Some v
}.

(** A node before and after the assignment of TERMINAL values. *)
Definition terminalStep (n n' : TreeNode) : Prop :=
  staticEq n n' /\
  (calculatedValue n' = calculatedValue n \/
   (type n = TERMINAL /\ calculatedValue n' = value n)).

(** A tree before and after the evaluation of the internal node at [p0],
    other nodes changing by [terminalStep]. *)
Definition evalStep (p0 : path) (t t' : TreeNode) : Prop :=
  forall q,
    match subtree t q, subtree t' q with
    | Some n, Some n' =>
        if samePath q p0 then
          staticEq n n' /\ type n <> TERMINAL /\
          calculatedValue n = None /\ calculatedValue n' <> None
        else terminalStep n n'
    | None, None => True
    | _, _ => False
    end.

(** The invariant of the replay loop over the references of [w0]. *)
Record LoopInv (w0 : TreeNode) (visited : list path) (r : Replay) : Prop :=
  mkLoopInv {
  li_working : TreeInv (workingRoot r) (map logNode (logs (app r)));
  li_published : TreeInv (root (app r)) (map logNode (logs (app r)));
  li_shape : sameShape w0 (workingRoot r);
  li_pubshape : sameShape w0 (root (app r));
  li_visited : forall q n,
    In q visited -> subtree (workingRoot r) q = Some n ->
    type n <> TERMINAL -> calculatedValue n <> None
}.

(** The invariant of the application state along a run over a tree of the
    shape of [t0]. *)
Definition StateInv (t0 : TreeNode) (s : AppState) : Prop :=
  TreeInv (root s) (map logNode (logs s)) /\ sameShape t0 (root s).

(** The [map] of [stepCalculate] over the children, the first of which is
    child number [i]. *)
Definition stepChildren (here : path)
  : nat -> list TreeNode -> bool * list CalculationLog ->
    list TreeNode * (bool * list CalculationLog) :=
  fix mapChildren (i : nat) (cs : list TreeNode)
      (st : bool * list CalculationLog) :=
    match cs with
    | [] => ([], st)
    | c :: r =>
        let '(c', st1) := stepCalculate (here ++ [i]) c st in
        let '(r', st2) := mapChildren (S i) r st1 in
        (c' :: r', st2)
    end.

(** The node at a position of a list of sibling trees. *)
Definition forestAt (cs : list TreeNode) (q : path) : option TreeNode :=
  match q with
  | [] => None
  | k :: q' =>
      match nth_error cs k with
      | Some c => subtree c q'
      | None => None
      end
  end.

(** What a step may do to a node other than the one it solves: nothing, or
    give a TERMINAL node without calculatedValue its value. *)
Definition stepChange (n n' : TreeNode) : Prop :=
  staticEq n n' /\
  (calculatedValue n' = calculatedValue n \/
   (calculatedValue n = None /\ type n = TERMINAL /\
    calculatedValue n' = value n)).

(** The node a step solves, and its log entry. *)
Definition solvedBy (n0 n0' : TreeNode) (e : CalculationLog) (at_ : path)
  : Prop :=
  staticEq n0 n0' /\ type n0 <> TERMINAL /\ calculatedValue n0 = None /\
  calculatedValue n0' = Some (calculateNodeEMV n0') /\
  Forall (fun c => calculatedValue c <> None) (children n0') /\
  logNode e = at_ /\ nodeLabel e = label n0 /\ nodeType e = type n0 /\
  result e = calculateNodeEMV n0'.

(** The outcome of [stepCalculate] on a tree (or on a list of siblings),
    read through the lookups [look] before and [look'] after; [pre] gives
    the position in the whole tree. *)
Definition StepSpec (look look' : path -> option TreeNode)
           (pre : path -> path) (st st' : bool * list CalculationLog) : Prop :=
  (forall q, look q = None -> look' q = None) /\
  ((st' = st /\
    forall q n, look q = Some n ->
                exists n', look' q = Some n' /\ stepChange n n')
   \/
   (fst st = false /\
    exists q0 n0 n0' e,
      look q0 = Some n0 /\ look' q0 = Some n0' /\
      solvedBy n0 n0' e (pre q0) /\
      st' = (true, snd st ++ [e]) /\
      forall q n, q <> q0 -> look q = Some n ->
                  exists n', look' q = Some n' /\ stepChange n n')).

(** The position in the whole tree of the position [q] of a list of
    siblings that starts at child number [i] of the node at [here]. *)
Definition preForest (here : path) (i : nat) (q : path) : path :=
  match q with
  | [] => here
  | k :: q' => here ++ (i + k)%nat :: q'
  end.

(** [stepCalculate] meets [StepSpec] on the tree [c]. *)
Definition stepOk (c : TreeNode) : Prop :=
  forall here st,
    StepSpec (subtree c) (subtree (fst (stepCalculate here c st)))
             (fun q => here ++ q) st (snd (stepCalculate here c st)).

(** The requests of the user during an evaluation run. *)
Inductive Action :=
| RequestStep
| RequestAuto (cancelAt : option nat)
| RequestReset.

(** A replay request is a call of [handleSolve(false)] whose cancellation
    point is [cancelAt]; what remains of it is the state it published. *)
Definition perform (a : Action) (s : AppState) : AppState :=
  match a with
  | RequestStep => handleSolveStep s
  | RequestAuto cancelAt => app (handleSolveAuto cancelAt s)
  | RequestReset => resetCalculation s
  end.

(** The state after a sequence of requests. *)
Definition run (actions : list Action) (s : AppState) : AppState :=
  fold_left (fun s a => perform a s) actions s.

(** The state in which a run starts: Edit mode, nothing evaluated, an empty
    log. *)
Definition freshState (t : TreeNode) : AppState := mkApp t EditMode [].

(** No node has a calculatedValue. *)
Fixpoint unevaluated (t : TreeNode) : bool :=
  negb (isSome (calculatedValue t)) && forallb unevaluated (children t).

(** The internal node at [p] has no calculatedValue yet. *)
Definition pending (t : TreeNode) (p : path) : bool :=
  match subtree t p with
  | Some n => negb (NodeType_eqb (type n) TERMINAL)
              && negb (isSome (calculatedValue n))
  | None => false
  end.

(** A log entry records the node at its position in [w]. *)
Definition entryOf (w : TreeNode) (e : CalculationLog) : Prop :=
  exists n, subtree w (logNode e) = Some n /\ type n <> TERMINAL /\
            nodeLabel e = label n /\ nodeType e = type n /\
            calculatedValue n = Some (result e).

(** A visited node, [n0] when the loop started and [n] now. *)
Definition visitedNode (n0 n : TreeNode) : Prop :=
  (type n0 = TERMINAL -> calculatedValue n = value n0) /\
  (type n0 <> TERMINAL -> calculatedValue n0 <> None ->
   calculatedValue n = calculatedValue n0) /\
  (type n0 <> TERMINAL -> calculatedValue n0 = None ->
   calculatedValue n = Some (calculateNodeEMV n)).

Record ReplayProgress (r0 : Replay) (visited : list path) (r : Replay)
  : Prop := mkReplayProgress {
  rp_shape : sameShape (workingRoot r0) (workingRoot r);
  rp_unvisited : forall p n0 n,
    ~ In p visited -> subtree (workingRoot r0) p = Some n0 ->
    subtree (workingRoot r) p = Some n ->
    calculatedValue n = calculatedValue n0;
  rp_logs : exists new,
    logs (app r) = logs (app r0) ++ new /\
    map logNode new = filter (pending (workingRoot r0)) visited /\
    Forall (entryOf (workingRoot r)) new;
  rp_delays :
    delays r = (delays r0
                + List.length (filter (pending (workingRoot r0)) visited))%nat;
  rp_visited : forall p n0 n,
    In p visited -> subtree (workingRoot r0) p = Some n0 ->
    subtree (workingRoot r) p = Some n -> visitedNode n0 n
}.

(** The node at [p] is an internal node. *)
Definition internalAt (t : TreeNode) (p : path) : bool :=
  match subtree t p with
  | Some n => negb (NodeType_eqb (type n) TERMINAL)
  | None => false
  end.

(** Every TERMINAL node carries a value. *)
Fixpoint terminalsHaveValue (t : TreeNode) : bool :=
  (negb (NodeType_eqb (type t) TERMINAL) || isSome (value t))
  && forallb terminalsHaveValue (children t).



(** The ids of a tree, the node first. *)
Fixpoint treeIds (t : TreeNode) : list string :=
  id t :: flat_map treeIds (children t).

(** No string occurs twice. *)
Fixpoint distinct (l : list string) : bool :=
  match l with
  | [] => true
  | a :: r => negb (existsb (String.eqb a) r) && distinct r
  end.

(** Data-model invariant: all ids of the tree are different. *)
Definition uniqueIds (t : TreeNode) : bool := distinct (treeIds t).

(** No TERMINAL node of the tree has the id [i]. *)
Fixpoint noTerminalNamed (i : string) (t : TreeNode) : bool :=
  (negb (String.eqb (id t) i) || negb (NodeType_eqb (type t) TERMINAL))
  && forallb (noTerminalNamed i) (children t).

(** The [map] of [addNodeToTree] over the children. *)
Definition addNodeChildren (gen : nat -> string) (parentId : string)
           (ty : NodeType) : list TreeNode -> nat -> list TreeNode * nat :=
  fix mapChildren (cs : list TreeNode) (d : nat) : list TreeNode * nat :=
    match cs with
    | [] => ([], d)
    | child :: rest =>
        let '(child', d1) := addNodeToTree gen child parentId ty d in
        let '(rest', d2) := mapChildren rest d1 in
        (child' :: rest', d2)
    end.

(** The [for] loop of [findNode] over the children. *)
Definition findFirst (i : string) : list TreeNode -> option TreeNode :=
  fix loop (cs : list TreeNode) : option TreeNode :=
    match cs with
    | [] => None
    | child :: rest =>
        match findNode child i with
        | Some found => Some found
        | None => loop rest
        end
    end.

(** The values of a tree are consistent: every TERMINAL node carries a value;
    an internal node that has a calculatedValue has the EMV of its children,
    all of which have a calculatedValue. *)
Record ValueInv (t : TreeNode) : Prop := mkValueInv {
  vi_values : forall p n,
    subtree t p = Some n -> type n = TERMINAL -> value n <> None;
  vi_consistent : forall p n,
    subtree t p = Some n -> type n <> TERMINAL ->
    calculatedValue n <> None ->
    calculatedValue n = Some (calculateNodeEMV n);
  vi_children : forall p n i c,
    subtree t p = Some n -> type n <> TERMINAL ->
    calculatedValue n <> None -> nth_error (children n) i = Some c ->
    calculatedValue c <> None
}.

(** The values part of the invariant of the replay loop. *)
Record LoopValues (visited : list path) (r : Replay) : Prop := mkLoopValues {
  lv_working : ValueInv (workingRoot r);
  lv_published : ValueInv (root (app r));
  lv_mode : calculationMode (app r) = StepMode;
  lv_visited : forall q n,
    In q visited -> subtree (workingRoot r) q = Some n ->
    calculatedValue n <> None
}.

(** The values part of the invariant of the application state: the values
    are consistent, and a Solved state holds a marked tree. *)
Definition StateValues (s : AppState) : Prop :=
  ValueInv (root s) /\
  (calculationMode s = AutoMode -> exists w, root s = markOptimalPath w).

(** * The rest of the tree store, the panel, the canvas and the analysis
      request *)

(** ** utils/treeUtils.ts: update, delete, the initial tree *)

(** [Partial<TreeNode>]: the keys an update object carries.  A key that is
    present ([Some]) overrides the field in a spread, also when the value it
    carries is [undefined] (the inner [None] of an optional field). *)
Record TreeNodeUpdates := mkUpdates {
  upd_id : option string;
  upd_type : option NodeType;
  upd_label : option string;
  upd_value : option (option Q);
  upd_probability : option (option Q);
  upd_children : option (list TreeNode);
  upd_collapsed : option (option bool);
  upd_calculatedValue : option (option Q);
  upd_isOptimal : option (option bool);
  upd_notes : option (option string)
}.

Definition override {A} (u : option A) (x : A) : A :=
  match u with Some v => v | None => x end.

(** [{ ...root, ...updates }]. *)
Definition applyUpdates (n : TreeNode) (u : TreeNodeUpdates) : TreeNode :=
  mkTreeNode (override (upd_id u) (id n)) (override (upd_type u) (type n))
             (override (upd_label u) (label n))
             (override (upd_value u) (value n))
             (override (upd_probability u) (probability n))
             (override (upd_children u) (children n))
             (override (upd_collapsed u) (collapsed n))
             (override (upd_calculatedValue u) (calculatedValue n))
             (override (upd_isOptimal u) (isOptimal n))
             (override (upd_notes u) (notes n)).

(** [updateNodeInTree]: the matched node is merged with the updates and not
    descended into. *)
Fixpoint updateNodeInTree (root : TreeNode) (i : string)
         (updates : TreeNodeUpdates) : TreeNode :=
  if String.eqb (id root) i then applyUpdates root updates
  else
    with_children root
      (map (fun child => updateNodeInTree child i updates) (children root)).

(** [deleteNodeFromTree]: [filter] then [map] over the children, as one
    loop. *)
Fixpoint deleteNodeFromTree (root : TreeNode) (i : string) : TreeNode :=
  with_children root
    ((fix filterMap (cs : list TreeNode) : list TreeNode :=
        match cs with
        | [] => []
        | child :: rest =>
            if negb (String.eqb (id child) i)
            then deleteNodeFromTree child i :: filterMap rest
            else filterMap rest
        end) (children root)).

(** [createInitialTree]: nine ids are drawn, in the order of the
    declarations; the root is named 'root'.  The outcome objects carry no
    calculatedValue, the Chance nodes and the root no probability. *)
Definition outcome (i : string) (l : string) (v p : Q) : TreeNode :=
  mkTreeNode i TERMINAL l (Some v) (Some p) [] None None None None.

Definition marketDemand (i : string) (l : string) (high low : TreeNode)
  : TreeNode :=
  mkTreeNode i CHANCE l (Some 0) None [high; low] None None None None.

Definition createInitialTree (gen : nat -> string) (draws : nat)
  : TreeNode * nat :=
  let demandHigh := "需求旺盛 (60%)"%string in
  let demandLow := "需求低迷 (40%)"%string in
  let t1_high := outcome (gen draws) demandHigh 2500 (6 # 10) in
  let t1_low := outcome (gen (1 + draws)%nat) demandLow (-500) (4 # 10) in
  let c1 := marketDemand (gen (2 + draws)%nat) "新建自动化工厂" t1_high t1_low in
  let t2_high := outcome (gen (3 + draws)%nat) demandHigh 1200 (6 # 10) in
  let t2_low := outcome (gen (4 + draws)%nat) demandLow 300 (4 # 10) in
  let c2 := marketDemand (gen (5 + draws)%nat) "扩建现有产线" t2_high t2_low in
  let t3_high := outcome (gen (6 + draws)%nat) demandHigh 800 (6 # 10) in
  let t3_low := outcome (gen (7 + draws)%nat) demandLow 500 (4 # 10) in
  let c3 := marketDemand (gen (8 + draws)%nat) "寻求外包协作" t3_high t3_low in
  (mkTreeNode "root" DECISION "生产扩能决策" (Some 0) None [c1; c2; c3]
              None None None None,
   (9 + draws)%nat).

(** The nodes of a tree, the node first, then the children's nodes, left to
    right. *)
Fixpoint treeNodes (t : TreeNode) : list TreeNode :=
  t :: flat_map treeNodes (children t).

(** The [filter] and [map] of [deleteNodeFromTree] over the children. *)
Definition deleteChildren (i : string) : list TreeNode -> list TreeNode :=
  fix filterMap (cs : list TreeNode) : list TreeNode :=
    match cs with
    | [] => []
    | child :: rest =>
        if negb (String.eqb (id child) i)
        then deleteNodeFromTree child i :: filterMap rest
        else filterMap rest
    end.

(** [{ ...n, children: [...n.children, c] }]. *)
Definition appendChild (c : TreeNode) (n : TreeNode) : TreeNode :=
  with_children n (children n ++ [c]).

(** Every node has its value: a TERMINAL node its own, an internal node the
    EMV of its children. *)
Definition fullyEvaluated (t : TreeNode) : Prop :=
  forall p n, subtree t p = Some n ->
    calculatedValue n <> None /\
    (type n = TERMINAL -> calculatedValue n = value n) /\
    (type n <> TERMINAL -> calculatedValue n = Some (calculateNodeEMV n)).

(** Below a node that has a calculatedValue every node has one. *)
Definition fullBelow (t : TreeNode) : Prop :=
  forall p n, subtree t p = Some n -> calculatedValue n <> None ->
    forall q m, subtree n q = Some m -> calculatedValue m <> None.

(** TERMINAL nodes are leaves and carry a value. *)
Definition leavesWithValues (t : TreeNode) : Prop :=
  forall p n, subtree t p = Some n -> type n = TERMINAL ->
    children n = [] /\ value n <> None.

(** In the Solved state ('auto' mode) every node has a calculatedValue. *)
Definition solvedComplete (s : AppState) : Prop :=
  calculationMode s = AutoMode ->
  forall p n, subtree (root s) p = Some n -> calculatedValue n <> None.

(** ** The node operations of the application (index.tsx), continued *)

(** [handleUpdateNode]: resets a running calculation, then updates. *)
Definition handleUpdateNode (i : string) (updates : TreeNodeUpdates)
           (s : AppState) : AppState :=
  let s1 := if match calculationMode s with EditMode => false | _ => true end
            then resetCalculation s else s in
  mkApp (updateNodeInTree (root s1) i updates) (calculationMode s1) (logs s1).

(** The application state together with the selection and the number of ids
    drawn so far. *)
Record Session := mkSession {
  sessionApp : AppState;
  selectedNodeId : option string;
  idDraws : nat
}.

(** [handleDeleteNode]: resets a running calculation, deletes, and clears the
    selection. *)
Definition handleDeleteNode (i : string) (u : Session) : Session :=
  let s := sessionApp u in
  let s1 := if match calculationMode s with EditMode => false | _ => true end
            then resetCalculation s else s in
  mkSession (mkApp (deleteNodeFromTree (root s1) i) (calculationMode s1)
                   (logs s1))
            None (idDraws u).

(** ** components/Controls.tsx, continued *)

Definition noUpdates : TreeNodeUpdates :=
  mkUpdates None None None None None None None None None None.

(** The update objects of the three input fields: [{ label }], [{ value }]
    and [{ probability }], for a number field whose text is a number:
    [parseFloat] then yields that number.  For an emptied number field
    [parseFloat] yields NaN, which is stored unchecked; that update is not
    among the ones below. *)
Definition labelUpdate (l : string) : TreeNodeUpdates :=
  mkUpdates None None (Some l) None None None None None None None.

Definition valueUpdate (v : Q) : TreeNodeUpdates :=
  mkUpdates None None None (Some (Some v)) None None None None None None.

Definition probabilityUpdate (p : Q) : TreeNodeUpdates :=
  mkUpdates None None None None (Some (Some p)) None None None None None.

(** What the user does.  The panel events exist only while the panel shows
    the element they come from.  [ChangeValue] and [ChangeProbability] are
    the changes of a number field to a text that is a number; the change to
    an empty text (NaN) is not an event of this type. *)
Inductive UserEvent :=
| ClickNode (i : string)
| ClickBackground
| ChangeLabel (l : string)
| ChangeValue (v : Q)
| ChangeProbability (p : Q)
| ClickAdd (ty : NodeType)
| ClickDelete
| ClickSolve (a : Action).

(** The handler an event runs.  The panel is rendered for the selected node
    only; the value field for a TERMINAL node, the probability field for a
    node that is not a DECISION and not named 'root', the add buttons for a
    node that is not TERMINAL; the delete button is disabled for the node
    named 'root'. *)
Definition handleEvent (gen : nat -> string) (e : UserEvent) (u : Session)
  : Session :=
  let s := sessionApp u in
  match e with
  | ClickNode i => mkSession s (Some i) (idDraws u)
  | ClickBackground => mkSession s None (idDraws u)
  | ClickSolve a => mkSession (perform a s) (selectedNodeId u) (idDraws u)
  | _ =>
      match selectedNode (root s) (selectedNodeId u) with
      | None => u
      | Some n =>
          match e with
          | ChangeLabel l =>
              mkSession (handleUpdateNode (id n) (labelUpdate l) s)
                        (selectedNodeId u) (idDraws u)
          | ChangeValue v =>
              if NodeType_eqb (type n) TERMINAL then
                mkSession (handleUpdateNode (id n) (valueUpdate v) s)
                          (selectedNodeId u) (idDraws u)
              else u
          | ChangeProbability p =>
              if negb (NodeType_eqb (type n) DECISION)
                 && negb (String.eqb (id n) "root") then
                mkSession (handleUpdateNode (id n) (probabilityUpdate p) s)
                          (selectedNodeId u) (idDraws u)
              else u
          | ClickAdd ty =>
              if negb (NodeType_eqb (type n) TERMINAL) then
                let '(s', draws') := handleAddNode gen (id n) ty s (idDraws u) in
                mkSession s' (selectedNodeId u) draws'
              else u
          | ClickDelete =>
              if String.eqb (id n) "root" then u
              else handleDeleteNode (id n) u
          | _ => u
          end
      end
  end.

(** The state the application starts in. *)
Definition initialSession (gen : nat -> string) : Session :=
  let '(t, draws) := createInitialTree gen 0 in
  mkSession (mkApp t EditMode []) (Some "root"%string) draws.

(** The state after a sequence of events. *)
Definition session (gen : nat -> string) (events : list UserEvent) : Session :=
  fold_left (fun u e => handleEvent gen e u) events (initialSession gen).

(** In 'edit' mode the log is empty and no node has a derived field. *)
Definition editClean (s : AppState) : Prop :=
  calculationMode s = EditMode ->
  logs s = [] /\ clearValues (root s) = root s.

(** The updates the panel sends: a label, a value or a probability. *)
Definition fieldUpdate (u : TreeNodeUpdates) : Prop :=
  upd_id u = None /\ upd_type u = None /\ upd_children u = None /\
  upd_calculatedValue u = None /\ upd_isOptimal u = None /\
  (upd_value u = None \/ exists v, upd_value u = Some (Some v)).

(** The ids drawn so far are different from each other and from 'root'. *)
Definition freshDraws (gen : nat -> string) (n : nat) : bool :=
  distinct ("root"%string :: map gen (seq 0 n)).

(** The invariant of a session: the application state is a state of an
    evaluation run over a tree [t] that has no derived fields, whose root is
    the DECISION node 'root', whose TERMINAL nodes are leaves and carry a
    value, and whose ids are different and are 'root' or drawn ids. *)
Record SessionInv (gen : nat -> string) (u : Session) (t : TreeNode)
       (actions : list Action) : Prop := mkSessionInv {
  si_run : sessionApp u = run actions (freshState t);
  si_clean : clearValues t = t;
  si_root : id t = "root"%string /\ type t = DECISION;
  si_leaves : terminalsAreLeaves t = true;
  si_values : terminalsHaveValue t = true;
  si_nodup : NoDup (treeIds t);
  si_ids : forall i, In i (treeIds t) ->
                     i = "root"%string \/ exists k, (k < idDraws u)%nat /\ i = gen k
}.

(** ** components/TreeVisualizer.tsx, continued *)

(** The zoom and pan state: [transform], [isDragging] and the [lastMouse]
    reference. *)
Record Transform := mkTransform { tr_x : Q; tr_y : Q; tr_k : Q }.

Record View := mkView {
  transform : Transform;
  isDragging : bool;
  lastMouse : Q * Q
}.

Definition initialView : View :=
  mkView (mkTransform 50 50 (8 # 10)) false (0, 0).

Definition handleMouseDown (clientX clientY : Q) (v : View) : View :=
  mkView (transform v) true (clientX, clientY).

Definition handleMouseMove (clientX clientY : Q) (v : View) : View :=
  if negb (isDragging v) then v
  else
    let dx := clientX - fst (lastMouse v) in
    let dy := clientY - snd (lastMouse v) in
    mkView (mkTransform (tr_x (transform v) + dx) (tr_y (transform v) + dy)
                        (tr_k (transform v)))
           (isDragging v) (clientX, clientY).

Definition handleMouseUp (v : View) : View :=
  mkView (transform v) false (lastMouse v).

(** [Math.min] of two numbers. *)
Definition Qmin2 (a b : Q) : Q := if Qle_bool a b then a else b.

Definition handleWheel (deltaY : Q) (v : View) : View :=
  let scaleFactor := 1 # 1000 in
  let newScale :=
    Qmin2 (Qmax2 (tr_k (transform v) - deltaY * scaleFactor) (1 # 10)) 5 in
  mkView (mkTransform (tr_x (transform v)) (tr_y (transform v)) newScale)
         (isDragging v) (lastMouse v).

(** The mouse events of the canvas; [onMouseLeave] runs [handleMouseUp]. *)
Inductive CanvasEvent :=
| MouseDown (clientX clientY : Q)
| MouseMove (clientX clientY : Q)
| MouseUp
| MouseLeave
| Wheel (deltaY : Q).

Definition handleCanvasEvent (e : CanvasEvent) (v : View) : View :=
  match e with
  | MouseDown cx cy => handleMouseDown cx cy v
  | MouseMove cx cy => handleMouseMove cx cy v
  | MouseUp | MouseLeave => handleMouseUp v
  | Wheel deltaY => handleWheel deltaY v
  end.

(** A connector of [renderLinks]: its key, the end points [p1] and [p2] and
    the two control points of the curve, whether it is drawn as part of the
    optimal path, the position of its label, and the probability badge, shown
    under a CHANCE node only. *)
Record Link := mkLink {
  linkKey : string;
  p1 : Q * Q;
  control1 : Q * Q;
  control2 : Q * Q;
  p2 : Q * Q;
  isOptimalPath : bool;
  labelAt : Q * Q;
  badge : option (option Q)
}.

(** The truth value of [child.data.isOptimal && node.data.isOptimal !== false]. *)
Definition optimalLink (node child : TreeNode) : bool :=
  match isOptimal child with
  | Some true =>
      match isOptimal node with Some false => false | _ => true end
  | _ => false
  end.

Definition linkTo (node child : LayoutNode) : Link :=
  let p1 := (x node + 20, y node) in
  let p2 := (x child - 20, y child) in
  mkLink (id (data node) ++ "-" ++ id (data child))%string
         p1
         (fst p1 + HORIZONTAL_SPACING / 2, snd p1)
         (fst p2 - HORIZONTAL_SPACING / 2, snd p2)
         p2
         (optimalLink (data node) (data child))
         ((fst p1 + fst p2) / 2 - 40, (snd p1 + snd p2) / 2 - 12)
         (if NodeType_eqb (type (data node)) CHANCE
          then Some (probability (data child)) else None).

(** [renderLinks]: for each child its connector, then the connectors below
    it. *)
Fixpoint renderLinks (node : LayoutNode) : list Link :=
  (fix each (cs : list LayoutNode) : list Link :=
     match cs with
     | [] => []
     | child :: rest => (linkTo node child :: renderLinks child) ++ each rest
     end) (layoutChildren node).

(** What [renderNodes] draws for a node: the key, the translation, whether
    it is drawn as selected, the shape (by type), the label, and the value
    line: the value of a TERMINAL node, or the EMV of another node when
    values are shown and it has one. *)
Inductive ValueLine :=
| NoValue
| TerminalValue (v : option Q)
| EmvValue (v : Q).

Record NodeView := mkNodeView {
  nodeKey : string;
  translate : Q * Q;
  isSelected : bool;
  shape : NodeType;
  labelText : string;
  valueLine : ValueLine
}.

Definition nodeView (selectedId : option string) (showValues : bool)
           (node : LayoutNode) : NodeView :=
  let isTerminal := NodeType_eqb (type (data node)) TERMINAL in
  mkNodeView (id (data node)) (x node, y node)
             (match selectedId with
              | Some i => String.eqb (id (data node)) i
              | None => false
              end)
             (type (data node))
             (label (data node))
             (if showValues || isTerminal then
                if isTerminal then TerminalValue (value (data node))
                else match calculatedValue (data node) with
                     | Some v => EmvValue v
                     | None => NoValue
                     end
              else NoValue).

(** [renderNodes]: the node, then the nodes of its children, left to
    right. *)
Fixpoint renderNodes (selectedId : option string) (showValues : bool)
         (node : LayoutNode) : list NodeView :=
  nodeView selectedId showValues node
  :: (fix each (cs : list LayoutNode) : list NodeView :=
        match cs with
        | [] => []
        | child :: rest => renderNodes selectedId showValues child ++ each rest
        end) (layoutChildren node).

(** The canvas of the application: [showValues] is [calculationMode !== 'edit']. *)
Definition canvasNodes (s : AppState) (selectedId : option string)
  : list NodeView :=
  renderNodes selectedId
              (match calculationMode s with EditMode => false | _ => true end)
              (layoutTree (root s)).

Definition canvasLinks (s : AppState) : list Link :=
  renderLinks (layoutTree (root s)).

(** The inner loops of [renderLinks] and [renderNodes]. *)
Definition linksEach (node : LayoutNode) : list LayoutNode -> list Link :=
  fix each (cs : list LayoutNode) : list Link :=
    match cs with
    | [] => []
    | child :: rest => (linkTo node child :: renderLinks child) ++ each rest
    end.

Definition nodesEach (selectedId : option string) (showValues : bool)
  : list LayoutNode -> list NodeView :=
  fix each (cs : list LayoutNode) : list NodeView :=
    match cs with
    | [] => []
    | child :: rest => renderNodes selectedId showValues child ++ each rest
    end.

(** The nodes of a layout, the node first, then the children's nodes. *)
Fixpoint layoutNodes (l : LayoutNode) : list LayoutNode :=
  l :: flat_map layoutNodes (layoutChildren l).

(** The nested induction principle of layouts. *)
Section LayoutInd.
Variable P : LayoutNode -> Prop.
Hypothesis step : forall l, Forall P (layoutChildren l) -> P l.

Fixpoint LayoutNode_nested_ind (l : LayoutNode) : P l :=
  step l
    ((fix go (cs : list LayoutNode) : Forall P cs :=
        match cs with
        | [] => Forall_nil P
        | c :: r => Forall_cons c (LayoutNode_nested_ind c) (go r)
        end) (layoutChildren l)).
End LayoutInd.

(** A log entry explains the node at its position in [t]: the node is an
    internal node with the entry's label and type, the entry's formula is
    the formula of the node as it is in [t], the entry's result is the EMV
    of the node and its calculatedValue, and every operand of the formula is
    defined. *)
Definition entryExplains (t : TreeNode) (e : CalculationLog) : Prop :=
  exists n,
    subtree t (logNode e) = Some n /\ type n <> TERMINAL /\
    nodeLabel e = label n /\ nodeType e = type n /\
    formula e = getCalculationFormula n /\
    result e = calculateNodeEMV n /\
    calculatedValue n = Some (result e) /\
    Forall (fun c => calculatedValue c <> None) (children n).

(** A node after a change that keeps the calculatedValue it had. *)
Definition keeps (n n' : TreeNode) : Prop :=
  staticEq n n' /\
  (calculatedValue n <> None -> calculatedValue n' = calculatedValue n).

(** ** The analysis request (index.tsx) *)

(** The state of the analysis panel: the request counter (a reference), the
    report, the two flags, and the messages shown by [alert]. *)
Record Analysis := mkAnalysis {
  analysisRequestId : nat;
  aiAnalysis : option string;
  isAnalyzing : bool;
  showAiSettings : bool;
  alerts : list string
}.

Definition initialAnalysis : Analysis := mkAnalysis 0 None false false [].

(** [handleAnalyze] up to its [await]; [blankKey] is [!apiKey.trim()].  With
    a blank key it opens the settings and returns; otherwise it takes the
    next request id, which is the id the rest of the call holds. *)
Definition handleAnalyze (blankKey : bool) (a : Analysis)
  : Analysis * option nat :=
  if blankKey then
    (mkAnalysis (analysisRequestId a) (aiAnalysis a) (isAnalyzing a) true
                (alerts a), None)
  else
    let requestId := (analysisRequestId a + 1)%nat in
    (mkAnalysis requestId None true false (alerts a), Some requestId).

(** The rest of [handleAnalyze], when [analyzeTree] has returned a report
    ([inl]) or thrown ([inr], with the message): the [try], the [catch] and
    the [finally], each guarded by the comparison with the counter. *)
Definition handleAnalyzeSettled (requestId : nat) (outcome : string + string)
           (a : Analysis) : Analysis :=
  let current := (requestId =? analysisRequestId a)%nat in
  let a1 :=
    match outcome with
    | inl result =>
        if current then
          mkAnalysis (analysisRequestId a) (Some result) (isAnalyzing a)
                     (showAiSettings a) (alerts a)
        else a
    | inr message =>
        if current then
          mkAnalysis (analysisRequestId a) (aiAnalysis a) (isAnalyzing a)
                     true (alerts a ++ [message])
        else a
    end in
  if current then
    mkAnalysis (analysisRequestId a1) (aiAnalysis a1) false
               (showAiSettings a1) (alerts a1)
  else a1.

(** What happens to the panel: a call of [handleAnalyze], the settling of an
    earlier call, the close button of the report ([setAiAnalysis(null)]),
    and the two buttons that toggle and open the settings. *)
Inductive AnalysisEvent :=
| Analyze (blankKey : bool)
| Settled (requestId : nat) (outcome : string + string)
| CloseReport
| ToggleSettings
| OpenSettings.

Definition handleAnalysisEvent (e : AnalysisEvent) (a : Analysis) : Analysis :=
  match e with
  | Analyze blankKey => fst (handleAnalyze blankKey a)
  | Settled requestId outcome => handleAnalyzeSettled requestId outcome a
  | CloseReport =>
      mkAnalysis (analysisRequestId a) None (isAnalyzing a)
                 (showAiSettings a) (alerts a)
  | ToggleSettings =>
      mkAnalysis (analysisRequestId a) (aiAnalysis a) (isAnalyzing a)
                 (negb (showAiSettings a)) (alerts a)
  | OpenSettings =>
      mkAnalysis (analysisRequestId a) (aiAnalysis a) (isAnalyzing a)
                 true (alerts a)
  end.

(** ** Example inputs, continued *)

(** An id supply: 'a', 'b', 'c', ... *)
Definition exampleIds (k : nat) : string :=
  String (Ascii.ascii_of_nat (97 + k)) EmptyString.

(** A session: add a CHANCE node under the root, take a step, select the
    first outcome of the first option, change its value, replay, and delete
    the selected node. *)
Definition exampleEvents : list UserEvent :=
  [ClickAdd CHANCE; ClickSolve RequestStep; ClickNode "a";
   ChangeValue 3000; ClickSolve (RequestAuto None); ClickDelete].

(** Four steps solve Scenario A: the two CHANCE nodes, the root, and the
    step that finds nothing left. *)
Definition fourSteps : list Action :=
  [RequestStep; RequestStep; RequestStep; RequestStep].

(** * Properties *)

Lemma NodeType_eqb_eq a b : NodeType_eqb a b = true <-> a = b.
Proof. destruct a, b; simpl; split; congruence. Qed.

Lemma NodeType_eqb_neq a b : NodeType_eqb a b = false <-> a <> b.
Proof. destruct a, b; simpl; split; congruence. Qed.

(** ** The evaluator *)

Lemma Qmax2_ge_l a b : a <= Qmax2 a b.
Proof.
  unfold Qmax2. destruct (Qle_bool a b) eqn:E.
  - now apply Qle_bool_iff.
  - apply Qle_refl.
Qed.

Lemma Qmax2_ge_r a b : b <= Qmax2 a b.
Proof.
  unfold Qmax2. destruct (Qle_bool a b) eqn:E.
  - apply Qle_refl.
  - apply Qlt_le_weak, Qnot_le_lt. intro H.
    apply Qle_bool_iff in H. congruence.
Qed.

Lemma Qmax2_cases a b : Qmax2 a b = a \/ Qmax2 a b = b.
Proof. unfold Qmax2. destruct (Qle_bool a b); auto. Qed.

Lemma Math_max_ge_first xs : forall x, x <= Math_max x xs.
Proof.
  unfold Math_max. induction xs as [|a xs IH]; intros x; simpl.
  - apply Qle_refl.
  - eapply Qle_trans; [apply (Qmax2_ge_l x a) | apply IH].
Qed.

Lemma Math_max_ge_rest xs : forall x v, In v xs -> v <= Math_max x xs.
Proof.
  induction xs as [|a xs IH]; intros x v Hin; [destruct Hin|].
  unfold Math_max. simpl. destruct Hin as [<-|Hin].
  - eapply Qle_trans; [apply (Qmax2_ge_r x a)|].
    apply (Math_max_ge_first xs (Qmax2 x a)).
  - apply (IH (Qmax2 x a) v Hin).
Qed.

Lemma Math_max_upper x xs v : In v (x :: xs) -> v <= Math_max x xs.
Proof.
  intros [<-|Hin]; [apply Math_max_ge_first | now apply Math_max_ge_rest].
Qed.

Lemma Math_max_attained xs : forall x, In (Math_max x xs) (x :: xs).
Proof.
  induction xs as [|a xs IH]; intros x; [now left|].
  unfold Math_max. simpl.
  destruct (IH (Qmax2 x a)) as [H|H].
  - fold (Math_max (Qmax2 x a) xs). rewrite <- H.
    destruct (Qmax2_cases x a) as [-> | ->]; [now left | right; now left].
  - right. right. exact H.
Qed.

Lemma fold_left_sum_acc (f : TreeNode -> Q) cs :
  forall acc, fold_left (fun sum c => sum + f c) cs acc
              == acc + fold_right (fun c a => f c + a) 0 cs.
Proof.
  induction cs as [|c cs IH]; intros acc; simpl.
  - ring.
  - rewrite IH. ring.
Qed.

Lemma calculateNodeEMV_decision (node : TreeNode) :
  type node = DECISION ->
  (children node = [] -> calculateNodeEMV node = 0) /\
  (children node <> [] ->
     (exists c, In c (children node) /\
                calculateNodeEMV node = orElse (calculatedValue c) 0) /\
     (forall c, In c (children node) ->
                orElse (calculatedValue c) 0 <= calculateNodeEMV node)).
Proof.
  unfold calculateNodeEMV. intros H. rewrite H. simpl.
  split; [intros ->; reflexivity|].
  intros Hne. destruct (children node) as [|c cs]; [congruence|]. split.
  - pose proof (Math_max_attained
                  (map (fun c => orElse (calculatedValue c) 0) cs)
                  (orElse (calculatedValue c) 0)) as [Hm|Hm].
    + exists c. split; [now left | now rewrite <- Hm].
    + apply in_map_iff in Hm as (c' & Hc' & Hin).
      exists c'. split; [now right | now rewrite Hc'].
  - intros c' Hin. apply Math_max_upper.
    destruct Hin as [<-|Hin]; [now left | right].
    apply in_map_iff. now exists c'.
Qed.

Lemma calculateNodeEMV_chance (node : TreeNode) :
  type node = CHANCE ->
  calculateNodeEMV node == specExpectation (children node).
Proof.
  unfold calculateNodeEMV. intros ->. simpl.
  destruct (children node) as [|c cs]; [reflexivity|].
  unfold specExpectation.
  rewrite (fold_left_sum_acc
             (fun c => orElse (calculatedValue c) 0 * orElse (probability c) 0)).
  cbn [fold_right]. ring.
Qed.

(** C1. [calculateNodeEMV] returns: for a TERMINAL node its value, 0 when
    the value is undefined; for a DECISION node 0 when it has no children,
    and otherwise the maximum of the children's calculatedValue (undefined
    read as 0): a value one child has and no child exceeds; for a CHANCE
    node the sum over the children of calculatedValue times probability,
    missing operands read as 0. *)
Theorem calculateNodeEMV_cases (node : TreeNode) :
  (type node = TERMINAL ->
     calculateNodeEMV node = orElse (value node) 0) /\
  (type node = DECISION ->
     (children node = [] -> calculateNodeEMV node = 0) /\
     (children node <> [] ->
        (exists c, In c (children node) /\
                   calculateNodeEMV node = orElse (calculatedValue c) 0) /\
        (forall c, In c (children node) ->
                   orElse (calculatedValue c) 0 <= calculateNodeEMV node))) /\
  (type node = CHANCE ->
     calculateNodeEMV node == specExpectation (children node)).
Proof.
  split; [|split].
  - unfold calculateNodeEMV. intros ->. reflexivity.
  - apply calculateNodeEMV_decision.
  - apply calculateNodeEMV_chance.
Qed.

(** ** Positions and assignments through them *)

Lemma nth_error_updateNth_same A (f : A -> A) (l : list A) :
  forall i, nth_error (updateNth i f l) i = option_map f (nth_error l i).
Proof.
  induction l as [|a l IH]; intros [|i]; simpl; auto.
Qed.

Lemma nth_error_updateNth_other A (f : A -> A) (l : list A) :
  forall i j, i <> j -> nth_error (updateNth i f l) j = nth_error l j.
Proof.
  induction l as [|a l IH]; intros [|i] [|j] Hij; simpl; auto; try congruence.
Qed.

Lemma length_updateNth A (f : A -> A) (l : list A) :
  forall i, List.length (updateNth i f l) = List.length l.
Proof.
  induction l as [|a l IH]; intros [|i]; simpl; auto.
Qed.

Lemma subtree_app t p : forall q,
  subtree t (p ++ q) =
  match subtree t p with Some n => subtree n q | None => None end.
Proof.
  revert t. induction p as [|i p IH]; intros t q; simpl; [reflexivity|].
  destruct (nth_error (children t) i); auto.
Qed.

Lemma subtree_child t p n i :
  subtree t p = Some n -> subtree t (p ++ [i]) = nth_error (children n) i.
Proof.
  intros H. rewrite subtree_app, H. simpl.
  destruct (nth_error (children n) i); reflexivity.
Qed.

(** What an assignment at [p] shows at a position [q]: the same shape, and
    the same fields unless [q] is [p]. *)
Lemma subtree_updateAt f (Hf : forall n, children (f n) = children n) p :
  forall t q n,
    subtree t q = Some n ->
    exists n',
      subtree (updateAt f t p) q = Some n' /\
      List.length (children n') = List.length (children n) /\
      local n' = if samePath q p then local (f n) else local n.
Proof.
  induction p as [|j p IH]; intros t q n Hq; simpl.
  - destruct q as [|i q].
    + injection Hq as <-. exists (f t).
      split; [reflexivity|]. split; [now rewrite Hf|].
      destruct (samePath [] []) as [_|N]; [reflexivity | now elim N].
    + exists n. simpl in *. rewrite Hf, Hq.
      split; [reflexivity|]. split; [reflexivity|].
      destruct (samePath (i :: q) []); [discriminate | reflexivity].
  - destruct q as [|i q].
    + injection Hq as <-. eexists. split; [reflexivity|]. simpl.
      rewrite length_updateNth. split; [reflexivity|].
      destruct (samePath [] (j :: p)); [discriminate | reflexivity].
    + simpl in *. destruct (Nat.eq_dec j i) as [->|Hji].
      * rewrite nth_error_updateNth_same.
        destruct (nth_error (children t) i) as [c|]; [simpl|discriminate].
        destruct (IH c q n Hq) as (n' & H1 & H2 & H3).
        exists n'. split; [exact H1|]. split; [exact H2|]. rewrite H3.
        destruct (samePath q p) as [E|N], (samePath (i :: q) (i :: p)) as [E'|N'];
          try reflexivity.
        -- elim N'. now rewrite E.
        -- elim N. now injection E'.
      * rewrite nth_error_updateNth_other by assumption.
        destruct (nth_error (children t) i) as [c|]; [|discriminate].
        exists n. split; [exact Hq|]. split; [reflexivity|].
        destruct (samePath (i :: q) (j :: p)) as [E|N]; [|reflexivity].
        elim Hji. now injection E.
Qed.

Lemma subtree_updateAt_None f (Hf : forall n, children (f n) = children n) p :
  forall t q, subtree t q = None -> subtree (updateAt f t p) q = None.
Proof.
  induction p as [|j p IH]; intros t q Hq; simpl.
  - destruct q as [|i q]; [discriminate|]. simpl in *. now rewrite Hf.
  - destruct q as [|i q]; [discriminate|]. simpl in *.
    destruct (Nat.eq_dec j i) as [->|Hji].
    + rewrite nth_error_updateNth_same.
      destruct (nth_error (children t) i) as [c|]; simpl; auto.
    + now rewrite nth_error_updateNth_other.
Qed.

Lemma children_with_calculatedValue v n :
  children (with_calculatedValue n v) = children n.
Proof. reflexivity. Qed.

(** The assignment [node.calculatedValue = v] seen from a position [q]. *)
Lemma subtree_assign t p v q n :
  subtree t q = Some n ->
  exists n',
    subtree (assignCalculatedValue t p v) q = Some n' /\
    List.length (children n') = List.length (children n) /\
    type n' = type n /\ value n' = value n /\ label n' = label n /\
    probability n' = probability n /\ isOptimal n' = isOptimal n /\
    calculatedValue n' = if samePath q p then v else calculatedValue n.
Proof.
  intros H.
  destruct (subtree_updateAt _ (children_with_calculatedValue v) p t q n H)
    as (n' & H1 & H2 & H3).
  exists n'. split; [exact H1|]. split; [exact H2|].
  destruct (samePath q p);
    repeat split;
    first [ exact (f_equal type H3) | exact (f_equal value H3)
          | exact (f_equal label H3) | exact (f_equal probability H3)
          | exact (f_equal isOptimal H3)
          | exact (f_equal calculatedValue H3) ].
Qed.

Lemma subtree_assign_None t p v q :
  subtree t q = None -> subtree (assignCalculatedValue t p v) q = None.
Proof. apply subtree_updateAt_None. reflexivity. Qed.

Lemma Forall2_pointwise A B (R : A -> B -> Prop) :
  forall l l',
    List.length l = List.length l' ->
    (forall i a b, nth_error l i = Some a -> nth_error l' i = Some b -> R a b) ->
    Forall2 R l l'.
Proof.
  induction l as [|a l IH]; intros [|b l'] Hlen H; simpl in *;
    try discriminate; constructor.
  - apply (H 0%nat); reflexivity.
  - apply IH; [lia|]. intros i. apply (H (S i)).
Qed.

(** [calculateNodeEMV] reads the node's type and value and its children's
    calculatedValue and probability, nothing else. *)
Lemma calculateNodeEMV_ext n m :
  type n = type m -> value n = value m ->
  Forall2 (fun c d => calculatedValue c = calculatedValue d /\
                      probability c = probability d)
          (children n) (children m) ->
  calculateNodeEMV n = calculateNodeEMV m.
Proof.
  intros Ht Hv Hc. unfold calculateNodeEMV. rewrite Ht, Hv.
  destruct (NodeType_eqb (type m) TERMINAL); [reflexivity|].
  inversion Hc as [|c d cs ds [Hcv Hp] Hrest Hn Hm]; [reflexivity|].
  assert (Hmap : map (fun c => orElse (calculatedValue c) 0) cs
                 = map (fun c => orElse (calculatedValue c) 0) ds).
  { clear - Hrest. induction Hrest as [|a b l l' [E _] _ IH]; simpl;
      [reflexivity | now rewrite E, IH]. }
  rewrite Hmap, Hcv.
  destruct (NodeType_eqb (type m) DECISION); [reflexivity|].
  destruct (NodeType_eqb (type m) CHANCE); [|reflexivity].
  simpl. rewrite Hcv, Hp.
  generalize (0 + orElse (calculatedValue d) 0 * orElse (probability d) 0).
  clear - Hrest. induction Hrest as [|a b l l' [E1 E2] _ IH]; intros acc; simpl;
    [reflexivity | now rewrite E1, E2, IH].
Qed.

(** An assignment at [p] does not change what [calculateNodeEMV] computes at
    a position [q], unless [p] is a child of [q]. *)
Lemma calculateNodeEMV_assign t p v q n n' :
  subtree t q = Some n ->
  subtree (assignCalculatedValue t p v) q = Some n' ->
  (forall i, p <> q ++ [i]) ->
  calculateNodeEMV n' = calculateNodeEMV n.
Proof.
  intros Hn Hn' Hp.
  destruct (subtree_assign t p v q n Hn) as (n1 & E & Hlen & Hty & Hval & _).
  rewrite Hn' in E. injection E as <-.
  apply calculateNodeEMV_ext; auto.
  apply Forall2_pointwise; [exact Hlen|].
  intros i a b Ha Hb.
  rewrite <- (subtree_child _ _ _ i Hn') in Ha.
  rewrite <- (subtree_child _ _ _ i Hn) in Hb.
  destruct (subtree_assign t p v (q ++ [i]) b Hb)
    as (a' & E & _ & _ & _ & _ & Hpr & _ & Hcv).
  rewrite Ha in E. injection E as <-.
  destruct (samePath (q ++ [i]) p) as [Heq|_]; [now elim (Hp i)|].
  auto.
Qed.

(** ** The post-order of positions *)

Lemma strictlyBelow_irrefl p : ~ strictlyBelow p p.
Proof.
  intros (r & Hr & E). apply Hr.
  rewrite <- (app_nil_r p) in E at 1. now apply app_inv_head in E.
Qed.

Lemma strictlyBelow_cons i j p q :
  strictlyBelow (i :: p) (j :: q) <-> i = j /\ strictlyBelow p q.
Proof.
  split.
  - intros (r & Hr & E). simpl in E. injection E as -> ->.
    split; [reflexivity | now exists r].
  - intros (-> & r & Hr & ->). now exists r.
Qed.

Lemma strictlyBelow_nil_r p : ~ strictlyBelow p [].
Proof.
  intros (r & Hr & E). symmetry in E. apply app_eq_nil in E. tauto.
Qed.

Lemma strictlyBelow_child p i : strictlyBelow p (p ++ [i]).
Proof. exists [i]. split; [discriminate | reflexivity]. Qed.

Lemma strictlyBelow_split p q :
  strictlyBelow p q -> exists i r, q = (p ++ [i]) ++ r.
Proof.
  intros ([|i r] & Hr & ->); [congruence|].
  exists i, r. now rewrite <- app_assoc.
Qed.

Lemma noLaterBelow_app l1 : forall l2,
  noLaterBelow l1 -> noLaterBelow l2 ->
  (forall p q, In p l1 -> In q l2 -> ~ strictlyBelow p q) ->
  noLaterBelow (l1 ++ l2).
Proof.
  induction l1 as [|a l1 IH]; intros l2 H1 H2 H; simpl; [exact H2|].
  destruct H1 as [Ha H1]. split.
  - intros q Hq. apply in_app_or in Hq as [Hq|Hq];
      [now apply Ha | apply H; [now left | exact Hq]].
  - apply IH; auto. intros p q Hp. apply H. now right.
Qed.

Lemma noLaterBelow_map_cons i l :
  noLaterBelow l -> noLaterBelow (map (cons i) l).
Proof.
  induction l as [|a l IH]; simpl; [auto|]. intros [Ha Hl]. split; [|auto].
  intros q Hq. apply in_map_iff in Hq as (q' & <- & Hq').
  rewrite strictlyBelow_cons. intros [_ Hb]. exact (Ha q' Hq' Hb).
Qed.

Lemma noLaterBelow_middle l1 p l2 q :
  noLaterBelow (l1 ++ p :: l2) -> In q l2 -> ~ strictlyBelow p q.
Proof.
  induction l1 as [|a l1 IH]; simpl; intros [Ha Hl] Hq; [now apply Ha | auto].
Qed.

Lemma noLaterBelow_postOrdered l : noLaterBelow l -> postOrdered l.
Proof.
  induction l as [|a l IH]; intros Hl i j p q Hi Hj Hb.
  - destruct i; discriminate.
  - destruct Hl as [Ha Hl]. destruct i as [|i], j as [|j]; simpl in *.
    + injection Hi as <-. injection Hj as <-. now apply strictlyBelow_irrefl in Hb.
    + injection Hi as <-. apply nth_error_In in Hj. now elim (Ha q).
    + lia.
    + apply -> Nat.succ_lt_mono. eapply IH; eauto.
Qed.

Lemma postOrderPaths_eq t :
  postOrderPaths t = childPaths 0 (children t) ++ [[]].
Proof. destruct t; reflexivity. Qed.

Lemma childPaths_cons i c r :
  childPaths i (c :: r) = map (cons i) (postOrderPaths c) ++ childPaths (S i) r.
Proof. reflexivity. Qed.

Lemma in_childPaths cs : forall i p,
  In p (childPaths i cs) <->
  exists j c q, p = (i + j)%nat :: q /\ nth_error cs j = Some c /\
                In q (postOrderPaths c).
Proof.
  induction cs as [|c cs IH]; intros i p.
  - simpl. split; [tauto|]. intros (j & c & q & _ & H & _).
    destruct j; discriminate.
  - rewrite childPaths_cons, in_app_iff, in_map_iff, IH. split.
    + intros [(q & <- & Hq) | (j & d & q & -> & Hj & Hq)].
      * exists 0%nat, c, q. rewrite Nat.add_0_r. auto.
      * exists (S j), d, q. rewrite Nat.add_succ_r. auto.
    + intros ([|j] & d & q & -> & Hj & Hq); simpl in Hj.
      * injection Hj as <-. left. exists q. now rewrite Nat.add_0_r.
      * right. exists j, d, q. now rewrite Nat.add_succ_r.
Qed.

(** The references cover exactly the objects of the tree. *)
Lemma in_postOrderPaths t : forall p,
  In p (postOrderPaths t) <-> exists n, subtree t p = Some n.
Proof.
  induction t as [t IH] using TreeNode_nested_ind. intros p.
  rewrite postOrderPaths_eq, in_app_iff, in_childPaths. simpl. split.
  - intros [(j & c & q & -> & Hj & Hq) | [<- | []]].
    + simpl. rewrite Hj. rewrite Forall_forall in IH.
      apply (IH c (nth_error_In _ _ Hj)). exact Hq.
    + now exists t.
  - intros (n & Hn). destruct p as [|i q]; [auto|]. left. simpl in Hn.
    destruct (nth_error (children t) i) as [c|] eqn:Hc; [|discriminate].
    exists i, c, q. repeat split; auto. rewrite Forall_forall in IH.
    apply (IH c (nth_error_In _ _ Hc)). now exists n.
Qed.

Lemma NoDup_childPaths cs :
  Forall (fun c => NoDup (postOrderPaths c)) cs ->
  forall i, NoDup (childPaths i cs).
Proof.
  induction 1 as [|c cs Hc _ IH]; intros i; [constructor|].
  rewrite childPaths_cons. apply NoDup_app.
  - apply Injective_map_NoDup; [|exact Hc]. intros a b E. now injection E.
  - apply IH.
  - intros p Hp Hp'. apply in_map_iff in Hp as (q & <- & _).
    apply in_childPaths in Hp' as (j & d & q' & E & _). injection E. lia.
Qed.

Lemma NoDup_postOrderPaths t : NoDup (postOrderPaths t).
Proof.
  induction t as [t IH] using TreeNode_nested_ind.
  rewrite postOrderPaths_eq. apply NoDup_app.
  - now apply NoDup_childPaths.
  - repeat constructor. simpl. tauto.
  - intros p Hp [<-|[]]. apply in_childPaths in Hp as (? & ? & ? & E & _).
    discriminate.
Qed.

Lemma noLaterBelow_childPaths cs :
  Forall (fun c => noLaterBelow (postOrderPaths c)) cs ->
  forall i, noLaterBelow (childPaths i cs).
Proof.
  induction 1 as [|c cs Hc _ IH]; intros i; [exact I|].
  rewrite childPaths_cons. apply noLaterBelow_app.
  - now apply noLaterBelow_map_cons.
  - apply IH.
  - intros p q Hp Hq. apply in_map_iff in Hp as (p' & <- & _).
    apply in_childPaths in Hq as (j & d & q' & -> & _).
    rewrite strictlyBelow_cons. lia.
Qed.

Lemma noLaterBelow_postOrderPaths t : noLaterBelow (postOrderPaths t).
Proof.
  induction t as [t IH] using TreeNode_nested_ind.
  rewrite postOrderPaths_eq. apply noLaterBelow_app.
  - now apply noLaterBelow_childPaths.
  - simpl. tauto.
  - intros p q _ [<-|[]]. apply strictlyBelow_nil_r.
Qed.

(** When the loop reaches a reference, every object below it has been
    visited. *)
Lemma postOrder_below_done t visited p rest q n :
  postOrderPaths t = visited ++ p :: rest ->
  strictlyBelow p q -> subtree t q = Some n -> In q visited.
Proof.
  intros E Hb Hq.
  assert (Hin : In q (postOrderPaths t)) by (apply in_postOrderPaths; eauto).
  rewrite E in Hin. apply in_app_or in Hin as [H|[<-|H]]; [exact H | |].
  - now apply strictlyBelow_irrefl in Hb.
  - exfalso. eapply noLaterBelow_middle; [|exact H|exact Hb].
    rewrite <- E. apply noLaterBelow_postOrderPaths.
Qed.

(** The references are the nodes [flattenTreePostOrder] returns, in its
    order. *)
Lemma flatten_fold cs : forall acc,
  fold_left (fun list child => list ++ flattenTreePostOrder child) cs acc
  = acc ++ flat_map flattenTreePostOrder cs.
Proof.
  induction cs as [|c cs IH]; intros acc; simpl.
  - now rewrite app_nil_r.
  - now rewrite IH, app_assoc.
Qed.

Lemma flattenTreePostOrder_eq node :
  flattenTreePostOrder node
  = flat_map flattenTreePostOrder (children node) ++ [node].
Proof.
  destruct node as [? ? ? ? ? cs ? ? ? ?]. simpl.
  now rewrite (flatten_fold cs []).
Qed.

Lemma childPaths_flatten t cs :
  Forall (fun c => map (subtree c) (postOrderPaths c)
                   = map Some (flattenTreePostOrder c)) cs ->
  forall i,
    (forall k, nth_error cs k = nth_error (children t) (i + k)) ->
    map (subtree t) (childPaths i cs)
    = map Some (flat_map flattenTreePostOrder cs).
Proof.
  induction 1 as [|c cs Hc _ IH]; intros i Hnth; [reflexivity|].
  rewrite childPaths_cons. simpl flat_map. rewrite !map_app, map_map.
  f_equal.
  - rewrite <- Hc. apply map_ext. intros q. simpl.
    specialize (Hnth 0%nat). rewrite Nat.add_0_r in Hnth. simpl in Hnth.
    now rewrite <- Hnth.
  - apply IH. intros k. specialize (Hnth (S k)).
    now rewrite Nat.add_succ_r in Hnth.
Qed.

Lemma postOrderPaths_flatten t :
  map (subtree t) (postOrderPaths t) = map Some (flattenTreePostOrder t).
Proof.
  induction t as [t IH] using TreeNode_nested_ind.
  rewrite postOrderPaths_eq, flattenTreePostOrder_eq, !map_app.
  f_equal. now apply childPaths_flatten.
Qed.

(** ** The optimal-path marker *)

Lemma markOptimalPath_eq root :
  markOptimalPath root =
  if NodeType_eqb (type root) TERMINAL || (List.length (children root) =? 0)%nat
  then root
  else
    let cs := map markOptimalPath (children root) in
    match NodeType_eqb (type root) DECISION, calculatedValue root with
    | true, Some maxVal =>
        with_children root
          (map (fun child =>
                  with_isOptimal child
                    (Some (withinTolerance (calculatedValue child) maxVal)))
               cs)
    | _, _ => with_children root cs
    end.
Proof. destruct root; reflexivity. Qed.

(** The marker leaves the fields of the node it is applied to as they are. *)
Lemma markOptimalPath_local t : local (markOptimalPath t) = local t.
Proof.
  rewrite markOptimalPath_eq.
  destruct (NodeType_eqb (type t) TERMINAL || (List.length (children t) =? 0)%nat);
    [reflexivity|].
  simpl. destruct (NodeType_eqb (type t) DECISION), (calculatedValue t);
    reflexivity.
Qed.

Lemma markOptimalPath_calculatedValue t :
  calculatedValue (markOptimalPath t) = calculatedValue t.
Proof. exact (f_equal calculatedValue (markOptimalPath_local t)). Qed.

Lemma markOptimalPath_type t : type (markOptimalPath t) = type t.
Proof. exact (f_equal type (markOptimalPath_local t)). Qed.

Lemma markOptimalPath_isOptimal t :
  isOptimal (markOptimalPath t) = isOptimal t.
Proof. exact (f_equal isOptimal (markOptimalPath_local t)). Qed.

Lemma markOptimalPath_children t :
  type t <> TERMINAL ->
  children (markOptimalPath t) = map (markedChild t) (children t).
Proof.
  intros Ht. rewrite markOptimalPath_eq. unfold markedChild.
  apply NodeType_eqb_neq in Ht. rewrite Ht. simpl.
  destruct (children t) as [|c cs] eqn:Hc; simpl.
  - now rewrite Hc.
  - destruct (NodeType_eqb (type t) DECISION), (calculatedValue t); simpl;
      try reflexivity.
    now rewrite !markOptimalPath_calculatedValue, map_map,
      (map_ext _ _ (fun a => f_equal
         (fun v => with_isOptimal (markOptimalPath a)
                     (Some (withinTolerance v q)))
         (markOptimalPath_calculatedValue a))).
Qed.

Lemma markedChild_local t c :
  with_isOptimal (local (markedChild t c)) None = with_isOptimal (local c) None.
Proof.
  unfold markedChild.
  destruct (NodeType_eqb (type t) DECISION), (calculatedValue t); simpl;
    change (with_isOptimal (local (markOptimalPath c)) None
            = with_isOptimal (local c) None);
    now rewrite markOptimalPath_local.
Qed.

Lemma markedChild_children t c :
  children (markedChild t c) = children (markOptimalPath c).
Proof.
  unfold markedChild.
  destruct (NodeType_eqb (type t) DECISION), (calculatedValue t); reflexivity.
Qed.

Lemma terminalsAreLeaves_eq t :
  terminalsAreLeaves t =
  (negb (NodeType_eqb (type t) TERMINAL)
   || (List.length (children t) =? 0)%nat)
  && forallb terminalsAreLeaves (children t).
Proof. destruct t; reflexivity. Qed.

Lemma terminalsAreLeaves_child t i c :
  terminalsAreLeaves t = true -> nth_error (children t) i = Some c ->
  type t <> TERMINAL /\ terminalsAreLeaves c = true.
Proof.
  rewrite terminalsAreLeaves_eq, andb_true_iff, orb_true_iff, negb_true_iff.
  intros [H1 H2] Hc. split.
  - destruct H1 as [H1|H1]; [now apply NodeType_eqb_neq|].
    apply Nat.eqb_eq in H1. destruct (children t); [destruct i|]; discriminate.
  - rewrite forallb_forall in H2. apply H2. eapply nth_error_In; eauto.
Qed.

Lemma terminalsAreLeaves_subtree : forall p t n,
  terminalsAreLeaves t = true -> subtree t p = Some n ->
  terminalsAreLeaves n = true.
Proof.
  induction p as [|i p IH]; intros t n Ht Hn; simpl in Hn.
  - now injection Hn as <-.
  - destruct (nth_error (children t) i) as [c|] eqn:Hc; [|discriminate].
    apply (IH c); auto. eapply terminalsAreLeaves_child; eauto.
Qed.

Lemma terminalsAreLeaves_LeavesOnly t :
  terminalsAreLeaves t = true -> LeavesOnly t.
Proof.
  intros Ht p n Hn Hty.
  pose proof (terminalsAreLeaves_subtree p t n Ht Hn) as H.
  rewrite terminalsAreLeaves_eq, andb_true_iff, orb_true_iff in H.
  destruct H as [[H|H] _].
  - rewrite Hty in H. discriminate.
  - now apply Nat.eqb_eq.
Qed.

Lemma LeavesOnly_child t i c :
  LeavesOnly t -> nth_error (children t) i = Some c ->
  type t <> TERMINAL /\ LeavesOnly c.
Proof.
  intros H Hc. split.
  - intros Hty. specialize (H [] t eq_refl Hty).
    destruct (children t); [destruct i|]; discriminate.
  - intros q n Hn. apply (H (i :: q)). simpl. now rewrite Hc.
Qed.

(** In a tree whose TERMINAL nodes are leaves, the marked tree shows at every
    position the marked subtree, up to the flag of its top node. *)
Lemma subtree_markOptimalPath : forall p t d,
  LeavesOnly t -> subtree t p = Some d ->
  exists d',
    subtree (markOptimalPath t) p = Some d' /\
    children d' = children (markOptimalPath d) /\
    with_isOptimal (local d') None = with_isOptimal (local d) None.
Proof.
  induction p as [|i p IH]; intros t d Ht Hd; simpl in Hd.
  - injection Hd as <-. exists (markOptimalPath t).
    now rewrite markOptimalPath_local.
  - destruct (nth_error (children t) i) as [c|] eqn:Hc; [|discriminate].
    destruct (LeavesOnly_child _ _ _ Ht Hc) as [Hty Hwc].
    simpl. rewrite (markOptimalPath_children t Hty), nth_error_map, Hc. simpl.
    destruct (IH c d Hwc Hd) as (d' & H1 & H2 & H3).
    destruct p as [|j p].
    + simpl in *. injection Hd as <-. injection H1 as <-.
      exists (markedChild t c). split; [reflexivity|].
      split; [apply markedChild_children | apply markedChild_local].
    + exists d'. split; [|auto]. simpl in *.
      now rewrite markedChild_children.
Qed.

Lemma withinTolerance_true cv v :
  withinTolerance cv v = true <-> Qabs (orElse cv 0 - v) < 1 # 10000.
Proof.
  unfold withinTolerance. rewrite negb_true_iff. split.
  - intros H. apply Qnot_le_lt. intros Hle.
    apply Qle_bool_iff in Hle. congruence.
  - intros H. destruct (Qle_bool (1 # 10000) (Qabs (orElse cv 0 - v))) eqn:E;
      [|reflexivity].
    apply Qle_bool_iff in E. now apply Qlt_not_le in H.
Qed.



(** ** The layout *)

Lemma calculateLayout_eq node depth nextY :
  calculateLayout node depth nextY =
  match children node with
  | [] =>
      (mkLayoutNode node (depthQ depth * HORIZONTAL_SPACING) nextY [],
       nextY + VERTICAL_SPACING)
  | _ =>
      let '(childrenLayouts, nextY') :=
        layoutEach (S depth) (children node) nextY in
      (mkLayoutNode node (depthQ depth * HORIZONTAL_SPACING)
         ((yAt childrenLayouts 0
           + yAt childrenLayouts (List.length childrenLayouts - 1)) / 2)
         childrenLayouts,
       nextY')
  end.
Proof. destruct node; reflexivity. Qed.

Lemma layoutEach_cons depth c cs nextY :
  layoutEach depth (c :: cs) nextY =
  (fst (calculateLayout c depth nextY)
     :: fst (layoutEach depth cs (snd (calculateLayout c depth nextY))),
   snd (layoutEach depth cs (snd (calculateLayout c depth nextY)))).
Proof.
  simpl. destruct (calculateLayout c depth nextY) as [l y1]. simpl.
  now destruct (layoutEach depth cs y1).
Qed.

Lemma calculateLayout_data node depth nextY :
  data (fst (calculateLayout node depth nextY)) = node /\
  x (fst (calculateLayout node depth nextY))
  = depthQ depth * HORIZONTAL_SPACING.
Proof.
  rewrite calculateLayout_eq. destruct (children node); [auto|].
  now destruct (layoutEach (S depth) (t :: l) nextY).
Qed.

Lemma layoutEach_nth depth cs : forall nextY i c,
  nth_error cs i = Some c ->
  exists y', nth_error (fst (layoutEach depth cs nextY)) i
             = Some (fst (calculateLayout c depth y')).
Proof.
  induction cs as [|a cs IH]; intros nextY [|i] c Hc; try discriminate;
    rewrite layoutEach_cons; simpl in *.
  - injection Hc as <-. now exists nextY.
  - eapply IH; eauto.
Qed.

Lemma layoutEach_length depth cs : forall nextY,
  List.length (fst (layoutEach depth cs nextY)) = List.length cs.
Proof.
  induction cs as [|a cs IH]; intros nextY; [reflexivity|].
  rewrite layoutEach_cons. simpl. now rewrite IH.
Qed.

Lemma layoutEach_data depth cs : forall nextY,
  map data (fst (layoutEach depth cs nextY)) = cs.
Proof.
  induction cs as [|a cs IH]; intros nextY; [reflexivity|].
  rewrite layoutEach_cons. simpl. rewrite IH.
  now rewrite (proj1 (calculateLayout_data a depth nextY)).
Qed.

Lemma layoutChildren_calculateLayout node depth nextY :
  layoutChildren (fst (calculateLayout node depth nextY))
  = fst (layoutEach (S depth) (children node) nextY).
Proof.
  rewrite calculateLayout_eq. destruct (children node) as [|c cs]; [reflexivity|].
  now destruct (layoutEach (S depth) (c :: cs) nextY).
Qed.

(** The layout node at a position is the layout of the tree node at that
    position, one level deeper per step. *)
Lemma layoutAt_calculateLayout : forall p node depth nextY n,
  subtree node p = Some n ->
  exists y',
    layoutAt (fst (calculateLayout node depth nextY)) p
    = Some (fst (calculateLayout n (depth + List.length p) y')).
Proof.
  induction p as [|i p IH]; intros node depth nextY n Hn; simpl in *.
  - injection Hn as <-. exists nextY. now rewrite Nat.add_0_r.
  - destruct (nth_error (children node) i) as [c|] eqn:Hc; [|discriminate].
    rewrite layoutChildren_calculateLayout.
    destruct (layoutEach_nth (S depth) _ nextY i c Hc) as (y1 & ->).
    destruct (IH c (S depth) y1 n Hn) as (y2 & ->).
    exists y2. now rewrite Nat.add_succ_r.
Qed.

Lemma midpoint_calculateLayout node depth nextY :
  children node <> [] ->
  let l := fst (calculateLayout node depth nextY) in
  exists first last,
    nth_error (layoutChildren l) 0 = Some first /\
    nth_error (layoutChildren l) (List.length (layoutChildren l) - 1)
    = Some last /\
    y l = (y first + y last) / 2.
Proof.
  intros Hne l.
  assert (Hlen : List.length (layoutChildren l) = List.length (children node)).
  { unfold l. now rewrite layoutChildren_calculateLayout, layoutEach_length. }
  assert (Hy : y l = (yAt (layoutChildren l) 0
                      + yAt (layoutChildren l)
                            (List.length (layoutChildren l) - 1)) / 2).
  { unfold l. rewrite calculateLayout_eq.
    destruct (children node) as [|c cs]; [congruence|].
    now destruct (layoutEach (S depth) (c :: cs) nextY). }
  destruct (nth_error (layoutChildren l) 0) as [f|] eqn:Hf.
  - destruct (nth_error (layoutChildren l) (List.length (layoutChildren l) - 1))
      as [la|] eqn:Hla.
    + exists f, la. repeat split. rewrite Hy. unfold yAt. now rewrite Hf, Hla.
    + apply nth_error_None in Hla. destruct (children node); [congruence|].
      simpl in Hlen. lia.
  - apply nth_error_None in Hf. destruct (children node); [congruence|].
    simpl in Hlen. lia.
Qed.

Lemma slot_value y0 k :
  slot y0 k == y0 + inject_Z (Z.of_nat k) * VERTICAL_SPACING.
Proof.
  unfold slot. induction k as [|k IH].
  - simpl. ring.
  - rewrite Nat2Z.inj_succ. unfold Z.succ. rewrite inject_Z_plus.
    simpl Nat.iter. rewrite IH. ring.
Qed.

Lemma slot_add y0 a b : slot (slot y0 a) b = slot y0 (b + a).
Proof. unfold slot. now rewrite Nat.iter_add. Qed.

Lemma map_slot_shift y0 a m : forall b,
  map (slot (slot y0 a)) (seq b m) = map (slot y0) (seq (b + a) m).
Proof.
  induction m as [|m IH]; intros b; simpl; [reflexivity|].
  rewrite slot_add. f_equal. apply (IH (S b)).
Qed.

Lemma layoutLeaves_eq l :
  layoutLeaves l =
  match layoutChildren l with
  | [] => [l]
  | cs => flat_map layoutLeaves cs
  end.
Proof. destruct l; reflexivity. Qed.

Lemma treeLeaves_eq t :
  treeLeaves t =
  match children t with
  | [] => [t]
  | cs => flat_map treeLeaves cs
  end.
Proof. destruct t; reflexivity. Qed.

Lemma leafSlots_each cs :
  Forall leafSlots cs ->
  forall depth y0,
    map data (flat_map layoutLeaves (fst (layoutEach depth cs y0)))
    = flat_map treeLeaves cs /\
    map y (flat_map layoutLeaves (fst (layoutEach depth cs y0)))
    = map (slot y0) (seq 0 (List.length (flat_map treeLeaves cs))) /\
    snd (layoutEach depth cs y0)
    = slot y0 (List.length (flat_map treeLeaves cs)).
Proof.
  induction 1 as [|c cs Hc _ IH]; intros depth y0; [now simpl|].
  rewrite layoutEach_cons. simpl fst. simpl snd. simpl flat_map.
  destruct (Hc depth y0) as (D1 & Y1 & S1).
  destruct (IH depth (snd (calculateLayout c depth y0))) as (D2 & Y2 & S2).
  rewrite !map_app, D1, D2, Y1, Y2, S2, S1, length_app, seq_app, map_app.
  split; [reflexivity|]. split.
  - f_equal. apply map_slot_shift.
  - rewrite slot_add. f_equal. lia.
Qed.

Lemma leafSlots_all n : leafSlots n.
Proof.
  induction n as [n IH] using TreeNode_nested_ind. intros depth y0.
  rewrite layoutLeaves_eq, layoutChildren_calculateLayout, treeLeaves_eq,
    calculateLayout_eq.
  destruct (children n) as [|c cs] eqn:Hc.
  - now simpl.
  - destruct (leafSlots_each _ IH (S depth) y0) as (D & Y & S).
    rewrite layoutEach_cons in *. simpl fst in *. simpl snd in *.
    repeat split; assumption.
Qed.

Lemma layoutLeaves_slot t i l :
  nth_error (layoutLeaves (layoutTree t)) i = Some l -> y l = slot 0 i.
Proof.
  intros H. destruct (leafSlots_all t 0%nat 0) as (_ & Hy & _).
  apply (map_nth_error y) in H. unfold layoutTree in H. rewrite Hy in H.
  rewrite nth_error_map in H.
  destruct (nth_error (seq 0 (List.length (treeLeaves t))) i) as [k|] eqn:Hk;
    [|discriminate].
  assert (i < List.length (seq 0 (List.length (treeLeaves t))))%nat
    by (apply nth_error_Some; congruence).
  rewrite length_seq in *.
  rewrite nth_error_nth' with (d := 0%nat) in Hk by (now rewrite length_seq).
  rewrite seq_nth in Hk by assumption. simpl in *. congruence.
Qed.

(** C8. The layout gives every node the horizontal coordinate depth times
    [HORIZONTAL_SPACING]; the leaves, taken left to right depth first, get
    the vertical coordinates 0, [VERTICAL_SPACING], 2 [VERTICAL_SPACING], ...:
    strictly increasing, consecutive ones [VERTICAL_SPACING] apart; every
    node with children gets the midpoint of its first and its last child's
    vertical coordinate. *)
Theorem layoutTree_coordinates (t : TreeNode) :
  (forall p n,
     subtree t p = Some n ->
     exists l,
       layoutAt (layoutTree t) p = Some l /\ data l = n /\
       map data (layoutChildren l) = children n /\
       x l = depthQ (List.length p) * HORIZONTAL_SPACING /\
       (children n <> [] ->
        exists first last,
          nth_error (layoutChildren l) 0 = Some first /\
          nth_error (layoutChildren l) (List.length (layoutChildren l) - 1)
          = Some last /\
          y l = (y first + y last) / 2)) /\
  map data (layoutLeaves (layoutTree t)) = treeLeaves t /\
  (forall i l,
     nth_error (layoutLeaves (layoutTree t)) i = Some l ->
     y l == inject_Z (Z.of_nat i) * VERTICAL_SPACING) /\
  (forall i l l',
     nth_error (layoutLeaves (layoutTree t)) i = Some l ->
     nth_error (layoutLeaves (layoutTree t)) (S i) = Some l' ->
     y l' == y l + VERTICAL_SPACING /\ y l < y l').
Proof.
  split; [|split; [|split]].
  - intros p n Hn. unfold layoutTree.
    destruct (layoutAt_calculateLayout p t 0%nat 0 n Hn) as (y' & ->).
    eexists. split; [reflexivity|].
    destruct (calculateLayout_data n (0 + List.length p) y') as [Hd Hx].
    split; [exact Hd|]. split.
    + now rewrite layoutChildren_calculateLayout, layoutEach_data.
    + split; [exact Hx|]. intros Hne.
      apply (midpoint_calculateLayout n (0 + List.length p) y' Hne).
  - apply (leafSlots_all t 0%nat 0).
  - intros i l H. rewrite (layoutLeaves_slot t i l H), slot_value. ring.
  - intros i l l' H H'.
    rewrite (layoutLeaves_slot t i l H), (layoutLeaves_slot t (S i) l' H').
    assert (E : slot 0 (S i) == slot 0 i + VERTICAL_SPACING) by reflexivity.
    split; [exact E|]. rewrite E.
    rewrite <- (Qplus_0_r (slot 0 i)) at 1.
    apply Qplus_lt_r. reflexivity.
Qed.

(** ** Entering the replay *)

Lemma clearValuesAuto_children t :
  children (clearValuesAuto t) = map clearValuesAuto (children t).
Proof. destruct t as [? ty ? ? ? ? ? ? ? ?]. simpl. now destruct ty. Qed.

Lemma subtree_clearValuesAuto : forall p t n,
  subtree t p = Some n ->
  subtree (clearValuesAuto t) p = Some (clearValuesAuto n).
Proof.
  induction p as [|i p IH]; intros t n H; simpl in *.
  - now injection H as <-.
  - rewrite clearValuesAuto_children, nth_error_map.
    destruct (nth_error (children t) i) as [c|]; [|discriminate].
    simpl. now apply IH.
Qed.

Lemma clearValuesAuto_fields n :
  type (clearValuesAuto n) = type n /\
  value (clearValuesAuto n) = value n /\
  label (clearValuesAuto n) = label n /\
  probability (clearValuesAuto n) = probability n /\
  id (clearValuesAuto n) = id n /\
  (type n <> TERMINAL ->
   calculatedValue (clearValuesAuto n) = None /\
   isOptimal (clearValuesAuto n) = None) /\
  (type n = TERMINAL ->
   calculatedValue (clearValuesAuto n) = calculatedValue n /\
   isOptimal (clearValuesAuto n) = isOptimal n).
Proof.
  destruct n as [? ty ? ? ? ? ? ? ? ?]. simpl.
  destruct ty; simpl; repeat split; congruence.
Qed.

(** C5, as the code has it.  Entering the replay from the Edit or the Solved
    state empties the log and publishes the tree with calculatedValue and
    isOptimal cleared on every node that is not TERMINAL; a TERMINAL node
    keeps both fields, and no node changes type, value, label or
    probability. *)
Theorem autoEntry_reset (s : AppState) :
  calculationMode s <> StepMode ->
  logs (app (autoEntry s)) = [] /\
  root (app (autoEntry s)) = workingRoot (autoEntry s) /\
  delays (autoEntry s) = 0%nat /\
  forall p n,
    subtree (root s) p = Some n ->
    exists n',
      subtree (workingRoot (autoEntry s)) p = Some n' /\
      type n' = type n /\ value n' = value n /\
      (type n <> TERMINAL ->
       calculatedValue n' = None /\ isOptimal n' = None) /\
      (type n = TERMINAL ->
       calculatedValue n' = calculatedValue n /\ isOptimal n' = isOptimal n).
Proof.
  intros Hmode.
  assert (E : autoEntry s =
              mkReplay (clearValuesAuto (root s))
                       (mkApp (clearValuesAuto (root s)) StepMode []) 0).
  { unfold autoEntry. destruct (calculationMode s); congruence. }
  rewrite E. simpl. repeat split; try reflexivity.
  intros p n Hn. exists (clearValuesAuto n).
  split; [now apply subtree_clearValuesAuto|].
  destruct (clearValuesAuto_fields n) as (H1 & H2 & _ & _ & _ & H3 & H4).
  auto.
Qed.

(** C5 as stated fails: restarting the replay from the Solved state of
    [twoOutcomes] leaves the TERMINAL leaf "win" with its calculatedValue 10
    and its flag isOptimal = true. *)
Lemma autoEntry_keeps_terminal_fields :
  ~ (forall s, calculationMode s <> StepMode ->
     forall p n, subtree (workingRoot (autoEntry s)) p = Some n ->
                 calculatedValue n = None /\ isOptimal n = None).
Proof.
  intros H.
  assert (Hm : calculationMode twoOutcomesSolved <> StepMode)
    by (vm_compute; discriminate).
  destruct (H twoOutcomesSolved Hm [0%nat]
              (mkTreeNode "win" TERMINAL "win" (Some 10) (Some (1 # 2)) []
                          None (Some 10) (Some true) None)
              eq_refl) as [Hcv _].
  discriminate Hcv.
Qed.

(** ** Trees that agree position by position *)

Lemma staticEq_refl n : staticEq n n.
Proof. repeat split. Qed.

Lemma staticEq_trans a b c : staticEq a b -> staticEq b c -> staticEq a c.
Proof. unfold staticEq. intuition congruence. Qed.

Lemma viewEq_refl n : viewEq n n.
Proof. repeat split. Qed.

Lemma viewEq_trans a b c : viewEq a b -> viewEq b c -> viewEq a c.
Proof. unfold viewEq, staticEq. intuition congruence. Qed.

Lemma viewEq_sym a b : viewEq a b -> viewEq b a.
Proof. unfold viewEq, staticEq. intuition congruence. Qed.

Lemma related_refl (R : TreeNode -> TreeNode -> Prop) t :
  (forall n, R n n) -> related R t t.
Proof. intros H p. destruct (subtree t p); auto. Qed.

Lemma related_trans (R : TreeNode -> TreeNode -> Prop) a b c :
  (forall x y z, R x y -> R y z -> R x z) ->
  related R a b -> related R b c -> related R a c.
Proof.
  intros HR H1 H2 p. specialize (H1 p). specialize (H2 p).
  destruct (subtree a p), (subtree b p), (subtree c p); eauto; contradiction.
Qed.

Lemma related_sym (R : TreeNode -> TreeNode -> Prop) a b :
  (forall x y, R x y -> R y x) -> related R a b -> related R b a.
Proof.
  intros HR H p. specialize (H p).
  destruct (subtree a p), (subtree b p); auto.
Qed.

Lemma related_Some (R : TreeNode -> TreeNode -> Prop) t t' p n :
  related R t t' -> subtree t p = Some n ->
  exists n', subtree t' p = Some n' /\ R n n'.
Proof.
  intros H Hn. specialize (H p). rewrite Hn in H.
  destruct (subtree t' p) as [n'|]; [eauto | contradiction].
Qed.

Lemma related_Some_r (R : TreeNode -> TreeNode -> Prop) t t' p n' :
  related R t t' -> subtree t' p = Some n' ->
  exists n, subtree t p = Some n /\ R n n'.
Proof.
  intros H Hn. specialize (H p). rewrite Hn in H.
  destruct (subtree t p) as [n|]; [eauto | contradiction].
Qed.

Lemma sameView_sameShape t t' : sameView t t' -> sameShape t t'.
Proof.
  intros H p. specialize (H p).
  destruct (subtree t p), (subtree t' p); auto. apply H.
Qed.

Lemma sameShape_assign t p v : sameShape t (assignCalculatedValue t p v).
Proof.
  intros q. destruct (subtree t q) as [n|] eqn:Hn.
  - destruct (subtree_assign t p v q n Hn)
      as (n' & -> & H1 & H2 & H3 & H4 & H5 & _).
    repeat split; auto.
  - now rewrite subtree_assign_None.
Qed.

(** The marker changes nothing but isOptimal flags, at any position. *)
Lemma subtree_markOptimalPath_view : forall p t,
  match subtree t p, subtree (markOptimalPath t) p with
  | Some d, Some d' =>
      with_isOptimal (local d') None = with_isOptimal (local d) None /\
      List.length (children d') = List.length (children d)
  | None, None => True
  | _, _ => False
  end.
Proof.
  induction p as [|i p IH]; intros t.
  - simpl. rewrite markOptimalPath_local. split; [reflexivity|].
    rewrite markOptimalPath_eq.
    destruct (NodeType_eqb (type t) TERMINAL
              || (List.length (children t) =? 0)%nat); [reflexivity|].
    simpl. destruct (NodeType_eqb (type t) DECISION), (calculatedValue t);
      simpl; now rewrite ?length_map.
  - destruct (NodeType_eqb (type t) TERMINAL) eqn:Hty.
    + rewrite markOptimalPath_eq, Hty. simpl.
      destruct (match nth_error (children t) i with
                | Some c => subtree c p | None => None end); auto.
    + apply NodeType_eqb_neq in Hty. simpl.
      rewrite (markOptimalPath_children t Hty), nth_error_map.
      destruct (nth_error (children t) i) as [c|]; simpl; [|exact I].
      specialize (IH c). destruct p as [|j p].
      * simpl in *. split; [apply markedChild_local|].
        rewrite markedChild_children. apply IH.
      * simpl in *. now rewrite markedChild_children.
Qed.

Lemma sameView_markOptimalPath t : sameView t (markOptimalPath t).
Proof.
  intros p. pose proof (subtree_markOptimalPath_view p t) as H.
  destruct (subtree t p) as [d|], (subtree (markOptimalPath t) p) as [d'|];
    auto.
  destruct H as [H Hlen].
  repeat split;
    first [ exact Hlen | exact (f_equal type H) | exact (f_equal value H)
          | exact (f_equal label H) | exact (f_equal probability H)
          | exact (f_equal calculatedValue H) ].
Qed.

Lemma sameShape_clearValuesAuto t : sameShape t (clearValuesAuto t).
Proof.
  intros p. destruct (subtree t p) as [n|] eqn:Hn.
  - rewrite (subtree_clearValuesAuto p t n Hn).
    destruct (clearValuesAuto_fields n) as (H1 & H2 & H3 & H4 & _).
    repeat split; auto. now rewrite clearValuesAuto_children, length_map.
  - revert t Hn. induction p as [|i p IH]; intros t Hn; [discriminate|].
    simpl in *. rewrite clearValuesAuto_children, nth_error_map.
    destruct (nth_error (children t) i) as [c|]; simpl; auto.
    specialize (IH c Hn). now destruct (subtree (clearValuesAuto c) p).
Qed.

Lemma clearValues_children t :
  children (clearValues t) = map clearValues (children t).
Proof. destruct t; reflexivity. Qed.

Lemma subtree_clearValues : forall p t,
  subtree (clearValues t) p = option_map clearValues (subtree t p).
Proof.
  induction p as [|i p IH]; intros t; simpl; [reflexivity|].
  rewrite clearValues_children, nth_error_map.
  destruct (nth_error (children t) i) as [c|]; simpl; auto.
Qed.

Lemma sameShape_clearValues t : sameShape t (clearValues t).
Proof.
  intros p. rewrite subtree_clearValues.
  destruct (subtree t p) as [n|]; simpl; [|exact I].
  repeat split; try (destruct n; reflexivity).
  now rewrite clearValues_children, length_map.
Qed.

(** ** The replay loop, one iteration *)

Lemma autoVisit_Finished c p r r' :
  autoVisit c p r = Finished r' -> visitStep p r r'.
Proof.
  unfold autoVisit. destruct (aborted c r); [discriminate|].
  destruct (subtree (workingRoot r) p) as [n|] eqn:Hn.
  - destruct (NodeType_eqb (type n) TERMINAL) eqn:Hty.
    + apply NodeType_eqb_eq in Hty. intros E. injection E as <-.
      now apply visit_terminal.
    + apply NodeType_eqb_neq in Hty.
      destruct (calculatedValue n) as [v|] eqn:Hcv; simpl.
      * intros E. injection E as <-. eapply visit_skip; eauto. congruence.
      * destruct (aborted c _); [discriminate|].
        intros E. injection E as <-. now apply visit_evaluate.
  - intros E. injection E as <-. now apply visit_missing.
Qed.

Lemma autoVisit_Returned c p r r' :
  autoVisit c p r = Returned r' ->
  workingRoot r' = workingRoot r /\ app r' = app r.
Proof.
  unfold autoVisit. destruct (aborted c r).
  - intros E. now injection E as <-.
  - destruct (subtree (workingRoot r) p) as [n|]; [|discriminate].
    destruct (NodeType_eqb (type n) TERMINAL); [discriminate|].
    destruct (isSome (calculatedValue n)); [discriminate|].
    destruct (aborted c _); [|discriminate].
    intros E. now injection E as <-.
Qed.

Lemma autoVisit_None p r : exists r', autoVisit None p r = Finished r'.
Proof.
  unfold autoVisit. simpl.
  destruct (subtree (workingRoot r) p) as [n|]; [|eauto].
  destruct (NodeType_eqb (type n) TERMINAL); [eauto|].
  destruct (isSome (calculatedValue n)); eauto.
Qed.

(** Loop invariants: a property of the visited prefix and the replay state
    that every finished iteration keeps holds at the end of the loop, and
    held at the state the loop was left from otherwise. *)
Lemma autoLoop_invariant c (all : list path)
      (I : list path -> Replay -> Prop) :
  (forall visited p rest r r',
     all = visited ++ p :: rest -> I visited r -> visitStep p r r' ->
     I (visited ++ [p]) r') ->
  forall rest visited r,
    all = visited ++ rest -> I visited r ->
    match autoLoop c rest r with
    | Finished r' => I all r'
    | Returned r' =>
        exists visited' r'',
          I visited' r'' /\ workingRoot r' = workingRoot r'' /\
          app r' = app r''
    end.
Proof.
  intros Hstep. induction rest as [|p rest IH]; intros visited r Hall HI.
  - simpl. now rewrite Hall, app_nil_r.
  - simpl. destruct (autoVisit c p r) as [r1|r1] eqn:Hv.
    + apply (IH (visited ++ [p])).
      * now rewrite <- app_assoc.
      * eapply Hstep; eauto. now apply autoVisit_Finished in Hv.
    + apply autoVisit_Returned in Hv as [Hw Ha]. now exists visited, r.
Qed.

Lemma autoLoop_None_finishes nodes : forall r,
  exists r', autoLoop None nodes r = Finished r'.
Proof.
  induction nodes as [|p rest IH]; intros r; simpl; [eauto|].
  destruct (autoVisit_None p r) as (r1 & ->). apply IH.
Qed.

(** ** The invariant of an evaluation run *)

Lemma terminalStep_evaluated t t' p :
  related terminalStep t t' ->
  evaluatedInternal t' p <-> evaluatedInternal t p.
Proof.
  intros H. split; intros (n & Hn & Hty & Hcv).
  - destruct (related_Some_r _ _ _ _ _ H Hn)
      as (m & Hm & (Ht & _) & [E|[E _]]).
    + exists m. repeat split; congruence.
    + congruence.
  - destruct (related_Some _ _ _ _ _ H Hn)
      as (m & Hm & (Ht & _) & [E|[E _]]).
    + exists m. repeat split; congruence.
    + congruence.
Qed.

Lemma TreeInv_terminalStep t t' lp :
  related terminalStep t t' -> TreeInv t lp -> TreeInv t' lp.
Proof.
  intros H [I1 I2 I3 I4 I5 I7]. constructor; auto.
  - intros p n' Hn' Hty.
    destruct (related_Some_r _ _ _ _ _ H Hn')
      as (n & Hn & (Ht & _ & _ & _ & Hl) & _).
    rewrite Hl. apply (I1 p); congruence.
  - intros p q m' Hp Hb Hm' Hty.
    apply (terminalStep_evaluated _ _ p H) in Hp.
    destruct (related_Some_r _ _ _ _ _ H Hm')
      as (m & Hm & (Ht & _) & [E|[E _]]); [|congruence].
    rewrite E. apply (I2 p q m); congruence.
  - intros p. rewrite I3. symmetry. now apply terminalStep_evaluated.
  - intros p n' v Hn' Hty Hcv.
    destruct (related_Some_r _ _ _ _ _ H Hn')
      as (n & Hn & (Ht & Hv & _) & [E|[_ E]]).
    + rewrite Hv. apply (I7 p n v); congruence.
    + congruence.
Qed.

Lemma evalStep_other p0 t t' p :
  evalStep p0 t t' -> p <> p0 ->
  evaluatedInternal t' p <-> evaluatedInternal t p.
Proof.
  intros H Hne. split; intros (n & Hn & Hty & Hcv); specialize (H p);
    rewrite Hn in H.
  - destruct (subtree t p) as [m|] eqn:Hm; [|contradiction].
    destruct (samePath p p0); [contradiction|].
    destruct H as ((Ht & _) & [E|[E _]]); [|congruence].
    exists m. repeat split; congruence.
  - destruct (subtree t' p) as [m|] eqn:Hm; [|contradiction].
    destruct (samePath p p0); [contradiction|].
    destruct H as ((Ht & _) & [E|[E _]]); [|congruence].
    exists m. repeat split; congruence.
Qed.

Lemma evalStep_target p0 t t' n0 :
  evalStep p0 t t' -> subtree t p0 = Some n0 ->
  type n0 <> TERMINAL /\ calculatedValue n0 = None /\
  evaluatedInternal t' p0.
Proof.
  intros H Hn. specialize (H p0). rewrite Hn in H.
  destruct (subtree t' p0) as [m|] eqn:Hm; [|contradiction].
  destruct (samePath p0 p0) as [_|N]; [|now elim N].
  destruct H as ((Ht & _) & Hty & Hcv & Hcv').
  repeat split; auto. exists m. repeat split; congruence.
Qed.

Lemma TreeInv_evalStep p0 t t' n0 lp :
  evalStep p0 t t' -> subtree t p0 = Some n0 ->
  (forall q m', strictlyBelow p0 q -> subtree t' q = Some m' ->
                type m' <> TERMINAL -> calculatedValue m' <> None) ->
  TreeInv t lp -> TreeInv t' (lp ++ [p0]).
Proof.
  intros H Hn0 Hbelow [I1 I2 I3 I4 I5 I7].
  destruct (evalStep_target _ _ _ _ H Hn0) as (Hty0 & Hcv0 & Hev0).
  assert (Hnot : ~ evaluatedInternal t p0).
  { intros (n & Hn & _ & Hcv). congruence. }
  assert (Hstatic : forall q n', subtree t' q = Some n' ->
            exists n, subtree t q = Some n /\ staticEq n n' /\
                      (calculatedValue n' = calculatedValue n \/
                       type n = TERMINAL /\ calculatedValue n' = value n \/
                       q = p0)).
  { intros q n' Hn'. specialize (H q). rewrite Hn' in H.
    destruct (subtree t q) as [n|]; [|contradiction]. exists n.
    split; [reflexivity|].
    destruct (samePath q p0); [|destruct H as (Hs & [E|E])]; tauto. }
  constructor.
  - intros p n' Hn' Hty.
    destruct (Hstatic p n' Hn') as (n & Hn & (Ht & _ & _ & _ & Hl) & _).
    rewrite Hl. apply (I1 p); congruence.
  - intros p q m' Hp Hb Hm' Hty.
    destruct (samePath p p0) as [->|Hne]; [now apply (Hbelow q)|].
    apply (evalStep_other _ _ _ _ H Hne) in Hp.
    destruct (Hstatic q m' Hm') as (m & Hm & (Ht & _) & [E|[[E _]| ->]]).
    + rewrite E. apply (I2 p q m); congruence.
    + congruence.
    + elim Hcv0. rewrite Hn0 in Hm. injection Hm as <-.
      exfalso. apply (I2 p p0 n0 Hp Hb Hn0 Hty0 Hcv0).
  - intros p. rewrite in_app_iff, I3. simpl. split.
    + intros [Hp|[<-|[]]]; [|exact Hev0].
      apply (evalStep_other _ _ _ _ H); [|exact Hp]. intros ->. tauto.
    + intros Hp. destruct (samePath p p0) as [->|Hne]; [auto|].
      left. now apply (evalStep_other _ _ _ _ H Hne).
  - apply noLaterBelow_app; [exact I4 | simpl; tauto |].
    intros a q Ha [<-|[]] Hb. apply I3 in Ha.
    now apply (I2 a p0 n0 Ha Hb Hn0 Hty0).
  - apply NoDup_app; [exact I5 | repeat constructor; simpl; tauto |].
    intros a Ha [<-|[]]. apply I3 in Ha. tauto.
  - intros p n' v Hn' Hty Hcv.
    destruct (Hstatic p n' Hn') as (n & Hn & (Ht & Hv & _) & [E|[[_ E]| ->]]).
    + rewrite Hv. apply (I7 p n v); congruence.
    + congruence.
    + rewrite Hn0 in Hn. injection Hn as <-. congruence.
Qed.

Lemma viewEq_terminalStep t t' :
  sameView t t' -> related terminalStep t t'.
Proof.
  intros H p. specialize (H p).
  destruct (subtree t p), (subtree t' p); auto.
  destruct H as [Hs Hcv]. split; auto.
Qed.

Lemma TreeInv_view t t' lp : sameView t t' -> TreeInv t lp -> TreeInv t' lp.
Proof. intros H. apply TreeInv_terminalStep. now apply viewEq_terminalStep. Qed.

Lemma assign_terminalStep w p n :
  subtree w p = Some n -> type n = TERMINAL ->
  related terminalStep w (assignCalculatedValue w p (value n)).
Proof.
  intros Hn Hty q. destruct (subtree w q) as [m|] eqn:Hm.
  - destruct (subtree_assign w p (value n) q m Hm)
      as (m' & -> & H1 & H2 & H3 & H4 & H5 & _ & Hcv).
    split; [repeat split; auto|].
    destruct (samePath q p) as [->|_]; [right | now left].
    rewrite Hn in Hm. injection Hm as <-. auto.
  - now rewrite subtree_assign_None.
Qed.

Lemma assign_evalStep w p n v :
  subtree w p = Some n -> type n <> TERMINAL -> calculatedValue n = None ->
  evalStep p w (assignCalculatedValue w p (Some v)).
Proof.
  intros Hn Hty Hcv q. destruct (subtree w q) as [m|] eqn:Hm.
  - destruct (subtree_assign w p (Some v) q m Hm)
      as (m' & -> & H1 & H2 & H3 & H4 & H5 & _ & Hcv').
    assert (Hs : staticEq m m') by (repeat split; auto).
    destruct (samePath q p) as [->|_].
    + rewrite Hn in Hm. injection Hm as <-.
      repeat split; auto; try apply Hs. congruence.
    + split; auto.
  - now rewrite subtree_assign_None.
Qed.

Lemma noLaterBelow_before l1 p l2 q :
  noLaterBelow (l1 ++ p :: l2) -> In q l1 -> ~ strictlyBelow q p.
Proof.
  induction l1 as [|a l1 IH]; simpl; intros [Ha Hl] Hq; [destruct Hq|].
  destruct Hq as [<-|Hq]; [|auto].
  apply Ha. apply in_or_app. right. now left.
Qed.

Lemma staticEq_terminalStep_trans a b c :
  staticEq a b -> terminalStep b c -> staticEq a c.
Proof. intros H [H' _]. eapply staticEq_trans; eauto. Qed.

Lemma sameShape_terminalStep t t' t'' :
  sameShape t t' -> related terminalStep t' t'' -> sameShape t t''.
Proof.
  intros H1 H2 p. specialize (H1 p). specialize (H2 p).
  destruct (subtree t p), (subtree t' p), (subtree t'' p);
    try contradiction; auto.
  eapply staticEq_terminalStep_trans; eauto.
Qed.

Lemma LoopInv_step w0 visited p rest r r' :
  postOrderPaths w0 = visited ++ p :: rest ->
  LoopInv w0 visited r -> visitStep p r r' ->
  LoopInv w0 (visited ++ [p]) r'.
Proof.
  intros Hall [Hw Hp Hs Hps Hv] Hstep.
  destruct Hstep as [Hnone | n Hn Hty | n Hn Hty Hcv | n Hn Hty Hcv].
  - constructor; auto. intros q n Hq Hn. apply in_app_or in Hq as [Hq|[<-|[]]].
    + now apply (Hv q).
    + congruence.
  - pose proof (assign_terminalStep _ _ _ Hn Hty) as Hrel.
    unfold afterTerminal. constructor; cbn [workingRoot app]; auto.
    + exact (TreeInv_terminalStep _ _ _ Hrel Hw).
    + exact (sameShape_terminalStep _ _ _ Hs Hrel).
    + intros q m' Hq Hm' Hty'.
      destruct (related_Some_r _ _ _ _ _ Hrel Hm')
        as (m & Hm & (Ht & _) & [E|[E _]]); [|congruence].
      rewrite E. apply in_app_or in Hq as [Hq|[<-|[]]].
      * apply (Hv q m Hq Hm). congruence.
      * congruence.
  - constructor; auto. intros q m Hq Hm Hty'.
    apply in_app_or in Hq as [Hq|[<-|[]]]; [now apply (Hv q)|congruence].
  - pose proof (assign_evalStep _ _ _ (calculateNodeEMV n) Hn Hty Hcv) as Hrel.
    assert (Hbelow : forall q m',
              strictlyBelow p q ->
              subtree (assignCalculatedValue (workingRoot r) p
                         (Some (calculateNodeEMV n))) q = Some m' ->
              type m' <> TERMINAL -> calculatedValue m' <> None).
    { intros q m' Hb Hm' Hty'. specialize (Hrel q). rewrite Hm' in Hrel.
      destruct (subtree (workingRoot r) q) as [m|] eqn:Hm; [|contradiction].
      destruct (samePath q p) as [->|_];
        [now apply strictlyBelow_irrefl in Hb|].
      destruct Hrel as ((Ht & _) & [E|[E _]]); [|congruence].
      rewrite E.
      destruct (related_Some_r _ _ _ _ _ Hs Hm) as (m0 & Hm0 & _).
      apply (Hv q m); [|exact Hm|congruence].
      eapply postOrder_below_done; eauto. }
    assert (Hinv : TreeInv (workingRoot (afterEvaluation p n r))
                     (map logNode (logs (app (afterEvaluation p n r))))).
    { unfold afterEvaluation. cbn [workingRoot app logs]. rewrite map_app.
      exact (TreeInv_evalStep _ _ _ _ _ Hrel Hn Hbelow Hw). }
    assert (Hshape : sameShape w0 (workingRoot (afterEvaluation p n r))).
    { unfold afterEvaluation. cbn [workingRoot].
      eapply related_trans; [apply staticEq_trans | exact Hs |].
      apply sameShape_assign. }
    constructor; auto.
    intros q m' Hq Hm' Hty'. unfold afterEvaluation in Hm'.
    cbn [workingRoot] in Hm'.
    apply in_app_or in Hq as [Hq|[<-|[]]].
    + specialize (Hrel q). rewrite Hm' in Hrel.
      destruct (subtree (workingRoot r) q) as [m|] eqn:Hm; [|contradiction].
      destruct (samePath q p) as [->|_]; [tauto|].
      destruct Hrel as ((Ht & _) & [E|[E _]]); [|congruence].
      rewrite E. apply (Hv q m Hq); congruence.
    + specialize (Hrel p). rewrite Hm' in Hrel.
      destruct (subtree (workingRoot r) p) as [m|]; [|contradiction].
      destruct (samePath p p) as [_|N]; [tauto | now elim N].
Qed.

Lemma sameShape_trans a b c : sameShape a b -> sameShape b c -> sameShape a c.
Proof. apply related_trans. apply staticEq_trans. Qed.

Lemma sameShape_refl t : sameShape t t.
Proof. apply related_refl. apply staticEq_refl. Qed.

Lemma subtree_clearValuesAuto_inv t p n' :
  subtree (clearValuesAuto t) p = Some n' ->
  exists n, subtree t p = Some n /\ n' = clearValuesAuto n.
Proof.
  intros H.
  destruct (related_Some_r _ _ _ _ _ (sameShape_clearValuesAuto t) H)
    as (n & Hn & _).
  exists n. split; [exact Hn|].
  rewrite (subtree_clearValuesAuto p t n Hn) in H. congruence.
Qed.

Lemma TreeInv_clearValuesAuto t lp :
  TreeInv t lp -> TreeInv (clearValuesAuto t) [].
Proof.
  intros [I1 _ _ _ _ I7].
  assert (Hnone : forall p, ~ evaluatedInternal (clearValuesAuto t) p).
  { intros p (n' & Hn' & Hty & Hcv).
    apply subtree_clearValuesAuto_inv in Hn' as (n & Hn & ->).
    destruct (clearValuesAuto_fields n) as (Ht & _ & _ & _ & _ & Hc & _).
    apply Hcv, Hc. congruence. }
  constructor.
  - intros p n' Hn' Hty.
    apply subtree_clearValuesAuto_inv in Hn' as (n & Hn & ->).
    destruct (clearValuesAuto_fields n) as (Ht & _).
    rewrite clearValuesAuto_children, length_map. apply (I1 p); congruence.
  - intros p q m Hp. now elim (Hnone p).
  - intros p. split; [intros [] | intros Hp; now elim (Hnone p)].
  - exact I.
  - constructor.
  - intros p n' v Hn' Hty Hcv.
    apply subtree_clearValuesAuto_inv in Hn' as (n & Hn & ->).
    destruct (clearValuesAuto_fields n) as (Ht & Hv & _ & _ & _ & _ & Hc).
    rewrite Ht in Hty. destruct (Hc Hty) as [Hc1 _].
    rewrite Hv. apply (I7 p n v); congruence.
Qed.

Lemma autoEntry_LoopInv t0 s :
  StateInv t0 s ->
  LoopInv (workingRoot (autoEntry s)) [] (autoEntry s) /\
  sameShape t0 (workingRoot (autoEntry s)).
Proof.
  intros [Hinv Hshape]. unfold autoEntry.
  destruct (calculationMode s); cbn [workingRoot app root logs map].
  - split.
    + constructor; cbn [workingRoot app root logs map];
        try apply sameShape_refl;
        try (eapply TreeInv_clearValuesAuto; eassumption).
      intros q n [].
    + eapply sameShape_trans; [exact Hshape | apply sameShape_clearValuesAuto].
  - split; [|exact Hshape].
    constructor; cbn [workingRoot app root logs];
      try apply sameShape_refl; try assumption.
    intros q n [].
  - split.
    + constructor; cbn [workingRoot app root logs map];
        try apply sameShape_refl;
        try (eapply TreeInv_clearValuesAuto; eassumption).
      intros q n [].
    + eapply sameShape_trans; [exact Hshape | apply sameShape_clearValuesAuto].
Qed.

Lemma handleSolveAuto_StateInv c t0 s :
  StateInv t0 s -> StateInv t0 (app (handleSolveAuto c s)).
Proof.
  intros Hs. destruct (autoEntry_LoopInv t0 s Hs) as [H0 Hshape].
  unfold handleSolveAuto.
  pose proof (autoLoop_invariant c
                (postOrderPaths (workingRoot (autoEntry s)))
                (LoopInv (workingRoot (autoEntry s)))
                (fun visited p rest r r' Hall =>
                   LoopInv_step _ visited p rest r r' Hall)
                (postOrderPaths (workingRoot (autoEntry s))) []
                (autoEntry s) eq_refl H0) as Hloop.
  destruct (autoLoop c (postOrderPaths (workingRoot (autoEntry s)))
              (autoEntry s)) as [r|r].
  - destruct Hloop as [Hw Hp Hsw Hsp _].
    destruct (aborted c r).
    + split; [exact Hp | eapply sameShape_trans; eauto].
    + cbn [app root logs]. split.
      * eapply TreeInv_view; [apply sameView_markOptimalPath | exact Hw].
      * eapply sameShape_trans; [exact Hshape|].
        eapply sameShape_trans; [exact Hsw|].
        apply sameView_sameShape, sameView_markOptimalPath.
  - destruct Hloop as (visited & r'' & [Hw Hp Hsw Hsp _] & _ & ->).
    split; [exact Hp | eapply sameShape_trans; eauto].
Qed.

(** ** One manual step *)

Lemma stepCalculate_eq here node st :
  stepCalculate here node st =
  match calculatedValue node with
  | Some _ => (node, st)
  | None =>
      if NodeType_eqb (type node) TERMINAL then
        (with_calculatedValue node (value node), st)
      else
        let '(children', st1) := stepChildren here 0 (children node) st in
        let allChildrenCalculated :=
          forallb (fun c => isSome (calculatedValue c)) children' in
        if allChildrenCalculated && negb (fst st1) then
          let nodeWithChildren := with_children node children' in
          let val := calculateNodeEMV nodeWithChildren in
          (with_calculatedValue nodeWithChildren (Some val),
           (true,
            snd st1 ++ [mkLog (label node) (type node)
                              (getCalculationFormula nodeWithChildren)
                              val here]))
        else (with_children node children', st1)
  end.
Proof. destruct node; reflexivity. Qed.

Lemma stepChildren_cons here i c r st :
  stepChildren here i (c :: r) st =
  (fst (stepCalculate (here ++ [i]) c st)
     :: fst (stepChildren here (S i) r (snd (stepCalculate (here ++ [i]) c st))),
   snd (stepChildren here (S i) r (snd (stepCalculate (here ++ [i]) c st)))).
Proof.
  simpl. destruct (stepCalculate (here ++ [i]) c st) as [c' st1]. simpl.
  now destruct (stepChildren here (S i) r st1).
Qed.

Lemma stepChange_refl n : stepChange n n.
Proof. split; [apply staticEq_refl | now left]. Qed.

Lemma stepChildren_length here cs : forall i st,
  List.length (fst (stepChildren here i cs st)) = List.length cs.
Proof.
  induction cs as [|c r IH]; intros i st; [reflexivity|].
  rewrite stepChildren_cons. simpl. now rewrite IH.
Qed.

Lemma stepChildren_spec here cs :
  Forall stepOk cs ->
  forall i st,
    StepSpec (forestAt cs) (forestAt (fst (stepChildren here i cs st)))
             (preForest here i) st (snd (stepChildren here i cs st)).
Proof.
  induction 1 as [|c r Hc _ IH]; intros i st.
  - split; [auto|]. left. split; [reflexivity|].
    intros [|k q] n Hn; [discriminate|]. simpl in Hn.
    destruct k; discriminate.
  - rewrite stepChildren_cons. cbn [fst snd].
    specialize (Hc (here ++ [i]) st).
    set (c' := fst (stepCalculate (here ++ [i]) c st)) in *.
    set (st1 := snd (stepCalculate (here ++ [i]) c st)) in *.
    specialize (IH (S i) st1).
    set (r' := fst (stepChildren here (S i) r st1)) in *.
    set (st2 := snd (stepChildren here (S i) r st1)) in *.
    destruct Hc as [HcN Hc], IH as [HrN Hr].
    assert (Hhead : forall q, forestAt (c :: r) (0%nat :: q) = subtree c q)
      by reflexivity.
    assert (Htail : forall k q,
               forestAt (c :: r) (S k :: q) = forestAt r (k :: q))
      by reflexivity.
    split.
    { intros [|[|k] q] Hq; [reflexivity | now apply HcN |].
      apply (HrN (k :: q)). exact Hq. }
    destruct Hc as [[E1 Hc] | (Hf1 & q0 & n0 & n0' & e & L0 & L0' & S0 & E1 & Hc)].
    + destruct Hr as [[E2 Hr] |
                      (Hf2 & q0 & n0 & n0' & e & L0 & L0' & S0 & E2 & Hr)].
      * left. split; [congruence|].
        intros [|[|k] q] n Hn; [discriminate | now apply Hc |].
        apply (Hr (k :: q)). exact Hn.
      * right. split; [congruence|].
        destruct q0 as [|k0 q0]; [discriminate|].
        exists (S k0 :: q0), n0, n0', e.
        split; [exact L0|]. split; [exact L0'|].
        split.
        { unfold preForest in *. now rewrite Nat.add_succ_r. }
        split; [congruence|].
        intros [|[|k] q] n Hne Hn; [discriminate | now apply Hc |].
        apply (Hr (k :: q)); [congruence | exact Hn].
    + destruct Hr as [[E2 Hr] | (Hf2 & _)];
        [|rewrite E1 in Hf2; discriminate].
      right. split; [exact Hf1|].
      exists (0%nat :: q0), n0, n0', e.
      split; [exact L0|]. split; [exact L0'|].
      split.
      { unfold preForest. rewrite Nat.add_0_r, <- app_assoc in *. exact S0. }
      split; [congruence|].
      intros [|[|k] q] n Hne Hn; [discriminate | |].
      * apply Hc; [congruence | exact Hn].
      * apply (Hr (k :: q)). exact Hn.
Qed.

Lemma forallb_isSome cs :
  forallb (fun c => isSome (calculatedValue c)) cs = true ->
  Forall (fun c => calculatedValue c <> None) cs.
Proof.
  rewrite forallb_forall, Forall_forall. intros H c Hc Hn.
  specialize (H c Hc). rewrite Hn in H. discriminate.
Qed.

Lemma stepCalculate_spec node : stepOk node.
Proof.
  induction node as [node IH] using TreeNode_nested_ind. intros here st.
  rewrite stepCalculate_eq.
  destruct (calculatedValue node) as [v|] eqn:Hcv.
  { (* already calculated *)
    split; [auto|]. left. split; [reflexivity|].
    intros q n Hn. exists n. split; [exact Hn | apply stepChange_refl]. }
  destruct (NodeType_eqb (type node) TERMINAL) eqn:Hty.
  { (* a TERMINAL node takes its value *)
    apply NodeType_eqb_eq in Hty. cbn [fst snd].
    split; [intros [|k q] Hq; [discriminate | exact Hq]|].
    left. split; [reflexivity|].
    intros [|k q] n Hn.
    - injection Hn as <-. eexists. split; [reflexivity|].
      split; [repeat split | right; auto].
    - exists n. split; [exact Hn | apply stepChange_refl]. }
  apply NodeType_eqb_neq in Hty.
  pose proof (stepChildren_spec here (children node) IH 0%nat st) as Hl.
  pose proof (stepChildren_length here (children node) 0%nat st) as Hlen.
  destruct (stepChildren here 0 (children node) st) as [cs' st1].
  cbn [fst snd] in Hl, Hlen. destruct Hl as [HlN Hl].
  assert (Hroot : stepChange node (with_children node cs')).
  { split; [repeat split; exact Hlen | now left]. }
  assert (Hpre : forall k q, preForest here 0 (k :: q) = here ++ k :: q)
    by reflexivity.
  cbv zeta.
  destruct (forallb (fun c => isSome (calculatedValue c)) cs'
            && negb (fst st1)) eqn:Hall; cbn [fst snd].
  - (* this node is the one solved *)
    apply andb_true_iff in Hall as [Hall Hf]. apply negb_true_iff in Hf.
    destruct Hl as [[E1 Hl] | (_ & ? & ? & ? & ? & _ & _ & _ & E1 & _)];
      [|rewrite E1 in Hf; discriminate].
    split; [intros [|k q] Hq; [discriminate | exact (HlN (k :: q) Hq)]|].
    right. split; [congruence|].
    exists [], node. eexists.
    exists (mkLog (label node) (type node)
                  (getCalculationFormula (with_children node cs'))
                  (calculateNodeEMV (with_children node cs')) here).
    split; [reflexivity|]. split; [reflexivity|]. split.
    { split; [repeat split; exact Hlen|].
      split; [exact Hty|]. split; [exact Hcv|].
      split; [reflexivity|].
      split; [now apply forallb_isSome|].
      cbn [logNode nodeLabel nodeType result]. rewrite app_nil_r.
      repeat split. }
    split; [now rewrite E1|].
    intros [|k q] n Hne Hn; [congruence|]. exact (Hl (k :: q) n Hn).
  - (* the outcome is that of the children *)
    split; [intros [|k q] Hq; [discriminate | exact (HlN (k :: q) Hq)]|].
    destruct Hl as [[E1 Hl] |
                    (Hf & q0 & n0 & n0' & e & L0 & L0' & S0 & E1 & Hl)].
    + left. split; [exact E1|].
      intros [|k q] n Hn.
      * injection Hn as <-. eexists. split; [reflexivity | exact Hroot].
      * exact (Hl (k :: q) n Hn).
    + right. split; [exact Hf|].
      destruct q0 as [|k0 q0]; [discriminate|].
      exists (k0 :: q0), n0, n0', e.
      split; [exact L0|]. split; [exact L0'|]. split; [exact S0|].
      split; [exact E1|].
      intros [|k q] n Hne Hn.
      * injection Hn as <-. eexists. split; [reflexivity | exact Hroot].
      * exact (Hl (k :: q) n Hne Hn).
Qed.

(** The two outcomes of [handleSolve(true)]: no node left to solve, the tree
    is marked and the mode becomes 'auto'; or one internal node solved and
    logged. *)
Lemma handleSolveStep_cases s :
  let nextRoot := fst (stepCalculate [] (root s) (false, logs s)) in
  (related stepChange (root s) nextRoot /\
   handleSolveStep s = mkApp (markOptimalPath nextRoot) AutoMode (logs s))
  \/
  (exists q0 n0 n0' e,
     subtree (root s) q0 = Some n0 /\ subtree nextRoot q0 = Some n0' /\
     solvedBy n0 n0' e q0 /\
     handleSolveStep s = mkApp nextRoot StepMode (logs s ++ [e]) /\
     (forall q, subtree (root s) q = None -> subtree nextRoot q = None) /\
     (forall q n, q <> q0 -> subtree (root s) q = Some n ->
                  exists n', subtree nextRoot q = Some n' /\ stepChange n n')).
Proof.
  intros nextRoot. unfold handleSolveStep.
  pose proof (stepCalculate_spec (root s) [] (false, logs s)) as [HN H].
  fold nextRoot in HN, H.
  destruct (stepCalculate [] (root s) (false, logs s)) as [nr [found logs']].
  cbn [fst snd] in *. subst nextRoot.
  destruct H as [[E H] | (_ & q0 & n0 & n0' & e & L0 & L0' & S0 & E & H)];
    injection E as -> ->.
  - left. split; [|reflexivity].
    intros q. destruct (subtree (root s) q) as [n|] eqn:Hn.
    + destruct (H q n Hn) as (n' & -> & Hc). exact Hc.
    + now rewrite HN.
  - right. exists q0, n0, n0', e.
    split; [exact L0|]. split; [exact L0'|]. split; [exact S0|].
    split; [reflexivity|]. split; [exact HN | exact H].
Qed.

Lemma stepChange_terminalStep t t' :
  related stepChange t t' -> related terminalStep t t'.
Proof.
  intros H p. specialize (H p).
  destruct (subtree t p), (subtree t' p); auto.
  destruct H as [Hs [E|(_ & E1 & E2)]]; split; auto.
Qed.

Lemma handleSolveStep_StateInv t0 s :
  StateInv t0 s -> StateInv t0 (handleSolveStep s).
Proof.
  intros [Hinv Hshape].
  destruct (handleSolveStep_cases s)
    as [[Hrel ->] | (q0 & n0 & n0' & e & L0 & L0' & S0 & -> & HN & H)];
    unfold StateInv; cbn [root logs].
  - apply stepChange_terminalStep in Hrel. split.
    + eapply TreeInv_view; [apply sameView_markOptimalPath|].
      eapply TreeInv_terminalStep; eauto.
    + eapply sameShape_trans; [exact Hshape|].
      eapply sameShape_trans;
        [|apply sameView_sameShape, sameView_markOptimalPath].
      eapply sameShape_terminalStep; [apply sameShape_refl | exact Hrel].
  - set (nextRoot := fst (stepCalculate [] (root s) (false, logs s))) in *.
    destruct S0 as (Hs0 & Hty0 & Hcv0 & Hcv0' & Hch & Hln & _).
    assert (Hev : evalStep q0 (root s) nextRoot).
    { intros q. destruct (subtree (root s) q) as [n|] eqn:Hn.
      - destruct (samePath q q0) as [->|Hne].
        + rewrite L0'. rewrite L0 in Hn. injection Hn as <-.
          repeat split; try apply Hs0; auto. congruence.
        + destruct (H q n Hne Hn) as (n' & -> & Hs & [E|(_ & E1 & E2)]);
            split; auto.
      - now rewrite HN. }
    assert (Hsh : sameShape (root s) nextRoot).
    { intros q. specialize (Hev q).
      destruct (subtree (root s) q), (subtree nextRoot q); auto.
      destruct (samePath q q0); apply Hev. }
    assert (Hbelow : forall q m',
              strictlyBelow q0 q -> subtree nextRoot q = Some m' ->
              type m' <> TERMINAL -> calculatedValue m' <> None).
    { intros q m' Hb Hm' Htym.
      destruct (strictlyBelow_split _ _ Hb) as (i & r & ->).
      rewrite subtree_app in Hm'.
      destruct (subtree nextRoot (q0 ++ [i])) as [c'|] eqn:Hc'; [|discriminate].
      assert (Hcvc : calculatedValue c' <> None).
      { rewrite (subtree_child _ _ _ i L0') in Hc'.
        rewrite Forall_forall in Hch. apply Hch.
        eapply nth_error_In; eauto. }
      destruct r as [|j r]; [injection Hm' as <-; exact Hcvc|].
      assert (Hne : q0 ++ [i] <> q0).
      { intros E. rewrite <- (app_nil_r q0) in E at 2.
        now apply app_inv_head in E. }
      destruct (related_Some_r _ _ _ _ _ Hsh Hc') as (c & Hc & Hsc).
      destruct (H _ c Hne Hc) as (c2 & Hc2 & _ & Hchg).
      rewrite Hc' in Hc2. injection Hc2 as <-.
      assert (Htyc : type c <> TERMINAL).
      { intros Ht. pose proof (inv_leaves _ _ Hinv _ _ Hc Ht) as Hl.
        destruct Hsc as (_ & _ & _ & _ & Hlen). rewrite Hl in Hlen.
        simpl in Hm'. destruct (children c'); [|discriminate].
        destruct j; discriminate. }
      destruct Hchg as [E|(_ & E & _)]; [|congruence].
      assert (Hq : (q0 ++ [i]) ++ j :: r <> q0).
      { intros E'. rewrite <- (app_nil_r q0) in E' at 2.
        rewrite <- app_assoc in E'. now apply app_inv_head in E'. }
      assert (Hm2 : subtree nextRoot ((q0 ++ [i]) ++ j :: r) = Some m')
        by (now rewrite subtree_app, Hc').
      destruct (related_Some_r _ _ _ _ _ Hsh Hm2) as (m & Hm & Hsm).
      destruct (H _ m Hq Hm) as (m2 & Hm2' & _ & Hchg).
      rewrite Hm2 in Hm2'. injection Hm2' as <-.
      assert (Htm : type m <> TERMINAL) by (destruct Hsm; congruence).
      destruct Hchg as [E'|(_ & E' & _)]; [|congruence].
      rewrite E'.
      apply (inv_down _ _ Hinv (q0 ++ [i]) ((q0 ++ [i]) ++ j :: r) m);
        auto.
      - exists c. repeat split; auto. congruence.
      - exists (j :: r). split; [discriminate | reflexivity]. }
    split.
    + rewrite map_app. cbn [map]. rewrite Hln.
      eapply TreeInv_evalStep; eauto.
    + eapply sameShape_trans; eauto.
Qed.

(** ** Evaluation runs *)

Lemma unevaluated_eq t :
  unevaluated t =
  negb (isSome (calculatedValue t)) && forallb unevaluated (children t).
Proof. destruct t; reflexivity. Qed.

Lemma unevaluated_subtree : forall p t n,
  unevaluated t = true -> subtree t p = Some n -> calculatedValue n = None.
Proof.
  induction p as [|i p IH]; intros t n Ht Hn; simpl in Hn;
    rewrite unevaluated_eq, andb_true_iff in Ht; destruct Ht as [H1 H2].
  - injection Hn as <-. now destruct (calculatedValue t).
  - destruct (nth_error (children t) i) as [c|] eqn:Hc; [|discriminate].
    apply (IH c); [|exact Hn]. rewrite forallb_forall in H2.
    apply H2. eapply nth_error_In; eauto.
Qed.

Lemma TreeInv_unevaluated t :
  (forall p n, subtree t p = Some n -> type n = TERMINAL ->
               List.length (children n) = 0%nat) ->
  (forall p n, subtree t p = Some n -> calculatedValue n = None) ->
  TreeInv t [].
Proof.
  intros Hl Hc.
  assert (Hnone : forall p, ~ evaluatedInternal t p).
  { intros p (n & Hn & _ & Hcv). apply Hcv. eapply Hc; eauto. }
  constructor; auto.
  - intros p q m Hp. now elim (Hnone p).
  - intros p. split; [intros [] | intros Hp; now elim (Hnone p)].
  - exact I.
  - constructor.
  - intros p n v Hn _ Hcv. rewrite (Hc p n Hn) in Hcv. discriminate.
Qed.

Lemma StateInv_fresh t :
  terminalsAreLeaves t = true -> unevaluated t = true ->
  StateInv t (freshState t).
Proof.
  intros Hl Hu. split; [|apply sameShape_refl]. apply TreeInv_unevaluated.
  - now apply terminalsAreLeaves_LeavesOnly.
  - intros p n. now apply unevaluated_subtree.
Qed.

Lemma resetCalculation_StateInv t0 s :
  StateInv t0 s -> StateInv t0 (resetCalculation s).
Proof.
  intros [Hinv Hshape]. split; cbn [resetCalculation root logs map].
  - apply TreeInv_unevaluated.
    + intros p n' Hn' Hty.
      destruct (related_Some_r _ _ _ _ _ (sameShape_clearValues (root s)) Hn')
        as (n & Hn & (Ht & _ & _ & _ & Hlen)).
      rewrite Hlen. apply (inv_leaves _ _ Hinv p); congruence.
    + intros p n' Hn'. rewrite subtree_clearValues in Hn'.
      destruct (subtree (root s) p) as [n|]; [|discriminate].
      injection Hn' as <-. now destruct n.
  - eapply sameShape_trans; [exact Hshape | apply sameShape_clearValues].
Qed.

Lemma perform_StateInv t0 a s : StateInv t0 s -> StateInv t0 (perform a s).
Proof.
  destruct a; simpl.
  - apply handleSolveStep_StateInv.
  - apply handleSolveAuto_StateInv.
  - apply resetCalculation_StateInv.
Qed.

Lemma run_StateInv t0 actions : forall s,
  StateInv t0 s -> StateInv t0 (run actions s).
Proof.
  induction actions as [|a actions IH]; intros s Hs; [exact Hs|].
  simpl. apply IH. now apply perform_StateInv.
Qed.

(** C6. In every evaluation run, steps and replays (completed or
    cancelled) in any order from a fresh state of a tree whose TERMINAL nodes
    are leaves, the log is post-ordered: the entry of a node comes after the
    entries of all logged nodes strictly below it. *)
Theorem logs_postOrdered (t : TreeNode) (actions : list Action) :
  terminalsAreLeaves t = true -> unevaluated t = true ->
  postOrdered (map logNode (logs (run actions (freshState t)))).
Proof.
  intros Hl Hu. apply noLaterBelow_postOrdered.
  apply (inv_order _ _ (proj1 (run_StateInv t actions _ (StateInv_fresh t Hl Hu)))).
Qed.

(** ** What a complete replay computes *)

Lemma assign_elsewhere w p v q m :
  subtree w q = Some m -> q <> p ->
  exists m',
    subtree (assignCalculatedValue w p v) q = Some m' /\
    calculatedValue m' = calculatedValue m /\ type m' = type m /\
    label m' = label m /\ value m' = value m /\
    ((forall i, p <> q ++ [i]) ->
     calculateNodeEMV m' = calculateNodeEMV m).
Proof.
  intros Hm Hne.
  destruct (subtree_assign w p v q m Hm)
    as (m' & Hm' & _ & Ht & Hv & Hl & _ & _ & Hcv).
  exists m'. destruct (samePath q p) as [E|_]; [contradiction|].
  repeat split; auto.
  intros Hch. eapply calculateNodeEMV_assign; eauto.
Qed.

Lemma assign_here w p v n :
  subtree w p = Some n ->
  exists n',
    subtree (assignCalculatedValue w p v) p = Some n' /\
    calculatedValue n' = v /\ type n' = type n /\
    label n' = label n /\ value n' = value n /\
    calculateNodeEMV n' = calculateNodeEMV n.
Proof.
  intros Hn.
  destruct (subtree_assign w p v p n Hn)
    as (n' & Hn' & _ & Ht & Hv & Hl & _ & _ & Hcv).
  exists n'. destruct (samePath p p) as [_|N]; [|now elim N].
  repeat split; auto.
  eapply calculateNodeEMV_assign; eauto.
  intros i E. rewrite <- (app_nil_r p) in E at 1.
  apply app_inv_head in E. discriminate.
Qed.

Lemma filter_snoc (f : path -> bool) l p :
  filter f (l ++ [p]) = filter f l ++ (if f p then [p] else []).
Proof. rewrite filter_app. reflexivity. Qed.

Lemma pending_true t p n :
  subtree t p = Some n -> type n <> TERMINAL -> calculatedValue n = None ->
  pending t p = true.
Proof.
  intros Hn Hty Hcv. unfold pending. rewrite Hn, Hcv.
  apply NodeType_eqb_neq in Hty. now rewrite Hty.
Qed.

Lemma pending_false_terminal t p n :
  subtree t p = Some n -> type n = TERMINAL -> pending t p = false.
Proof. intros Hn Hty. unfold pending. now rewrite Hn, Hty. Qed.

Lemma pending_false_evaluated t p n :
  subtree t p = Some n -> calculatedValue n <> None -> pending t p = false.
Proof.
  intros Hn Hcv. unfold pending. rewrite Hn.
  destruct (calculatedValue n); [|congruence]. apply andb_false_r.
Qed.

Lemma pending_false_missing t p : subtree t p = None -> pending t p = false.
Proof. intros Hn. unfold pending. now rewrite Hn. Qed.

Lemma ReplayProgress_step r0 visited p rest r r' :
  postOrderPaths (workingRoot r0) = visited ++ p :: rest ->
  ReplayProgress r0 visited r -> visitStep p r r' ->
  ReplayProgress r0 (visited ++ [p]) r'.
Proof.
  intros Hall [Hs Hu (new & Hlogs & Hmap & Hent) Hd Hv] Hstep.
  assert (Hnd : ~ In p visited).
  { pose proof (NoDup_postOrderPaths (workingRoot r0)) as H.
    rewrite Hall in H. apply NoDup_remove_2 in H.
    intros Hin. apply H. apply in_or_app. now left. }
  assert (Hbefore : forall q, In q visited -> forall i, p <> q ++ [i]).
  { intros q Hq i ->.
    apply (noLaterBelow_before visited (q ++ [i]) rest q); auto.
    - rewrite <- Hall. apply noLaterBelow_postOrderPaths.
    - apply strictlyBelow_child. }
  assert (Hentq : forall e, In e new -> logNode e <> p).
  { intros e He E. apply Hnd. rewrite <- E.
    assert (Hin : In (logNode e) (map logNode new)) by now apply in_map.
    rewrite Hmap in Hin. now apply filter_In in Hin. }
  assert (Hassign : forall v,
    let w' := assignCalculatedValue (workingRoot r) p v in
    (forall q n0 n', ~ In q (visited ++ [p]) ->
        subtree (workingRoot r0) q = Some n0 -> subtree w' q = Some n' ->
        calculatedValue n' = calculatedValue n0) /\
    Forall (entryOf w') new /\
    (forall q n0 n', In q visited ->
        subtree (workingRoot r0) q = Some n0 -> subtree w' q = Some n' ->
        visitedNode n0 n')).
  { intros v w'. subst w'. split; [|split].
    - intros q n0 n' Hq Hn0 Hn'.
      assert (Hqp : q <> p) by (intros ->; apply Hq, in_or_app; right; now left).
      assert (Hqv : ~ In q visited) by (intros H; apply Hq, in_or_app; now left).
      destruct (related_Some _ _ _ _ _ Hs Hn0) as (n & Hn & _).
      destruct (assign_elsewhere _ p v q n Hn Hqp) as (m' & Hm' & E & _).
      rewrite Hn' in Hm'. injection Hm' as <-.
      rewrite E. now apply (Hu q).
    - rewrite Forall_forall in *. intros e He.
      destruct (Hent e He) as (n & Hn & Hty & Hl & Ht & Hcv).
      destruct (assign_elsewhere _ p v _ n Hn (Hentq e He))
        as (m' & Hm' & E1 & E2 & E3 & _).
      exists m'. repeat split; congruence.
    - intros q n0 n' Hq Hn0 Hn'.
      assert (Hqp : q <> p) by (intros ->; contradiction).
      destruct (related_Some _ _ _ _ _ Hs Hn0) as (n & Hn & _).
      destruct (assign_elsewhere _ p v q n Hn Hqp)
        as (m' & Hm' & E1 & _ & _ & _ & E2).
      rewrite Hn' in Hm'. injection Hm' as <-.
      destruct (Hv q n0 n Hq Hn0 Hn) as (V1 & V2 & V3).
      unfold visitedNode. rewrite (E2 (Hbefore q Hq)), E1.
      repeat split; auto. }
  assert (Hkeep : forall q n0 n,
            In q visited -> subtree (workingRoot r0) q = Some n0 ->
            subtree (workingRoot r) q = Some n -> visitedNode n0 n)
    by exact Hv.
  destruct Hstep as [Hnone | n Hn Hty | n Hn Hty Hcv | n Hn Hty Hcv].
  - (* no object at the reference *)
    assert (Hp0 : subtree (workingRoot r0) p = None).
    { specialize (Hs p). rewrite Hnone in Hs.
      now destruct (subtree (workingRoot r0) p). }
    constructor; auto.
    + intros q n0 n Hq. apply Hu. intros H. apply Hq, in_or_app. now left.
    + exists new. rewrite filter_snoc, (pending_false_missing _ _ Hp0), app_nil_r.
      auto.
    + now rewrite filter_snoc, (pending_false_missing _ _ Hp0), app_nil_r.
    + intros q n0 n Hq Hn0. apply in_app_or in Hq as [Hq|[<-|[]]];
        [now apply Hv | congruence].
  - (* a TERMINAL node *)
    destruct (related_Some_r _ _ _ _ _ Hs Hn) as (n0 & Hn0 & (Ht0 & Hv0 & _)).
    assert (Hpf : pending (workingRoot r0) p = false)
      by (eapply pending_false_terminal; eauto; congruence).
    destruct (Hassign (value n)) as (A1 & A2 & A3).
    unfold afterTerminal. constructor; cbn [workingRoot app delays]; auto.
    + eapply sameShape_trans; [exact Hs | apply sameShape_assign].
    + exists new. rewrite filter_snoc, Hpf, app_nil_r. auto.
    + now rewrite filter_snoc, Hpf, app_nil_r.
    + intros q m0 m' Hq Hm0 Hm'. apply in_app_or in Hq as [Hq|[<-|[]]];
        [now apply (A3 q)|].
      destruct (assign_here _ p (value n) n Hn) as (n' & Hn' & E & _).
      rewrite Hm' in Hn'. injection Hn' as <-.
      rewrite Hn0 in Hm0. injection Hm0 as <-.
      repeat split; congruence.
  - (* an internal node that already has a value *)
    destruct (related_Some_r _ _ _ _ _ Hs Hn) as (n0 & Hn0 & (Ht0 & _)).
    assert (Hcv0 : calculatedValue n = calculatedValue n0)
      by now apply (Hu p).
    assert (Hpf : pending (workingRoot r0) p = false)
      by (eapply pending_false_evaluated; eauto; congruence).
    constructor; auto.
    + intros q m0 m Hq. apply Hu. intros H. apply Hq, in_or_app. now left.
    + exists new. rewrite filter_snoc, Hpf, app_nil_r. auto.
    + now rewrite filter_snoc, Hpf, app_nil_r.
    + intros q m0 m Hq Hm0 Hm. apply in_app_or in Hq as [Hq|[<-|[]]];
        [now apply (Hv q)|].
      rewrite Hn0 in Hm0. injection Hm0 as <-.
      rewrite Hn in Hm. injection Hm as <-.
      repeat split; congruence.
  - (* an internal node to evaluate *)
    destruct (related_Some_r _ _ _ _ _ Hs Hn) as (n0 & Hn0 & (Ht0 & _)).
    assert (Hcv0 : calculatedValue n = calculatedValue n0)
      by now apply (Hu p).
    assert (Hpt : pending (workingRoot r0) p = true)
      by (eapply pending_true; eauto; congruence).
    destruct (Hassign (Some (calculateNodeEMV n))) as (A1 & A2 & A3).
    destruct (assign_here _ p (Some (calculateNodeEMV n)) n Hn)
      as (n' & Hn' & E1 & E2 & E3 & E4 & E5).
    unfold afterEvaluation.
    constructor; cbn [workingRoot app delays logs]; auto.
    + eapply sameShape_trans; [exact Hs | apply sameShape_assign].
    + eexists. split; [rewrite Hlogs, <- app_assoc; reflexivity|].
      rewrite map_app, Hmap, filter_snoc, Hpt. split; [reflexivity|].
      apply Forall_app. split; [exact A2|]. constructor; [|constructor].
      exists n'. cbn [logNode nodeLabel nodeType result].
      repeat split; congruence.
    + rewrite filter_snoc, Hpt, length_app, Hd. simpl. lia.
    + intros q m0 m' Hq Hm0 Hm'. apply in_app_or in Hq as [Hq|[<-|[]]];
        [now apply (A3 q)|].
      rewrite Hm' in Hn'. injection Hn' as <-.
      rewrite Hn0 in Hm0. injection Hm0 as <-.
      repeat split; congruence.
Qed.

Lemma ReplayProgress_start r0 : ReplayProgress r0 [] r0.
Proof.
  constructor.
  - apply sameShape_refl.
  - intros p n0 n _ H0 H. congruence.
  - exists []. rewrite app_nil_r. repeat split. constructor.
  - simpl. lia.
  - intros p n0 n [].
Qed.

(** A replay that is not cancelled visits every reference. *)
Lemma autoLoop_complete r0 :
  exists r,
    autoLoop None (postOrderPaths (workingRoot r0)) r0 = Finished r /\
    ReplayProgress r0 (postOrderPaths (workingRoot r0)) r.
Proof.
  destruct (autoLoop_None_finishes (postOrderPaths (workingRoot r0)) r0)
    as (r & Hr).
  exists r. split; [exact Hr|].
  pose proof (autoLoop_invariant None (postOrderPaths (workingRoot r0))
                (ReplayProgress r0)
                (fun visited p rest r r' Hall =>
                   ReplayProgress_step r0 visited p rest r r' Hall)
                (postOrderPaths (workingRoot r0)) [] r0 eq_refl
                (ReplayProgress_start r0)) as H.
  now rewrite Hr in H.
Qed.

Lemma handleSolveAuto_complete s :
  exists r,
    ReplayProgress (autoEntry s)
      (postOrderPaths (workingRoot (autoEntry s))) r /\
    handleSolveAuto None s =
    mkReplay (markOptimalPath (workingRoot r))
      (mkApp (markOptimalPath (workingRoot r)) AutoMode (logs (app r)))
      (delays r).
Proof.
  destruct (autoLoop_complete (autoEntry s)) as (r & Hr & Hp).
  exists r. split; [exact Hp|]. unfold handleSolveAuto. now rewrite Hr.
Qed.

Lemma childPaths_clearValuesAuto cs :
  Forall (fun c => postOrderPaths (clearValuesAuto c) = postOrderPaths c) cs ->
  forall i, childPaths i (map clearValuesAuto cs) = childPaths i cs.
Proof.
  induction 1 as [|c cs Hc _ IH]; intros i; [reflexivity|].
  simpl map. now rewrite !childPaths_cons, Hc, IH.
Qed.

Lemma postOrderPaths_clearValuesAuto t :
  postOrderPaths (clearValuesAuto t) = postOrderPaths t.
Proof.
  induction t as [t IH] using TreeNode_nested_ind.
  rewrite (postOrderPaths_eq (clearValuesAuto t)), clearValuesAuto_children,
    (postOrderPaths_eq t).
  now rewrite childPaths_clearValuesAuto.
Qed.

Lemma pending_clearValuesAuto t p :
  pending (clearValuesAuto t) p = internalAt t p.
Proof.
  unfold pending, internalAt.
  destruct (subtree t p) as [n|] eqn:Hn.
  - rewrite (subtree_clearValuesAuto p t n Hn).
    destruct (clearValuesAuto_fields n) as (Ht & _ & _ & _ & _ & Hc & _).
    rewrite Ht. destruct (NodeType_eqb (type n) TERMINAL) eqn:E; [reflexivity|].
    apply NodeType_eqb_neq in E. destruct (Hc E) as [-> _]. reflexivity.
  - pose proof (sameShape_clearValuesAuto t p) as H. rewrite Hn in H.
    now destruct (subtree (clearValuesAuto t) p).
Qed.

Lemma autoEntry_reset_eq s :
  calculationMode s <> StepMode ->
  autoEntry s =
  mkReplay (clearValuesAuto (root s))
           (mkApp (clearValuesAuto (root s)) StepMode []) 0.
Proof. unfold autoEntry. destruct (calculationMode s); congruence. Qed.

Lemma internalAt_true t p :
  internalAt t p = true <->
  exists n, subtree t p = Some n /\ type n <> TERMINAL.
Proof.
  unfold internalAt. split.
  - destruct (subtree t p) as [n|]; [|discriminate]. intros H.
    exists n. split; [reflexivity|].
    apply NodeType_eqb_neq. now destruct (NodeType_eqb (type n) TERMINAL).
  - intros (n & -> & Hty). apply NodeType_eqb_neq in Hty. now rewrite Hty.
Qed.

(** C3. A complete replay of Scenario B logs exactly three entries, the two
    CHANCE nodes and then the DECISION root, after three pacing delays.  In
    general a complete replay entered from the Edit or the Solved state logs
    the internal nodes, each exactly once and in post-order, awaits one
    pacing delay per entry, logs no TERMINAL node, and leaves every TERMINAL
    node with its value as calculatedValue. *)
Theorem requestAuto_log (s : AppState) :
  calculationMode s <> StepMode ->
  (map (fun e => (nodeLabel e, nodeType e, logNode e))
       (logs (app (handleSolveAuto None (freshState scenarioB))))
   = [("C1"%string, CHANCE, [0%nat]); ("C2"%string, CHANCE, [1%nat]);
      ("root"%string, DECISION, [])] /\
   delays (handleSolveAuto None (freshState scenarioB)) = 3%nat) /\
  (let r := handleSolveAuto None s in
   map logNode (logs (app r))
   = filter (internalAt (root s)) (postOrderPaths (root s)) /\
   NoDup (map logNode (logs (app r))) /\
   (forall p, In p (map logNode (logs (app r))) <->
              exists n, subtree (root s) p = Some n /\ type n <> TERMINAL) /\
   Forall (fun e => nodeType e <> TERMINAL) (logs (app r)) /\
   delays r = List.length (logs (app r)) /\
   forall p n, subtree (root s) p = Some n -> type n = TERMINAL ->
               exists n', subtree (root (app r)) p = Some n' /\
                          calculatedValue n' = value n).
Proof.
  intros Hmode. split; [split; reflexivity|].
  destruct (handleSolveAuto_complete s) as (r & Hp & ->).
  rewrite (autoEntry_reset_eq s Hmode) in Hp.
  destruct Hp as [Hs _ (new & Hlogs & Hmap & Hent) Hd Hv].
  cbn [workingRoot app logs delays root] in *.
  rewrite postOrderPaths_clearValuesAuto in *.
  rewrite (filter_ext _ _ (pending_clearValuesAuto (root s))) in *.
  simpl in Hlogs. rewrite Hlogs.
  split; [exact Hmap|]. split.
  { rewrite Hmap. apply NoDup_filter, NoDup_postOrderPaths. }
  split.
  { intros p. rewrite Hmap, filter_In, in_postOrderPaths, internalAt_true.
    split; [tauto|]. intros (n & Hn & Hty). eauto. }
  split.
  { rewrite Forall_forall in *. intros e He.
    destruct (Hent e He) as (n & _ & Hty & _ & -> & _). exact Hty. }
  split.
  { rewrite Hd, <- Hmap, length_map. reflexivity. }
  intros p n Hn Hty.
  pose proof (subtree_clearValuesAuto p _ n Hn) as Hn0.
  destruct (related_Some _ _ _ _ _ Hs Hn0) as (nw & Hnw & _).
  assert (Hin : In p (postOrderPaths (root s)))
    by (apply in_postOrderPaths; eauto).
  destruct (Hv p _ nw Hin Hn0 Hnw) as (V1 & _).
  destruct (clearValuesAuto_fields n) as (Ht & Hval & _).
  destruct (related_Some _ _ _ _ _ (sameView_markOptimalPath (workingRoot r)) Hnw)
    as (n' & Hn' & _ & Hcv).
  exists n'. split; [exact Hn'|]. rewrite Hcv, V1; congruence.
Qed.

(** Trees with the same view compute the same EMV at every position. *)
Lemma sameView_calculateNodeEMV t t' p n n' :
  sameView t t' -> subtree t p = Some n -> subtree t' p = Some n' ->
  calculateNodeEMV n' = calculateNodeEMV n.
Proof.
  intros H Hn Hn'.
  pose proof (H p) as Hp. rewrite Hn, Hn' in Hp.
  destruct Hp as ((Ht & Hv & _ & _ & Hlen) & _).
  apply calculateNodeEMV_ext; auto.
  apply Forall2_pointwise; [exact Hlen|].
  intros i a b Ha Hb.
  rewrite <- (subtree_child _ _ _ i Hn') in Ha.
  rewrite <- (subtree_child _ _ _ i Hn) in Hb.
  pose proof (H (p ++ [i])) as Hc. rewrite Ha, Hb in Hc.
  destruct Hc as ((_ & _ & _ & Hpr & _) & Hcv). auto.
Qed.

(** C10. When the replay is requested in the Stepping state that a run has
    reached, nothing is reset: the log keeps its entries and every
    calculatedValue already assigned is kept; nodes that have one get no
    pacing delay and no new entry; the internal nodes without one are
    evaluated and logged, in post-order, one delay each; the optimal path is
    then marked and the state becomes Solved. *)
Theorem requestAuto_resumes (t : TreeNode) (actions : list Action) :
  terminalsAreLeaves t = true -> unevaluated t = true ->
  calculationMode (run actions (freshState t)) = StepMode ->
  let s := run actions (freshState t) in
  let r := handleSolveAuto None s in
  exists new w,
    logs (app r) = logs s ++ new /\
    map logNode new = filter (pending (root s)) (postOrderPaths (root s)) /\
    delays r = List.length new /\
    root (app r) = markOptimalPath w /\ calculationMode (app r) = AutoMode /\
    (forall p n v,
       subtree (root s) p = Some n -> calculatedValue n = Some v ->
       ~ In p (map logNode new) /\
       exists n', subtree (root (app r)) p = Some n' /\
                  calculatedValue n' = Some v) /\
    (forall p n,
       subtree (root s) p = Some n -> type n <> TERMINAL ->
       calculatedValue n = None ->
       In p (map logNode new) /\
       exists n', subtree (root (app r)) p = Some n' /\
                  calculatedValue n' = Some (calculateNodeEMV n')).
Proof.
  intros Hl Hu Hmode s r.
  destruct (run_StateInv t actions _ (StateInv_fresh t Hl Hu)) as [Hinv _].
  fold s in Hinv, Hmode. subst r.
  destruct (handleSolveAuto_complete s) as (r & Hp & ->).
  assert (E : autoEntry s = mkReplay (root s) (mkApp (root s) StepMode (logs s)) 0).
  { unfold autoEntry. now rewrite Hmode. }
  rewrite E in Hp. destruct Hp as [Hs _ (new & Hlogs & Hmap & _) Hd Hv].
  cbn [workingRoot app logs delays root calculationMode] in *.
  exists new, (workingRoot r).
  split; [exact Hlogs|]. split; [exact Hmap|].
  split; [now rewrite Hd, <- Hmap, length_map|].
  split; [reflexivity|]. split; [reflexivity|].
  pose proof (sameView_markOptimalPath (workingRoot r)) as Hview.
  split.
  - intros p n v Hn Hcv. split.
    + rewrite Hmap, filter_In. intros [_ Hpend].
      rewrite (pending_false_evaluated _ _ n Hn) in Hpend; congruence.
    + destruct (related_Some _ _ _ _ _ Hs Hn) as (nw & Hnw & _).
      assert (Hin : In p (postOrderPaths (root s)))
        by (apply in_postOrderPaths; eauto).
      destruct (Hv p n nw Hin Hn Hnw) as (V1 & V2 & _).
      destruct (related_Some _ _ _ _ _ Hview Hnw) as (n' & Hn' & _ & Hcv').
      exists n'. split; [exact Hn'|]. rewrite Hcv'.
      destruct (NodeType_eqb (type n) TERMINAL) eqn:Hty.
      * apply NodeType_eqb_eq in Hty. rewrite (V1 Hty).
        apply (inv_terminal _ _ Hinv p n v Hn Hty Hcv).
      * apply NodeType_eqb_neq in Hty. rewrite (V2 Hty); congruence.
  - intros p n Hn Hty Hcv. split.
    + rewrite Hmap, filter_In. split.
      * apply in_postOrderPaths. eauto.
      * eapply pending_true; eauto.
    + destruct (related_Some _ _ _ _ _ Hs Hn) as (nw & Hnw & _).
      assert (Hin : In p (postOrderPaths (root s)))
        by (apply in_postOrderPaths; eauto).
      destruct (Hv p n nw Hin Hn Hnw) as (_ & _ & V3).
      destruct (related_Some _ _ _ _ _ Hview Hnw) as (n' & Hn' & _ & Hcv').
      exists n'. split; [exact Hn'|].
      rewrite Hcv', (sameView_calculateNodeEMV _ _ _ _ _ Hview Hnw Hn').
      now apply V3.
Qed.

(** ** Decision optimality *)

Lemma terminalsHaveValue_eq t :
  terminalsHaveValue t =
  (negb (NodeType_eqb (type t) TERMINAL) || isSome (value t))
  && forallb terminalsHaveValue (children t).
Proof. destruct t; reflexivity. Qed.

Lemma terminalsHaveValue_subtree : forall p t n,
  terminalsHaveValue t = true -> subtree t p = Some n -> type n = TERMINAL ->
  value n <> None.
Proof.
  induction p as [|i p IH]; intros t n Ht Hn Hty; simpl in Hn;
    rewrite terminalsHaveValue_eq, andb_true_iff in Ht; destruct Ht as [H1 H2].
  - injection Hn as <-. rewrite Hty in H1. simpl in H1.
    destruct (value t); [discriminate | discriminate H1].
  - destruct (nth_error (children t) i) as [c|] eqn:Hc; [|discriminate].
    apply (IH c); auto. rewrite forallb_forall in H2.
    apply H2. eapply nth_error_In; eauto.
Qed.

Lemma withinTolerance_self v : withinTolerance (Some v) v = true.
Proof.
  apply withinTolerance_true. unfold orElse.
  assert (E : Qabs (v - v) == 0).
  { rewrite (Qabs_wd (v - v) 0) by ring. reflexivity. }
  rewrite E. reflexivity.
Qed.

Lemma LeavesOnly_sameShape t t' : sameShape t t' -> LeavesOnly t -> LeavesOnly t'.
Proof.
  intros H Hl p n' Hn' Hty.
  destruct (related_Some_r _ _ _ _ _ H Hn') as (n & Hn & (Ht & _ & _ & _ & Hlen)).
  rewrite Hlen. apply (Hl p); congruence.
Qed.

(** After a complete replay entered from the Edit or the Solved state, every
    node of the working tree has its calculatedValue: a TERMINAL node its
    value, an internal node the EMV of its children. *)
Lemma replay_evaluates s :
  calculationMode s <> StepMode ->
  exists w,
    root (app (handleSolveAuto None s)) = markOptimalPath w /\
    sameShape (root s) w /\
    forall p n, subtree w p = Some n ->
      (type n = TERMINAL -> calculatedValue n = value n) /\
      (type n <> TERMINAL ->
       calculatedValue n = Some (calculateNodeEMV n)).
Proof.
  intros Hmode.
  destruct (handleSolveAuto_complete s) as (r & Hp & ->).
  rewrite (autoEntry_reset_eq s Hmode) in Hp.
  destruct Hp as [Hs _ _ _ Hv]. cbn [workingRoot app root] in *.
  exists (workingRoot r). split; [reflexivity|]. split.
  { eapply sameShape_trans; [apply sameShape_clearValuesAuto | exact Hs]. }
  intros p n Hn.
  destruct (related_Some_r _ _ _ _ _ Hs Hn) as (n0 & Hn0 & (Ht & Hval & _)).
  assert (Hin : In p (postOrderPaths (clearValuesAuto (root s))))
    by (apply in_postOrderPaths; eauto).
  destruct (Hv p n0 n Hin Hn0 Hn) as (V1 & _ & V3).
  split.
  - intros Hty. rewrite V1; congruence.
  - intros Hty. apply V3; [congruence|].
    apply subtree_clearValuesAuto_inv in Hn0 as (m & _ & ->).
    destruct (clearValuesAuto_fields m) as (Htm & _ & _ & _ & _ & Hc & _).
    apply Hc. congruence.
Qed.

(** Decision optimality of a complete replay entered from the Edit or the
    Solved state, from any tree whose TERMINAL nodes are leaves and carry a
    value. *)
Lemma replay_decision_optimality (s : AppState) :
  calculationMode s <> StepMode ->
  terminalsAreLeaves (root s) = true ->
  terminalsHaveValue (root s) = true ->
  forall p d v,
    subtree (root (app (handleSolveAuto None s))) p = Some d ->
    type d = DECISION -> calculatedValue d = Some v ->
    (children d = [] -> v = 0) /\
    (children d <> [] ->
     exists c, In c (children d) /\ calculatedValue c = Some v /\
               isOptimal c = Some true).
Proof.
  intros Hmode Hwf Hval p d v Hd Hty Hcv.
  destruct (replay_evaluates s Hmode) as (w & Hfinal & Hshape & Hw).
  rewrite Hfinal in Hd.
  pose proof (sameView_markOptimalPath w) as Hview.
  destruct (related_Some_r _ _ _ _ _ Hview Hd)
    as (D & HD & (HtD & _) & HcvD).
  assert (Hlw : LeavesOnly w).
  { eapply LeavesOnly_sameShape; [exact Hshape|].
    now apply terminalsAreLeaves_LeavesOnly. }
  destruct (subtree_markOptimalPath p w D Hlw HD) as (d' & Hd' & Hch & _).
  rewrite Hd in Hd'. injection Hd' as <-.
  assert (HtyD : type D = DECISION) by congruence.
  assert (HcvD' : calculatedValue D = Some v) by congruence.
  rewrite markOptimalPath_children in Hch by congruence.
  destruct (Hw p D HD) as (_ & HD2).
  assert (Hv : v = calculateNodeEMV D).
  { rewrite HD2 in HcvD' by congruence. congruence. }
  destruct (calculateNodeEMV_decision D HtyD) as (Hempty & Hmax).
  split.
  - intros E. rewrite E in Hch. symmetry in Hch. apply map_eq_nil in Hch.
    rewrite Hv. now apply Hempty.
  - intros Hne.
    assert (HneD : children D <> []).
    { intros E. rewrite E in Hch. simpl in Hch. congruence. }
    destruct (Hmax HneD) as ((c0 & Hin & Hc0) & _).
    exists (markedChild D c0). split; [rewrite Hch; now apply in_map|].
    assert (Hcv0 : calculatedValue c0 = Some v).
    { destruct (In_nth_error _ _ Hin) as (i & Hi).
      rewrite <- (subtree_child _ _ _ i HD) in Hi.
      destruct (Hw _ c0 Hi) as (T1 & T2).
      destruct (NodeType_eqb (type c0) TERMINAL) eqn:Htc.
      - apply NodeType_eqb_eq in Htc.
        destruct (related_Some_r _ _ _ _ _ Hshape Hi)
          as (c00 & Hc00 & (Ht0 & Hv0 & _)).
        pose proof (terminalsHaveValue_subtree _ _ c00 Hval Hc00) as Hsome.
        rewrite (T1 Htc) in *. rewrite Hv0 in *.
        destruct (value c00) as [x|]; [|elim Hsome; congruence].
        simpl in Hc0. congruence.
      - apply NodeType_eqb_neq in Htc. rewrite (T2 Htc) in *.
        simpl in Hc0. congruence. }
    unfold markedChild. rewrite HtyD, HcvD'. simpl.
    rewrite markOptimalPath_calculatedValue, Hcv0, withinTolerance_self.
    auto.
Qed.

(** ** Decision optimality along runs *)

(** Under an evaluated internal node, a [terminalStep] changes no
    calculatedValue. *)
Lemma terminalStep_child t lp p n i c c' :
  TreeInv t lp -> ValueInv t ->
  subtree t p = Some n -> type n <> TERMINAL -> calculatedValue n <> None ->
  nth_error (children n) i = Some c -> terminalStep c c' ->
  calculatedValue c' = calculatedValue c /\ probability c' = probability c.
Proof.
  intros Hinv Hval Hn Hty Hcv Hc ((_ & _ & _ & Hpr & _) & Hchg).
  split; [|exact Hpr].
  destruct Hchg as [E|[Htc E]]; [exact E|].
  pose proof (vi_children _ Hval p n i c Hn Hty Hcv Hc) as Hsome.
  destruct (calculatedValue c) as [x|] eqn:Hx; [|congruence].
  rewrite E. rewrite <- (subtree_child _ _ _ i Hn) in Hc.
  apply (inv_terminal _ _ Hinv _ c x Hc Htc Hx).
Qed.

(** The evaluated internal nodes keep their EMV and their evaluated children
    when the nodes relate by [terminalStep] at the node and its children. *)
Lemma ValueInv_node t t' lp p n n' :
  TreeInv t lp -> ValueInv t ->
  subtree t p = Some n -> subtree t' p = Some n' ->
  type n <> TERMINAL -> calculatedValue n <> None ->
  staticEq n n' -> calculatedValue n' = calculatedValue n ->
  (forall i c c', nth_error (children n) i = Some c ->
                  nth_error (children n') i = Some c' -> terminalStep c c') ->
  calculatedValue n' = Some (calculateNodeEMV n') /\
  (forall i c', nth_error (children n') i = Some c' ->
                calculatedValue c' <> None).
Proof.
  intros Hinv Hval Hn Hn' Hty Hcv (Ht & Hv & _ & _ & Hlen) E Hch.
  assert (Hsame : forall i c c',
             nth_error (children n) i = Some c ->
             nth_error (children n') i = Some c' ->
             calculatedValue c' = calculatedValue c /\
             probability c' = probability c).
  { intros i c c' Hc Hc'.
    eapply terminalStep_child; eauto. }
  split.
  - rewrite E, (vi_consistent _ Hval p n Hn Hty Hcv). f_equal.
    symmetry. apply calculateNodeEMV_ext; auto.
    apply Forall2_pointwise; [exact Hlen|].
    intros i c' c Hc' Hc. now apply (Hsame i).
  - intros i c' Hc'.
    destruct (nth_error (children n) i) as [c|] eqn:Hc.
    + destruct (Hsame i c c' Hc Hc') as [-> _].
      apply (vi_children _ Hval p n i c Hn Hty Hcv Hc).
    + apply nth_error_None in Hc.
      assert (i < List.length (children n'))%nat
        by (apply nth_error_Some; congruence).
      lia.
Qed.

Lemma related_children (R : TreeNode -> TreeNode -> Prop) t t' p n n' i c c' :
  related R t t' -> subtree t p = Some n -> subtree t' p = Some n' ->
  nth_error (children n) i = Some c -> nth_error (children n') i = Some c' ->
  R c c'.
Proof.
  intros H Hn Hn' Hc Hc'.
  rewrite <- (subtree_child _ _ _ i Hn) in Hc.
  rewrite <- (subtree_child _ _ _ i Hn') in Hc'.
  specialize (H (p ++ [i])). now rewrite Hc, Hc' in H.
Qed.

Lemma ValueInv_terminalStep t t' lp :
  related terminalStep t t' -> TreeInv t lp -> ValueInv t -> ValueInv t'.
Proof.
  intros H Hinv Hval.
  assert (Hnode : forall p n', subtree t' p = Some n' ->
            type n' <> TERMINAL -> calculatedValue n' <> None ->
            calculatedValue n' = Some (calculateNodeEMV n') /\
            (forall i c', nth_error (children n') i = Some c' ->
                          calculatedValue c' <> None)).
  { intros p n' Hn' Hty Hcv.
    destruct (related_Some_r _ _ _ _ _ H Hn') as (n & Hn & Hs & Hchg).
    assert (Ht : type n' = type n) by apply Hs.
    assert (E : calculatedValue n' = calculatedValue n)
      by (destruct Hchg as [E|[E _]]; congruence).
    apply (ValueInv_node t t' lp p n n'); auto; try congruence.
    intros i c c'. now apply (related_children _ t t' p n n'). }
  constructor.
  - intros p n' Hn' Hty.
    destruct (related_Some_r _ _ _ _ _ H Hn') as (n & Hn & (Ht & Hv & _) & _).
    rewrite Hv. apply (vi_values _ Hval p n Hn). congruence.
  - intros p n' Hn' Hty Hcv. now apply (Hnode p).
  - intros p n' i c' Hn' Hty Hcv. now apply (Hnode p).
Qed.

Lemma evalStep_static p0 t t' p n' :
  evalStep p0 t t' -> subtree t' p = Some n' ->
  exists n, subtree t p = Some n /\ staticEq n n'.
Proof.
  intros H Hn'. specialize (H p). rewrite Hn' in H.
  destruct (subtree t p) as [n|]; [|contradiction].
  exists n. split; [reflexivity|].
  destruct (samePath p p0); apply H.
Qed.

Lemma ValueInv_evalStep p0 t t' n0 n0' lp :
  evalStep p0 t t' -> subtree t p0 = Some n0 -> subtree t' p0 = Some n0' ->
  calculatedValue n0' = Some (calculateNodeEMV n0') ->
  (forall i c', nth_error (children n0') i = Some c' ->
                calculatedValue c' <> None) ->
  TreeInv t lp -> ValueInv t -> ValueInv t'.
Proof.
  intros H Hn0 Hn0' Hnew Hnewc Hinv Hval.
  destruct (evalStep_target _ _ _ _ H Hn0) as (Hty0 & Hcv0 & _).
  assert (Hnode : forall p n', subtree t' p = Some n' ->
            type n' <> TERMINAL -> calculatedValue n' <> None ->
            calculatedValue n' = Some (calculateNodeEMV n') /\
            (forall i c', nth_error (children n') i = Some c' ->
                          calculatedValue c' <> None)).
  { intros p n' Hn' Hty Hcv.
    destruct (samePath p p0) as [->|Hne].
    { rewrite Hn0' in Hn'. injection Hn' as <-. now split. }
    pose proof (H p) as Hp. rewrite Hn' in Hp.
    destruct (subtree t p) as [n|] eqn:Hn; [|contradiction].
    destruct (samePath p p0) as [|_]; [contradiction|].
    destruct Hp as (Hs & Hchg).
    assert (Ht : type n' = type n) by apply Hs.
    assert (E : calculatedValue n' = calculatedValue n)
      by (destruct Hchg as [E|[E _]]; congruence).
    apply (ValueInv_node t t' lp p n n'); auto; try congruence.
    intros i c c' Hc Hc'.
    assert (Hcp : p ++ [i] <> p0).
    { intros <-. rewrite (subtree_child _ _ _ i Hn) in Hn0.
      apply (vi_children _ Hval p n i n0 Hn); congruence. }
    rewrite <- (subtree_child _ _ _ i Hn) in Hc.
    rewrite <- (subtree_child _ _ _ i Hn') in Hc'.
    pose proof (H (p ++ [i])) as Hq. rewrite Hc, Hc' in Hq.
    destruct (samePath (p ++ [i]) p0); [contradiction | exact Hq]. }
  constructor.
  - intros p n' Hn' Hty.
    destruct (evalStep_static _ _ _ _ _ H Hn') as (n & Hn & (Ht & Hv & _)).
    rewrite Hv. apply (vi_values _ Hval p n Hn). congruence.
  - intros p n' Hn' Hty Hcv. now apply (Hnode p).
  - intros p n' i c' Hn' Hty Hcv. now apply (Hnode p).
Qed.

Lemma ValueInv_unevaluated t :
  (forall p n, subtree t p = Some n -> type n = TERMINAL -> value n <> None) ->
  (forall p n, subtree t p = Some n -> type n <> TERMINAL ->
               calculatedValue n = None) ->
  ValueInv t.
Proof.
  intros Hv Hc. constructor; auto.
  - intros p n Hn Hty Hcv. elim Hcv. now apply (Hc p).
  - intros p n i c Hn Hty Hcv. elim Hcv. now apply (Hc p).
Qed.

Lemma LoopValues_step w0 visited p rest r r' :
  postOrderPaths w0 = visited ++ p :: rest ->
  LoopInv w0 visited r -> LoopValues visited r -> visitStep p r r' ->
  LoopValues (visited ++ [p]) r'.
Proof.
  intros Hall [Hw _ Hs _ _] [Vw Vp Vm Vv] Hstep.
  destruct Hstep as [Hnone | n Hn Hty | n Hn Hty Hcv | n Hn Hty Hcv].
  - constructor; auto. intros q n Hq Hn.
    apply in_app_or in Hq as [Hq|[<-|[]]]; [now apply (Vv q) | congruence].
  - pose proof (assign_terminalStep _ _ _ Hn Hty) as Hrel.
    unfold afterTerminal. constructor; cbn [workingRoot app]; auto.
    + exact (ValueInv_terminalStep _ _ _ Hrel Hw Vw).
    + intros q m' Hq Hm'.
      destruct (related_Some_r _ _ _ _ _ Hrel Hm')
        as (m & Hm & (Ht & Hv & _) & [E|[Htm E]]).
      * rewrite E. apply in_app_or in Hq as [Hq|[<-|[]]].
        -- now apply (Vv q).
        -- destruct (assign_here _ p (value n) n Hn) as (n' & Hn' & E' & _).
           rewrite Hm' in Hn'. injection Hn' as <-.
           rewrite Hn in Hm. injection Hm as <-.
           rewrite <- E, E'. apply (vi_values _ Vw p n Hn Hty).
      * rewrite E. apply (vi_values _ Vw q m Hm Htm).
  - constructor; auto. intros q m Hq Hm.
    apply in_app_or in Hq as [Hq|[<-|[]]]; [now apply (Vv q) | congruence].
  - pose proof (assign_evalStep _ _ _ (calculateNodeEMV n) Hn Hty Hcv) as Hrel.
    destruct (assign_here _ p (Some (calculateNodeEMV n)) n Hn)
      as (n' & Hn' & E1 & _ & _ & _ & E5).
    assert (Hkeep : forall q m',
              subtree (assignCalculatedValue (workingRoot r) p
                         (Some (calculateNodeEMV n))) q = Some m' ->
              In q visited \/ q = p -> calculatedValue m' <> None).
    { intros q m' Hm' Hq.
      destruct (related_Some_r _ _ _ _ _
                  (sameShape_assign (workingRoot r) p
                     (Some (calculateNodeEMV n))) Hm') as (m & Hm & _).
      destruct (subtree_assign _ p (Some (calculateNodeEMV n)) q m Hm)
        as (m2 & Hm2 & _ & _ & _ & _ & _ & _ & E).
      rewrite Hm' in Hm2. injection Hm2 as <-. rewrite E.
      destruct (samePath q p) as [->|Hne]; [discriminate|].
      destruct Hq as [Hq|Hq]; [now apply (Vv q) | contradiction]. }
    assert (Hchildren : forall i c', nth_error (children n') i = Some c' ->
                                     calculatedValue c' <> None).
    { intros i c' Hc'. rewrite <- (subtree_child _ _ _ i Hn') in Hc'.
      apply (Hkeep (p ++ [i]) c' Hc'). left.
      destruct (related_Some_r _ _ _ _ _
                  (sameShape_assign (workingRoot r) p
                     (Some (calculateNodeEMV n))) Hc') as (c & Hc & _).
      destruct (related_Some_r _ _ _ _ _ Hs Hc) as (c0 & Hc0 & _).
      eapply postOrder_below_done; eauto. apply strictlyBelow_child. }
    assert (Hval : ValueInv (assignCalculatedValue (workingRoot r) p
                               (Some (calculateNodeEMV n)))).
    { eapply ValueInv_evalStep; eauto. congruence. }
    unfold afterEvaluation.
    constructor; cbn [workingRoot app root calculationMode]; auto.
    intros q m' Hq Hm'. apply (Hkeep q m' Hm').
    apply in_app_or in Hq as [Hq|[<-|[]]]; auto.
Qed.

Lemma ValueInv_clearValuesAuto t : ValueInv t -> ValueInv (clearValuesAuto t).
Proof.
  intros Hv. apply ValueInv_unevaluated.
  - intros p n' Hn' Hty.
    apply subtree_clearValuesAuto_inv in Hn' as (n & Hn & ->).
    destruct (clearValuesAuto_fields n) as (Ht & Hval & _).
    rewrite Hval. apply (vi_values _ Hv p n Hn). congruence.
  - intros p n' Hn' Hty.
    apply subtree_clearValuesAuto_inv in Hn' as (n & Hn & ->).
    destruct (clearValuesAuto_fields n) as (Ht & _ & _ & _ & _ & Hc & _).
    apply Hc. congruence.
Qed.

Lemma autoEntry_LoopValues s :
  StateValues s -> LoopValues [] (autoEntry s).
Proof.
  intros [Hv _]. unfold autoEntry.
  destruct (calculationMode s);
    constructor; cbn [workingRoot app root calculationMode]; auto;
    try (now apply ValueInv_clearValuesAuto); intros q n [].
Qed.

Lemma handleSolveAuto_StateValues c t0 s :
  StateInv t0 s -> StateValues s -> StateValues (app (handleSolveAuto c s)).
Proof.
  intros Hs Hsv. destruct (autoEntry_LoopInv t0 s Hs) as [H0 _].
  pose proof (autoEntry_LoopValues s Hsv) as V0.
  unfold handleSolveAuto.
  pose proof (autoLoop_invariant c
                (postOrderPaths (workingRoot (autoEntry s)))
                (fun visited r =>
                   LoopInv (workingRoot (autoEntry s)) visited r /\
                   LoopValues visited r)
                (fun visited p rest r r' Hall HI Hstep =>
                   conj (LoopInv_step _ visited p rest r r' Hall (proj1 HI) Hstep)
                        (LoopValues_step _ visited p rest r r' Hall
                           (proj1 HI) (proj2 HI) Hstep))
                (postOrderPaths (workingRoot (autoEntry s))) []
                (autoEntry s) eq_refl (conj H0 V0)) as Hloop.
  destruct (autoLoop c (postOrderPaths (workingRoot (autoEntry s)))
              (autoEntry s)) as [r|r].
  - destruct Hloop as [[Hw _ _ _ _] [Vw Vp Vm _]].
    destruct (aborted c r).
    + split; [exact Vp | congruence].
    + cbn [app root calculationMode].
      split; [|intros _; eexists; reflexivity].
      exact (ValueInv_terminalStep _ _ _
               (viewEq_terminalStep _ _ (sameView_markOptimalPath _)) Hw Vw).
  - destruct Hloop as (visited & r'' & [_ [_ Vp Vm _]] & _ & ->).
    split; [exact Vp | congruence].
Qed.

Lemma found_evalStep t t' q0 n0 n0' e :
  subtree t q0 = Some n0 -> subtree t' q0 = Some n0' ->
  solvedBy n0 n0' e q0 ->
  (forall q, subtree t q = None -> subtree t' q = None) ->
  (forall q n, q <> q0 -> subtree t q = Some n ->
               exists n', subtree t' q = Some n' /\ stepChange n n') ->
  evalStep q0 t t'.
Proof.
  intros L0 L0' (Hs0 & Hty0 & Hcv0 & Hcv0' & _) HN H q.
  destruct (subtree t q) as [n|] eqn:Hn.
  - destruct (samePath q q0) as [->|Hne].
    + rewrite L0'. rewrite L0 in Hn. injection Hn as <-.
      repeat split; try apply Hs0; auto. congruence.
    + destruct (H q n Hne Hn) as (n' & -> & Hs & [E|(_ & E1 & E2)]);
        split; auto.
  - now rewrite HN.
Qed.

Lemma handleSolveStep_StateValues t0 s :
  StateInv t0 s -> StateValues s -> StateValues (handleSolveStep s).
Proof.
  intros [Hinv _] [Hv _].
  destruct (handleSolveStep_cases s)
    as [[Hrel ->] | (q0 & n0 & n0' & e & L0 & L0' & S0 & -> & HN & H)];
    unfold StateValues; cbn [root calculationMode].
  - apply stepChange_terminalStep in Hrel.
    split; [|intros _; eexists; reflexivity].
    pose proof (TreeInv_terminalStep _ _ _ Hrel Hinv) as Hinv1.
    pose proof (ValueInv_terminalStep _ _ _ Hrel Hinv Hv) as Hv1.
    exact (ValueInv_terminalStep _ _ _
             (viewEq_terminalStep _ _ (sameView_markOptimalPath _)) Hinv1 Hv1).
  - split; [|discriminate].
    pose proof (found_evalStep _ _ _ _ _ _ L0 L0' S0 HN H) as Hev.
    destruct S0 as (_ & _ & _ & Hnew & Hch & _).
    eapply ValueInv_evalStep; eauto.
    intros i c' Hc'. rewrite Forall_forall in Hch. apply Hch.
    eapply nth_error_In; eauto.
Qed.

Lemma resetCalculation_StateValues s :
  StateValues s -> StateValues (resetCalculation s).
Proof.
  intros [Hv _]. split; [|discriminate]. cbn [resetCalculation root].
  apply ValueInv_unevaluated.
  - intros p n' Hn' Hty.
    destruct (related_Some_r _ _ _ _ _ (sameShape_clearValues (root s)) Hn')
      as (n & Hn & (Ht & Hval & _)).
    rewrite Hval. apply (vi_values _ Hv p n Hn). congruence.
  - intros p n' Hn' _. rewrite subtree_clearValues in Hn'.
    destruct (subtree (root s) p) as [n|]; [|discriminate].
    injection Hn' as <-. now destruct n.
Qed.

Lemma StateValues_fresh t :
  terminalsHaveValue t = true -> unevaluated t = true ->
  StateValues (freshState t).
Proof.
  intros Hv Hu. split; [|discriminate]. apply ValueInv_unevaluated.
  - intros p n. now apply terminalsHaveValue_subtree.
  - intros p n Hn _. now apply (unevaluated_subtree p t).
Qed.

Lemma run_invariants t0 actions : forall s,
  StateInv t0 s -> StateValues s ->
  StateInv t0 (run actions s) /\ StateValues (run actions s).
Proof.
  induction actions as [|a actions IH]; intros s Hs Hv; [now split|].
  simpl. apply IH.
  - now apply perform_StateInv.
  - destruct a; simpl.
    + eapply handleSolveStep_StateValues; eauto.
    + eapply handleSolveAuto_StateValues; eauto.
    + now apply resetCalculation_StateValues.
Qed.

(** C7, as the code has it.  In every Solved state of a run (the tree is
    then a marked tree) over a tree whose TERMINAL nodes are leaves and
    whose values and probabilities are finite numbers, every TERMINAL node
    carrying one: a DECISION node that has children and calculatedValue [v]
    has a child with calculatedValue [v] flagged isOptimal = true; a
    DECISION node without children has calculatedValue 0.  A tree that
    holds NaN (the value an emptied number field stores) is not a
    [TreeNode] of the embedding, and nothing is stated of it: there
    [Math.max] gives NaN and the tolerance test of [markOptimalPath] is
    false for every child. *)
Theorem decision_optimality (t : TreeNode) (actions : list Action) :
  terminalsAreLeaves t = true -> unevaluated t = true ->
  terminalsHaveValue t = true ->
  calculationMode (run actions (freshState t)) = AutoMode ->
  forall p d v,
    subtree (root (run actions (freshState t))) p = Some d ->
    type d = DECISION -> calculatedValue d = Some v ->
    (children d = [] -> v = 0) /\
    (children d <> [] ->
     exists c, In c (children d) /\ calculatedValue c = Some v /\
               isOptimal c = Some true).
Proof.
  intros Hwf Hu Hhv Hmode p d v Hd Hty Hcv.
  destruct (run_invariants t actions _ (StateInv_fresh t Hwf Hu)
              (StateValues_fresh t Hhv Hu)) as [[Hinv _] [Hval Hmark]].
  destruct (Hmark Hmode) as (w & Ew).
  assert (Hv : v = calculateNodeEMV d).
  { assert (H : calculatedValue d = Some (calculateNodeEMV d)).
    { apply (vi_consistent _ Hval p d Hd); congruence. }
    congruence. }
  destruct (calculateNodeEMV_decision d Hty) as (Hempty & Hmax).
  split; [intros E; rewrite Hv; now apply Hempty|].
  intros Hne. destruct (Hmax Hne) as ((c & Hin & Hc) & _).
  exists c. split; [exact Hin|].
  assert (Hcvc : calculatedValue c = Some v).
  { destruct (In_nth_error _ _ Hin) as (i & Hi).
    assert (Hsome : calculatedValue c <> None).
    { apply (vi_children _ Hval p d i c Hd); congruence. }
    destruct (calculatedValue c) as [x|]; [|congruence].
    simpl in Hc. congruence. }
  split; [exact Hcvc|].
  pose proof (sameView_markOptimalPath w) as Hview. rewrite <- Ew in Hview.
  assert (Hlw : LeavesOnly w).
  { apply (LeavesOnly_sameShape (root (run actions (freshState t)))).
    - apply sameView_sameShape. apply related_sym; [|exact Hview].
      intros a b. apply viewEq_sym.
    - exact (inv_leaves _ _ Hinv). }
  destruct (related_Some_r _ _ _ _ _ Hview Hd) as (D & HD & (HtD & _) & HcvD).
  destruct (subtree_markOptimalPath p w D Hlw HD) as (d' & Hd' & Hch & _).
  rewrite <- Ew, Hd in Hd'. injection Hd' as <-.
  rewrite markOptimalPath_children in Hch by congruence.
  rewrite Hch in Hin. apply in_map_iff in Hin as (c0 & <- & _).
  unfold markedChild in *.
  assert (E1 : NodeType_eqb (type D) DECISION = true)
    by (apply NodeType_eqb_eq; congruence).
  rewrite E1 in *. rewrite <- HcvD, Hcv in *. simpl in *.
  rewrite markOptimalPath_calculatedValue in Hcvc.
  now rewrite Hcvc, withinTolerance_self.
Qed.

(** C7 as stated fails on a DECISION node without children: after a complete
    replay the childless root has calculatedValue 0 and no child at all. *)
Lemma childless_decision_has_no_optimal_child :
  ~ (forall t actions p d v,
       calculationMode (run actions (freshState t)) = AutoMode ->
       subtree (root (run actions (freshState t))) p = Some d ->
       type d = DECISION -> calculatedValue d = Some v ->
       exists c, In c (children d) /\ calculatedValue c = Some v /\
                 isOptimal c = Some true).
Proof.
  intros H.
  destruct (H (innerNode "root" DECISION []) [RequestAuto None] [] _ 0
              eq_refl eq_refl eq_refl eq_refl) as (c & Hin & _).
  exact Hin.
Qed.

(** ** What one step assigns *)









(** ** Adding a child *)

Lemma addNodeToTree_eq gen root parentId ty draws :
  addNodeToTree gen root parentId ty draws =
  if String.eqb (id root) parentId then
    (with_children root (children root ++ [newNode (gen draws) ty]), S draws)
  else
    (with_children root
       (fst (addNodeChildren gen parentId ty (children root) (S draws))),
     snd (addNodeChildren gen parentId ty (children root) (S draws))).
Proof.
  destruct root as [i ? ? ? ? cs ? ? ? ?]. simpl.
  destruct (String.eqb i parentId); [reflexivity|].
  unfold addNodeChildren.
  match goal with
  | |- (let '(_, _) := ?x in _) = _ => now destruct x
  end.
Qed.

Lemma addNodeChildren_cons gen parentId ty c r d :
  addNodeChildren gen parentId ty (c :: r) d =
  (fst (addNodeToTree gen c parentId ty d)
     :: fst (addNodeChildren gen parentId ty r
               (snd (addNodeToTree gen c parentId ty d))),
   snd (addNodeChildren gen parentId ty r
          (snd (addNodeToTree gen c parentId ty d)))).
Proof.
  simpl. destruct (addNodeToTree gen c parentId ty d) as [c' d1]. simpl.
  now destruct (addNodeChildren gen parentId ty r d1).
Qed.

Lemma findNode_eq t i :
  findNode t i =
  if String.eqb (id t) i then Some t else findFirst i (children t).
Proof. destruct t; reflexivity. Qed.

Lemma treeIds_eq t : treeIds t = id t :: flat_map treeIds (children t).
Proof. destruct t; reflexivity. Qed.

Lemma noTerminalNamed_eq i t :
  noTerminalNamed i t =
  (negb (String.eqb (id t) i) || negb (NodeType_eqb (type t) TERMINAL))
  && forallb (noTerminalNamed i) (children t).
Proof. destruct t; reflexivity. Qed.

Lemma addNodeChildren_length gen parentId ty cs : forall d,
  List.length (fst (addNodeChildren gen parentId ty cs d)) = List.length cs.
Proof.
  induction cs as [|c r IH]; intros d; [reflexivity|].
  rewrite addNodeChildren_cons. simpl. now rewrite IH.
Qed.

Lemma terminalsAreLeaves_newNode fresh ty :
  terminalsAreLeaves (newNode fresh ty) = true.
Proof. now destruct ty. Qed.

(** Adding under an id that no TERMINAL node carries keeps the TERMINAL
    nodes leaves. *)
Lemma addNodeToTree_keeps_leaves gen parentId ty t :
  forall d,
    noTerminalNamed parentId t = true -> terminalsAreLeaves t = true ->
    terminalsAreLeaves (fst (addNodeToTree gen t parentId ty d)) = true.
Proof.
  induction t as [t IH] using TreeNode_nested_ind. intros d Hno Hwf.
  rewrite noTerminalNamed_eq, andb_true_iff in Hno. destruct Hno as [Hn1 Hn2].
  rewrite terminalsAreLeaves_eq, andb_true_iff in Hwf. destruct Hwf as [Hw1 Hw2].
  rewrite addNodeToTree_eq.
  destruct (String.eqb (id t) parentId) eqn:Hid; cbn [fst];
    rewrite terminalsAreLeaves_eq; cbn [type children with_children];
    apply andb_true_iff; split.
  - simpl in Hn1. now rewrite Hn1.
  - rewrite forallb_app, Hw2. cbn [forallb andb].
    now rewrite terminalsAreLeaves_newNode.
  - now rewrite addNodeChildren_length.
  - clear Hw1 Hn1 Hid. generalize (S d).
    induction IH as [|c r Hc _ IHr]; intros d'; [reflexivity|].
    rewrite addNodeChildren_cons. cbn [fst]. simpl in *.
    apply andb_true_iff in Hn2 as [Hc1 Hr1].
    apply andb_true_iff in Hw2 as [Hc2 Hr2].
    rewrite (Hc d' Hc1 Hc2). simpl. now apply IHr.
Qed.

Lemma forallb_map_same (f : TreeNode -> bool) (g : TreeNode -> TreeNode) cs :
  Forall (fun c => f (g c) = f c) cs ->
  forallb f (map g cs) = forallb f cs.
Proof. induction 1 as [|c r Hc _ IH]; simpl; [reflexivity | now rewrite Hc, IH]. Qed.

Lemma terminalsAreLeaves_clearValues t :
  terminalsAreLeaves (clearValues t) = terminalsAreLeaves t.
Proof.
  induction t as [t IH] using TreeNode_nested_ind.
  rewrite (terminalsAreLeaves_eq (clearValues t)), clearValues_children,
    length_map, (forallb_map_same _ _ _ IH), (terminalsAreLeaves_eq t).
  now destruct t.
Qed.

Lemma noTerminalNamed_clearValues i t :
  noTerminalNamed i (clearValues t) = noTerminalNamed i t.
Proof.
  induction t as [t IH] using TreeNode_nested_ind.
  rewrite (noTerminalNamed_eq i (clearValues t)), clearValues_children,
    (forallb_map_same _ _ _ IH), (noTerminalNamed_eq i t).
  now destruct t.
Qed.

Lemma distinct_NoDup l : distinct l = true -> NoDup l.
Proof.
  induction l as [|a l IH]; simpl; [constructor|].
  rewrite andb_true_iff, negb_true_iff. intros [Ha Hl].
  constructor; [|auto]. intros Hin.
  assert (existsb (String.eqb a) l = true).
  { apply existsb_exists. exists a. split; [exact Hin | apply String.eqb_refl]. }
  congruence.
Qed.

Lemma noTerminalNamed_absent i t :
  ~ In i (treeIds t) -> noTerminalNamed i t = true.
Proof.
  induction t as [t IH] using TreeNode_nested_ind. intros Hni.
  rewrite treeIds_eq in Hni. rewrite noTerminalNamed_eq.
  apply andb_true_iff. split.
  - destruct (String.eqb (id t) i) eqn:E; [|reflexivity].
    apply String.eqb_eq in E. elim Hni. now left.
  - apply forallb_forall. intros c Hc. rewrite Forall_forall in IH.
    apply (IH c Hc). intros Hin. apply Hni. right.
    apply in_flat_map. eauto.
Qed.

Lemma findNode_found t : forall i n,
  findNode t i = Some n -> In i (treeIds t).
Proof.
  induction t as [t IH] using TreeNode_nested_ind. intros i n.
  rewrite findNode_eq, treeIds_eq.
  destruct (String.eqb (id t) i) eqn:E.
  - intros _. left. now apply String.eqb_eq.
  - intros H. right. apply in_flat_map. clear E.
    induction IH as [|c r Hc _ IHr]; [discriminate|].
    simpl in H. destruct (findNode c i) as [f|] eqn:Hf.
    + exists c. split; [now left | eapply Hc; eauto].
    + destruct (IHr H) as (x & Hx & Hi). exists x. split; [now right | exact Hi].
Qed.

Lemma findNode_missing t : forall i,
  findNode t i = None -> ~ In i (treeIds t).
Proof.
  induction t as [t IH] using TreeNode_nested_ind. intros i.
  rewrite findNode_eq, treeIds_eq.
  destruct (String.eqb (id t) i) eqn:E; [discriminate|].
  apply String.eqb_neq in E. intros H [Hin|Hin]; [contradiction|].
  apply in_flat_map in Hin as (c & Hc & Hi).
  induction IH as [|a r Ha _ IHr]; [destruct Hc|].
  simpl in H. destruct (findNode a i) eqn:Hf; [discriminate|].
  destruct Hc as [<-|Hc]; [now apply (Ha i Hf) | now apply IHr].
Qed.

(** With unique ids, the node [findNode] returns is the only one with that
    id: if it is not TERMINAL, no TERMINAL node has the id. *)
Lemma findNode_only t : forall i n,
  NoDup (treeIds t) -> findNode t i = Some n -> type n <> TERMINAL ->
  noTerminalNamed i t = true.
Proof.
  induction t as [t IH] using TreeNode_nested_ind. intros i n Hnd Hf Hty.
  rewrite treeIds_eq in Hnd. apply NoDup_cons_iff in Hnd as [Hroot Hnd].
  rewrite findNode_eq in Hf. rewrite noTerminalNamed_eq.
  destruct (String.eqb (id t) i) eqn:E.
  - injection Hf as <-. apply String.eqb_eq in E. subst i.
    apply NodeType_eqb_neq in Hty. rewrite Hty. simpl.
    apply forallb_forall. intros c Hc. apply noTerminalNamed_absent.
    intros Hin. apply Hroot. apply in_flat_map. eauto.
  - simpl. clear E Hroot.
    induction IH as [|c r Hc _ IHr]; [discriminate|].
    simpl in Hnd, Hf |- *.
    pose proof (NoDup_app_remove_l _ _ Hnd) as Hndr.
    pose proof (NoDup_app_remove_r _ _ Hnd) as Hndc.
    apply andb_true_iff.
    destruct (findNode c i) as [f|] eqn:Hfc.
    + injection Hf as ->. split; [eapply Hc; eauto|].
      apply forallb_forall. intros x Hx. apply noTerminalNamed_absent.
      intros Hin.
      assert (Hi1 : In i (treeIds c)) by (eapply findNode_found; eauto).
      assert (Hi2 : In i (flat_map treeIds r)) by (apply in_flat_map; eauto).
      clear - Hnd Hi1 Hi2.
      induction (treeIds c) as [|a l IHl]; [destruct Hi1|].
      simpl in Hnd. apply NoDup_cons_iff in Hnd as [Ha Hl].
      destruct Hi1 as [->|Hi1]; [|auto].
      apply Ha. apply in_or_app. now right.
    + split; [|now apply IHr].
      apply noTerminalNamed_absent. now apply findNode_missing.
Qed.

Lemma findNode_id t : forall i n, findNode t i = Some n -> id n = i.
Proof.
  induction t as [t IH] using TreeNode_nested_ind. intros i n.
  rewrite findNode_eq. destruct (String.eqb (id t) i) eqn:E.
  - intros H. injection H as <-. now apply String.eqb_eq.
  - clear E. induction IH as [|c r Hc _ IHr]; [discriminate|].
    simpl. destruct (findNode c i) as [f|] eqn:Hf.
    + intros H. injection H as <-. eapply Hc; eauto.
    + exact IHr.
Qed.

(** C4, as the code has it.  [addNodeToTree] and [handleAddNode] do not
    look at the type of the parent and reject nothing; the guard is the
    Controls panel, which offers an add-child action only for a selected node
    that is not TERMINAL.  In a tree with unique ids whose TERMINAL nodes are
    leaves, an add-child action offered by the panel targets a node that is
    not TERMINAL, and performing it leaves every TERMINAL node without
    children. *)
Theorem addChild_guarded_by_controls
        (gen : nat -> string) (s : AppState) (selectedNodeId : option string)
        (parentId : string) (ty : NodeType) (draws : nat) :
  terminalsAreLeaves (root s) = true ->
  uniqueIds (root s) = true ->
  In (parentId, ty) (addChildActions (selectedNode (root s) selectedNodeId)) ->
  (exists parent,
     findNode (root s) parentId = Some parent /\ type parent <> TERMINAL) /\
  terminalsAreLeaves (root (fst (handleAddNode gen parentId ty s draws))) = true.
Proof.
  intros Hwf Huniq Hin.
  apply distinct_NoDup in Huniq.
  destruct selectedNodeId as [sel|]; [|destruct Hin].
  unfold selectedNode in Hin.
  destruct (String.eqb sel ""); [destruct Hin|].
  destruct (findNode (root s) sel) as [n|] eqn:Hsel; [|destruct Hin].
  simpl in Hin.
  destruct (NodeType_eqb (type n) TERMINAL) eqn:Hty; [destruct Hin|].
  apply NodeType_eqb_neq in Hty.
  assert (Hid : id n = parentId).
  { simpl in Hin. destruct Hin as [E|[E|[E|[]]]]; now injection E. }
  assert (Hsel' : sel = parentId).
  { rewrite <- Hid. symmetry. eapply findNode_id; eauto. }
  subst sel.
  split; [eauto|].
  pose proof (findNode_only (root s) parentId n Huniq Hsel Hty) as Hno.
  unfold handleAddNode.
  set (s1 := if match calculationMode s with EditMode => false | _ => true end
             then resetCalculation s else s).
  assert (H1 : noTerminalNamed parentId (root s1) = true
               /\ terminalsAreLeaves (root s1) = true).
  { subst s1. destruct (calculationMode s); cbn [resetCalculation root];
      rewrite ?noTerminalNamed_clearValues, ?terminalsAreLeaves_clearValues;
      auto. }
  destruct H1 as [Hno1 Hwf1].
  pose proof (addNodeToTree_keeps_leaves gen parentId ty (root s1) draws
                Hno1 Hwf1) as H.
  destruct (addNodeToTree gen (root s1) parentId ty draws) as [r d'].
  exact H.
Qed.

(** C4 as stated fails: [addNodeToTree] gives a TERMINAL node a child when
    asked to; nothing is rejected. *)
Lemma addNodeToTree_accepts_terminal_parent :
  ~ (forall gen root parentId ty draws parent,
       findNode root parentId = Some parent -> type parent = TERMINAL ->
       forall parent',
         findNode (fst (addNodeToTree gen root parentId ty draws)) parentId
         = Some parent' ->
         children parent' = []).
Proof.
  intros H.
  specialize (H (fun _ => "fresh"%string) (terminalNode "t" 5 1) "t"%string
                DECISION 0%nat _ eq_refl eq_refl _ eq_refl).
  discriminate H.
Qed.

(** ** The tree store: lookup, update, delete, add *)

Lemma treeNodes_eq t : treeNodes t = t :: flat_map treeNodes (children t).
Proof. destruct t; reflexivity. Qed.

Lemma updateNodeInTree_eq t i u :
  updateNodeInTree t i u =
  if String.eqb (id t) i then applyUpdates t u
  else with_children t (map (fun c => updateNodeInTree c i u) (children t)).
Proof. destruct t; reflexivity. Qed.

Lemma deleteNodeFromTree_eq t i :
  deleteNodeFromTree t i = with_children t (deleteChildren i (children t)).
Proof. destruct t; reflexivity. Qed.

Lemma deleteChildren_filter_map i cs :
  deleteChildren i cs =
  map (fun c => deleteNodeFromTree c i)
      (filter (fun c => negb (String.eqb (id c) i)) cs).
Proof.
  induction cs as [|c r IH]; [reflexivity|].
  simpl. destruct (negb (String.eqb (id c) i)); simpl; now rewrite <- IH.
Qed.

Lemma find_app_first A (f : A -> bool) l1 l2 :
  find f (l1 ++ l2) =
  match find f l1 with Some x => Some x | None => find f l2 end.
Proof.
  induction l1 as [|a l IH]; [reflexivity|].
  simpl. now destruct (f a).
Qed.

(** X1.  [findNode] returns the first node, in the order "node, then its
    children left to right", whose id is the one asked for. *)
Theorem findNode_first_match (t : TreeNode) (i : string) :
  findNode t i = find (fun n => String.eqb (id n) i) (treeNodes t).
Proof.
  induction t as [t IH] using TreeNode_nested_ind.
  rewrite findNode_eq, treeNodes_eq. simpl.
  destruct (String.eqb (id t) i); [reflexivity|].
  induction IH as [|c r Hc _ IHr]; [reflexivity|].
  simpl. rewrite find_app_first, <- Hc, <- IHr.
  now destruct (findNode c i).
Qed.

Lemma findNode_subtree t : forall i n,
  findNode t i = Some n -> exists p, subtree t p = Some n.
Proof.
  induction t as [t IH] using TreeNode_nested_ind. intros i n.
  rewrite findNode_eq. destruct (String.eqb (id t) i).
  - intros H. injection H as <-. now exists [].
  - assert (G : forall cs, Forall (fun c => forall i n, findNode c i = Some n ->
                 exists p, subtree c p = Some n) cs ->
               findFirst i cs = Some n ->
               exists k c p, nth_error cs k = Some c /\ subtree c p = Some n).
    { clear. intros cs HF. induction HF as [|c r Hc _ IHr]; [discriminate|].
      simpl. destruct (findNode c i) as [f|] eqn:Hf.
      - intros H. injection H as ->. destruct (Hc _ _ Hf) as [p Hp].
        now exists 0%nat, c, p.
      - intros H. destruct (IHr H) as (k & c' & p & Hk & Hp).
        now exists (S k), c', p. }
    intros H. destruct (G _ IH H) as (k & c & p & Hk & Hp).
    exists (k :: p). simpl. now rewrite Hk.
Qed.

Lemma findNode_present t i :
  In i (treeIds t) -> findNode t i <> None.
Proof.
  intros Hin Hn. exact (findNode_missing t i Hn Hin).
Qed.

(** X2.  Lookup of a missing or present id: [findNode] answers [null]
    exactly when no node of the tree has the id; a node it returns has the
    id and is a node of the tree. *)
Theorem findNode_lookup (t : TreeNode) (i : string) :
  (findNode t i = None <-> ~ In i (treeIds t)) /\
  (forall n, findNode t i = Some n ->
             id n = i /\ exists p, subtree t p = Some n).
Proof.
  split.
  - split; [apply findNode_missing|].
    intros Hni. destruct (findNode t i) as [n|] eqn:E; [|reflexivity].
    elim Hni. eapply findNode_found; eauto.
  - intros n H. split; [eapply findNode_id; eauto|].
    eapply findNode_subtree; eauto.
Qed.

(** *** updateNodeInTree *)

Lemma with_children_same t : with_children t (children t) = t.
Proof. now destruct t. Qed.

Lemma map_id_on A (f : A -> A) l :
  (forall x, In x l -> f x = x) -> map f l = l.
Proof.
  induction l as [|a l IH]; intros H; [reflexivity|].
  simpl. rewrite (H a (or_introl eq_refl)), IH; [reflexivity|].
  intros x Hx. apply H. now right.
Qed.

Lemma updateNodeInTree_absent_eq t : forall i u,
  ~ In i (treeIds t) -> updateNodeInTree t i u = t.
Proof.
  induction t as [t IH] using TreeNode_nested_ind. intros i u Hni.
  rewrite treeIds_eq in Hni. rewrite updateNodeInTree_eq.
  destruct (String.eqb (id t) i) eqn:E.
  - apply String.eqb_eq in E. elim Hni. now left.
  - rewrite map_id_on; [apply with_children_same|].
    intros c Hc. rewrite Forall_forall in IH. apply (IH c Hc).
    intros Hin. apply Hni. right. apply in_flat_map. eauto.
Qed.

(** X4.  Update, then lookup: when the update does not carry an id, the
    node found under the updated id is the node that was there before,
    merged with the update (and there is none if there was none). *)
Theorem updateNodeInTree_findNode (t : TreeNode) (i : string)
        (u : TreeNodeUpdates) :
  upd_id u = None ->
  findNode (updateNodeInTree t i u) i
  = option_map (fun n => applyUpdates n u) (findNode t i).
Proof.
  intros Hid. induction t as [t IH] using TreeNode_nested_ind.
  rewrite updateNodeInTree_eq, (findNode_eq t).
  destruct (String.eqb (id t) i) eqn:E.
  - rewrite findNode_eq. unfold applyUpdates at 1. cbn [id].
    rewrite Hid. cbn [override]. now rewrite E.
  - rewrite findNode_eq. cbn [with_children id children]. rewrite E.
    induction IH as [|c r Hc _ IHr]; [reflexivity|].
    simpl. rewrite Hc. destruct (findNode c i); [reflexivity | exact IHr].
Qed.

Lemma subtree_id_in : forall p t n,
  subtree t p = Some n -> In (id n) (treeIds t).
Proof.
  induction p as [|k q IH]; intros t n H; simpl in H.
  - injection H as <-. rewrite treeIds_eq. now left.
  - destruct (nth_error (children t) k) as [c|] eqn:Hk; [|discriminate].
    rewrite treeIds_eq. right. apply in_flat_map. exists c.
    split; [eapply nth_error_In; eauto | now apply IH].
Qed.

Lemma NoDup_flat_map_child (cs : list TreeNode) c :
  NoDup (flat_map treeIds cs) -> In c cs -> NoDup (treeIds c).
Proof.
  induction cs as [|a r IH]; intros Hnd Hc; [destruct Hc|].
  simpl in Hnd. destruct Hc as [->|Hc].
  - eapply NoDup_app_remove_r; eauto.
  - apply IH; [eapply NoDup_app_remove_l; eauto | exact Hc].
Qed.

Lemma local_with_children n cs : local (with_children n cs) = local n.
Proof. reflexivity. Qed.

(** X5.  In a tree with unique ids, an update that does not replace the
    children changes the node with the given id, as the merge says, and no
    other node: every position keeps its node, with the same fields. *)
Theorem updateNodeInTree_only_that_node (t : TreeNode) (i : string)
        (u : TreeNodeUpdates) (p : path) (n : TreeNode) :
  uniqueIds t = true -> upd_children u = None ->
  subtree t p = Some n ->
  exists n', subtree (updateNodeInTree t i u) p = Some n' /\
             local n' = if String.eqb (id n) i
                        then local (applyUpdates n u) else local n.
Proof.
  intros Hu Hc. apply distinct_NoDup in Hu. revert p n Hu.
  induction t as [t IH] using TreeNode_nested_ind. intros p n Hnd Hp.
  rewrite treeIds_eq in Hnd. apply NoDup_cons_iff in Hnd as [Hroot Hnd].
  rewrite updateNodeInTree_eq. destruct (String.eqb (id t) i) eqn:E.
  - destruct p as [|k q].
    + injection Hp as <-. exists (applyUpdates t u). rewrite E. now split.
    + simpl in Hp |- *. rewrite Hc. cbn [override].
      destruct (nth_error (children t) k) as [c|] eqn:Hk; [|discriminate].
      exists n. split; [exact Hp|].
      destruct (String.eqb (id n) i) eqn:En; [|reflexivity].
      apply String.eqb_eq in E, En. elim Hroot. rewrite E, <- En.
      apply in_flat_map. exists c.
      split; [eapply nth_error_In; eauto | eapply subtree_id_in; eauto].
  - destruct p as [|k q].
    + injection Hp as <-. eexists. split; [reflexivity|].
      now rewrite E.
    + simpl in Hp |- *.
      destruct (nth_error (children t) k) as [c|] eqn:Hk; [|discriminate].
      rewrite nth_error_map, Hk. cbn [option_map].
      rewrite Forall_forall in IH.
      assert (Hin : In c (children t)) by (eapply nth_error_In; eauto).
      apply (IH c Hin q n); [|exact Hp].
      eapply NoDup_flat_map_child; eauto.
Qed.

Lemma postOrderPaths_children t t' :
  List.length (children t) = List.length (children t') ->
  Forall2 (fun c c' => postOrderPaths c = postOrderPaths c')
          (children t) (children t') ->
  postOrderPaths t = postOrderPaths t'.
Proof.
  intros _ HF. rewrite !postOrderPaths_eq. f_equal.
  generalize 0%nat. induction HF as [|c c' r r' Hc _ IHr]; intros k.
  - reflexivity.
  - simpl. now rewrite Hc, IHr.
Qed.

Lemma updateNodeInTree_structure (t : TreeNode) (i : string)
      (u : TreeNodeUpdates) :
  upd_id u = None -> upd_children u = None ->
  treeIds (updateNodeInTree t i u) = treeIds t /\
  postOrderPaths (updateNodeInTree t i u) = postOrderPaths t /\
  (upd_type u = None ->
   terminalsAreLeaves (updateNodeInTree t i u) = terminalsAreLeaves t).
Proof.
  intros Hid Hc. induction t as [t IH] using TreeNode_nested_ind.
  rewrite updateNodeInTree_eq. destruct (String.eqb (id t) i) eqn:E.
  - repeat split.
    + rewrite (treeIds_eq (applyUpdates t u)), (treeIds_eq t).
      unfold applyUpdates. cbn [id children]. now rewrite Hid, Hc.
    + rewrite (postOrderPaths_eq (applyUpdates t u)), (postOrderPaths_eq t).
      unfold applyUpdates. cbn [children]. now rewrite Hc.
    + intros Hty. rewrite (terminalsAreLeaves_eq (applyUpdates t u)),
        (terminalsAreLeaves_eq t).
      unfold applyUpdates. cbn [type children]. now rewrite Hc, Hty.
  - repeat split.
    + rewrite (treeIds_eq (with_children _ _)), (treeIds_eq t).
      cbn [with_children id children]. f_equal.
      induction IH as [|c r [Hc1 _] _ IHr]; [reflexivity|].
      simpl. now rewrite Hc1, IHr.
    + apply postOrderPaths_children; cbn [with_children children].
      * now rewrite length_map.
      * induction IH as [|c r [_ [Hc2 _]] _ IHr]; constructor; auto.
    + intros Hty. rewrite (terminalsAreLeaves_eq (with_children _ _)),
        (terminalsAreLeaves_eq t).
      cbn [with_children type children]. rewrite length_map. f_equal.
      induction IH as [|c r [_ [_ Hc3]] _ IHr]; [reflexivity|].
      simpl. now rewrite (Hc3 Hty), IHr.
Qed.

(** X6.  An update that carries neither an id nor children keeps the ids of
    the tree, in their order, and the positions of its nodes; if it carries
    no type either, it keeps the TERMINAL nodes leaves. *)
Theorem updateNodeInTree_keeps_structure (t : TreeNode) (i : string)
        (u : TreeNodeUpdates) :
  upd_id u = None -> upd_children u = None ->
  treeIds (updateNodeInTree t i u) = treeIds t /\
  postOrderPaths (updateNodeInTree t i u) = postOrderPaths t /\
  (upd_type u = None ->
   terminalsAreLeaves (updateNodeInTree t i u) = terminalsAreLeaves t).
Proof. apply updateNodeInTree_structure. Qed.

(** *** deleteNodeFromTree *)

Lemma deleteChildren_cons i c r :
  deleteChildren i (c :: r) =
  if negb (String.eqb (id c) i)
  then deleteNodeFromTree c i :: deleteChildren i r
  else deleteChildren i r.
Proof. reflexivity. Qed.

Lemma deleteNodeFromTree_id t i : id (deleteNodeFromTree t i) = id t.
Proof. now rewrite deleteNodeFromTree_eq. Qed.

Lemma deleteNodeFromTree_children t i :
  children (deleteNodeFromTree t i) = deleteChildren i (children t).
Proof. now rewrite deleteNodeFromTree_eq. Qed.

Lemma in_deleteChildren i cs x :
  In x (deleteChildren i cs) ->
  exists c, In c cs /\ id c <> i /\ x = deleteNodeFromTree c i.
Proof.
  induction cs as [|c r IH]; [intros []|].
  rewrite deleteChildren_cons.
  destruct (String.eqb (id c) i) eqn:E; simpl.
  - intros H. destruct (IH H) as (c' & Hc' & Hn & Hx). exists c'. auto.
  - intros [<-|H].
    + exists c. repeat split; [now left | now apply String.eqb_neq].
    + destruct (IH H) as (c' & Hc' & Hn & Hx). exists c'. auto.
Qed.

Lemma deleteNodeFromTree_below t : forall i,
  ~ In i (flat_map treeIds (children (deleteNodeFromTree t i))).
Proof.
  induction t as [t IH] using TreeNode_nested_ind. intros i Hin.
  rewrite deleteNodeFromTree_children in Hin.
  apply in_flat_map in Hin as (x & Hx & Hi).
  apply in_deleteChildren in Hx as (c & Hc & Hn & ->).
  rewrite treeIds_eq, deleteNodeFromTree_id in Hi.
  destruct Hi as [Hi|Hi]; [contradiction|].
  rewrite Forall_forall in IH. exact (IH c Hc i Hi).
Qed.

Lemma deleteNodeFromTree_absent_below t : forall i,
  ~ In i (flat_map treeIds (children t)) -> deleteNodeFromTree t i = t.
Proof.
  induction t as [t IH] using TreeNode_nested_ind. intros i Hni.
  rewrite deleteNodeFromTree_eq.
  replace (deleteChildren i (children t)) with (children t);
    [apply with_children_same|].
  induction IH as [|c r Hc _ IHr]; [reflexivity|].
  simpl in Hni. rewrite deleteChildren_cons.
  assert (Hci : ~ In i (treeIds c)).
  { intros H. apply Hni. apply in_or_app. now left. }
  assert (Hri : ~ In i (flat_map treeIds r)).
  { intros H. apply Hni. apply in_or_app. now right. }
  destruct (String.eqb (id c) i) eqn:E.
  - apply String.eqb_eq in E. elim Hci. rewrite treeIds_eq. now left.
  - simpl. rewrite <- (IHr Hri). f_equal. symmetry. apply Hc.
    intros H. apply Hci. rewrite treeIds_eq. now right.
Qed.

(** X7.  Deleting an id keeps the root node, with all its fields, also when
    the root itself has the id, and leaves no node below the root that has
    the id: every matching node is removed, not only the first.  A second
    deletion of the same id changes nothing more. *)
Theorem deleteNodeFromTree_removes (t : TreeNode) (i : string) :
  local (deleteNodeFromTree t i) = local t /\
  ~ In i (flat_map treeIds (children (deleteNodeFromTree t i))) /\
  deleteNodeFromTree (deleteNodeFromTree t i) i = deleteNodeFromTree t i.
Proof.
  split; [now rewrite deleteNodeFromTree_eq|].
  split; [apply deleteNodeFromTree_below|].
  apply deleteNodeFromTree_absent_below, deleteNodeFromTree_below.
Qed.

(** X8.  Deletions commute: two ids can be deleted in either order. *)
Theorem deleteNodeFromTree_comm (t : TreeNode) (i j : string) :
  deleteNodeFromTree (deleteNodeFromTree t i) j
  = deleteNodeFromTree (deleteNodeFromTree t j) i.
Proof.
  induction t as [t IH] using TreeNode_nested_ind.
  rewrite (deleteNodeFromTree_eq (deleteNodeFromTree t i)),
          (deleteNodeFromTree_eq (deleteNodeFromTree t j)).
  rewrite !deleteNodeFromTree_children.
  rewrite (deleteNodeFromTree_eq t i), (deleteNodeFromTree_eq t j).
  unfold with_children. cbn [id type label value probability collapsed
                              calculatedValue isOptimal notes].
  f_equal.
  induction IH as [|c r Hc _ IHr]; [reflexivity|].
  rewrite !deleteChildren_cons.
  destruct (String.eqb (id c) i) eqn:Ei, (String.eqb (id c) j) eqn:Ej;
    cbn [negb]; rewrite ?deleteChildren_cons, ?deleteNodeFromTree_id,
                  ?Ei, ?Ej; cbn [negb]; try exact IHr.
  now rewrite Hc, IHr.
Qed.

Lemma treeIds_delete_incl t : forall i,
  incl (treeIds (deleteNodeFromTree t i)) (treeIds t).
Proof.
  induction t as [t IH] using TreeNode_nested_ind. intros i x.
  rewrite (treeIds_eq (deleteNodeFromTree t i)), (treeIds_eq t),
    deleteNodeFromTree_id, deleteNodeFromTree_children.
  intros [Hx|Hx]; [now left|]. right.
  apply in_flat_map in Hx as (d & Hd & Hx).
  apply in_deleteChildren in Hd as (c & Hc & _ & ->).
  apply in_flat_map. exists c. split; [exact Hc|].
  rewrite Forall_forall in IH. exact (IH c Hc i x Hx).
Qed.

Lemma NoDup_app_intro A (l1 l2 : list A) :
  NoDup l1 -> NoDup l2 -> (forall a, In a l1 -> ~ In a l2) ->
  NoDup (l1 ++ l2).
Proof.
  induction l1 as [|a l IH]; intros H1 H2 Hd; [exact H2|].
  simpl. apply NoDup_cons_iff in H1 as [Ha Hl]. constructor.
  - intros Hin. apply in_app_or in Hin as [Hin|Hin]; [contradiction|].
    exact (Hd a (or_introl eq_refl) Hin).
  - apply IH; auto. intros b Hb. apply Hd. now right.
Qed.

Lemma NoDup_app_disjoint A (l1 l2 : list A) a :
  NoDup (l1 ++ l2) -> In a l1 -> ~ In a l2.
Proof.
  induction l1 as [|b l IH]; intros Hnd H1 H2; [destruct H1|].
  simpl in Hnd. apply NoDup_cons_iff in Hnd as [Hb Hl].
  destruct H1 as [->|H1].
  - apply Hb. apply in_or_app. now right.
  - exact (IH Hl H1 H2).
Qed.

Lemma NoDup_distinct l : NoDup l -> distinct l = true.
Proof.
  induction 1 as [|a l Ha _ IH]; [reflexivity|].
  simpl. rewrite IH, andb_true_r. apply negb_true_iff.
  destruct (existsb (String.eqb a) l) eqn:E; [|reflexivity].
  apply existsb_exists in E as (x & Hx & Ex).
  apply String.eqb_eq in Ex. subst x. contradiction.
Qed.

Lemma NoDup_treeIds_delete t : forall i,
  NoDup (treeIds t) -> NoDup (treeIds (deleteNodeFromTree t i)).
Proof.
  induction t as [t IH] using TreeNode_nested_ind. intros i.
  rewrite (treeIds_eq (deleteNodeFromTree t i)), (treeIds_eq t),
    deleteNodeFromTree_id, deleteNodeFromTree_children.
  intros Hnd. apply NoDup_cons_iff in Hnd as [Hroot Hnd]. constructor.
  - intros Hin. apply Hroot.
    apply in_flat_map in Hin as (d & Hd & Hx).
    apply in_deleteChildren in Hd as (c & Hc & _ & ->).
    apply in_flat_map. exists c. split; [exact Hc|].
    exact (treeIds_delete_incl c i _ Hx).
  - clear Hroot. induction IH as [|c r Hc _ IHr]; [constructor|].
    simpl in Hnd. rewrite deleteChildren_cons.
    pose proof (NoDup_app_remove_l _ _ Hnd) as Hr.
    pose proof (NoDup_app_remove_r _ _ Hnd) as Hcc.
    destruct (negb (String.eqb (id c) i)); [|now apply IHr].
    simpl. apply NoDup_app_intro; [now apply Hc | now apply IHr |].
    intros a Ha Hin. apply treeIds_delete_incl in Ha.
    apply (NoDup_app_disjoint _ _ _ a Hnd Ha).
    apply in_flat_map in Hin as (d & Hd & Hx).
    apply in_deleteChildren in Hd as (c' & Hc' & _ & ->).
    apply in_flat_map. exists c'. split; [exact Hc'|].
    exact (treeIds_delete_incl c' i _ Hx).
Qed.

Lemma terminalsAreLeaves_delete t : forall i,
  terminalsAreLeaves t = true ->
  terminalsAreLeaves (deleteNodeFromTree t i) = true.
Proof.
  induction t as [t IH] using TreeNode_nested_ind. intros i.
  rewrite (terminalsAreLeaves_eq (deleteNodeFromTree t i)),
    (terminalsAreLeaves_eq t), deleteNodeFromTree_children.
  rewrite (deleteNodeFromTree_eq t i) at 1. cbn [with_children type].
  rewrite !andb_true_iff. intros [Hty Hcs]. split.
  - apply orb_true_iff in Hty as [Hty|Hty]; apply orb_true_iff;
      [now left | right].
    apply Nat.eqb_eq in Hty. destruct (children t); [reflexivity|discriminate].
  - apply forallb_forall. intros x Hx.
    apply in_deleteChildren in Hx as (c & Hc & _ & ->).
    rewrite Forall_forall in IH. apply (IH c Hc).
    rewrite forallb_forall in Hcs. now apply Hcs.
Qed.

(** X9.  Deletion keeps the data-model invariants: the ids that remain are
    ids of the tree, unique ids stay unique, and TERMINAL nodes stay
    leaves. *)
Theorem deleteNodeFromTree_keeps_invariants (t : TreeNode) (i : string) :
  incl (treeIds (deleteNodeFromTree t i)) (treeIds t) /\
  (uniqueIds t = true -> uniqueIds (deleteNodeFromTree t i) = true) /\
  (terminalsAreLeaves t = true ->
   terminalsAreLeaves (deleteNodeFromTree t i) = true).
Proof.
  split; [apply treeIds_delete_incl|]. split.
  - intros H. apply NoDup_distinct, NoDup_treeIds_delete.
    now apply distinct_NoDup.
  - apply terminalsAreLeaves_delete.
Qed.

(** *** addNodeToTree *)

Lemma addNodeToTree_absent_eq gen ty pid t : forall d,
  ~ In pid (treeIds t) ->
  addNodeToTree gen t pid ty d = (t, (d + List.length (treeIds t))%nat).
Proof.
  induction t as [t IH] using TreeNode_nested_ind. intros d Hni.
  rewrite treeIds_eq in Hni. rewrite addNodeToTree_eq, (treeIds_eq t).
  destruct (String.eqb (id t) pid) eqn:E.
  - apply String.eqb_eq in E. elim Hni. now left.
  - assert (G : forall d',
      addNodeChildren gen pid ty (children t) d'
      = (children t, (d' + List.length (flat_map treeIds (children t)))%nat)).
    { assert (Hn : ~ In pid (flat_map treeIds (children t))).
      { intros H. apply Hni. now right. }
      clear Hni E. induction IH as [|c r Hc _ IHr]; intros d'.
      - simpl. f_equal. lia.
      - simpl in Hn. rewrite addNodeChildren_cons, Hc.
        + cbn [fst snd]. rewrite IHr.
          * cbn [fst snd]. simpl. rewrite length_app. f_equal. lia.
          * intros H. apply Hn. apply in_or_app. now right.
        + intros H. apply Hn. apply in_or_app. now left. }
    rewrite G. cbn [fst snd]. rewrite with_children_same. simpl.
    f_equal. lia.
Qed.

(** X3.  An id that no node has: updating it, deleting it or adding a child
    under it returns the tree unchanged; the add has drawn one id for every
    node of the tree all the same. *)
Theorem missing_id_is_noop (t : TreeNode) (i : string) (u : TreeNodeUpdates)
        (gen : nat -> string) (ty : NodeType) (draws : nat) :
  ~ In i (treeIds t) ->
  updateNodeInTree t i u = t /\
  deleteNodeFromTree t i = t /\
  addNodeToTree gen t i ty draws
  = (t, (draws + List.length (treeIds t))%nat).
Proof.
  intros Hni. split; [now apply updateNodeInTree_absent_eq|]. split.
  - apply deleteNodeFromTree_absent_below. intros H. apply Hni.
    rewrite treeIds_eq. now right.
  - now apply addNodeToTree_absent_eq.
Qed.

Lemma addNodeChildren_absent gen ty pid cs : forall d,
  ~ In pid (flat_map treeIds cs) ->
  fst (addNodeChildren gen pid ty cs d) = cs.
Proof.
  induction cs as [|c r IH]; intros d Hn; [reflexivity|].
  simpl in Hn. rewrite addNodeChildren_cons. cbn [fst].
  rewrite addNodeToTree_absent_eq.
  - cbn [fst snd]. rewrite IH; [reflexivity|].
    intros H. apply Hn. apply in_or_app. now right.
  - intros H. apply Hn. apply in_or_app. now left.
Qed.

Lemma addNodeToTree_draws gen ty pid t : forall d,
  (d < snd (addNodeToTree gen t pid ty d))%nat.
Proof.
  induction t as [t IH] using TreeNode_nested_ind. intros d.
  rewrite addNodeToTree_eq. destruct (String.eqb (id t) pid); cbn [snd].
  - lia.
  - assert (G : forall d', (d' <= snd (addNodeChildren gen pid ty (children t) d'))%nat).
    { clear d. induction IH as [|c r Hc _ IHr]; intros d'; [simpl; lia|].
      rewrite addNodeChildren_cons. cbn [snd].
      specialize (Hc d').
      specialize (IHr (snd (addNodeToTree gen c pid ty d'))). lia. }
    specialize (G (S d)). lia.
Qed.

(** With unique ids the parent is one node, at one position; the result is
    the tree with the new node appended there. *)
Lemma addNodeToTree_at gen ty pid t : forall d n,
  NoDup (treeIds t) -> findNode t pid = Some n ->
  exists p k,
    (d <= k < snd (addNodeToTree gen t pid ty d))%nat /\
    subtree t p = Some n /\
    fst (addNodeToTree gen t pid ty d)
    = updateAt (appendChild (newNode (gen k) ty)) t p.
Proof.
  induction t as [t IH] using TreeNode_nested_ind. intros d n Hnd Hf.
  rewrite treeIds_eq in Hnd. apply NoDup_cons_iff in Hnd as [_ Hnd].
  rewrite findNode_eq in Hf. rewrite addNodeToTree_eq.
  destruct (String.eqb (id t) pid) eqn:E.
  - injection Hf as <-. exists [], d. cbn [fst snd].
    split; [lia|]. split; reflexivity.
  - cbn [fst snd].
    assert (G : forall d',
      exists j c p k,
        (d' <= k < snd (addNodeChildren gen pid ty (children t) d'))%nat /\
        nth_error (children t) j = Some c /\ subtree c p = Some n /\
        fst (addNodeChildren gen pid ty (children t) d')
        = updateNth j (fun c => updateAt (appendChild (newNode (gen k) ty)) c p)
                    (children t)).
    { clear E d. induction IH as [|c r Hc _ IHr]; intros d'; [discriminate|].
      simpl in Hnd, Hf.
      pose proof (NoDup_app_remove_l _ _ Hnd) as Hr.
      pose proof (NoDup_app_remove_r _ _ Hnd) as Hcc.
      rewrite addNodeChildren_cons. cbn [fst snd].
      destruct (findNode c pid) as [f|] eqn:Hfc.
      - injection Hf as ->.
        destruct (Hc d' n Hcc eq_refl) as (p & k & Hk & Hp & Heq).
        exists 0%nat, c, p, k.
        assert (Hle : forall d0,
                   (d0 <= snd (addNodeChildren gen pid ty r d0))%nat).
        { clear. induction r as [|a r IH]; intros d0; [simpl; lia|].
          rewrite addNodeChildren_cons. cbn [snd].
          pose proof (addNodeToTree_draws gen ty pid a d0).
          specialize (IH (snd (addNodeToTree gen a pid ty d0))). lia. }
        specialize (Hle (snd (addNodeToTree gen c pid ty d'))).
        split; [lia|]. split; [reflexivity|]. split; [exact Hp|].
        cbn [updateNth]. rewrite Heq. f_equal.
        apply addNodeChildren_absent. intros Hin.
        apply (NoDup_app_disjoint _ _ _ pid Hnd); [|exact Hin].
        eapply findNode_found; eauto.
      - pose proof (findNode_missing c pid Hfc) as Hab.
        rewrite (addNodeToTree_absent_eq gen ty pid c d' Hab). cbn [fst snd].
        destruct (IHr Hr Hf (d' + List.length (treeIds c))%nat)
          as (j & c' & p & k & Hk & Hj & Hp & Heq).
        exists (S j), c', p, k.
        split; [lia|]. split; [exact Hj|]. split; [exact Hp|].
        cbn [updateNth]. now rewrite Heq. }
    destruct (G (S d)) as (j & c & p & k & Hk & Hj & Hp & Heq).
    exists (j :: p), k. split; [lia|]. split.
    + simpl. now rewrite Hj.
    + cbn [updateAt]. now rewrite Heq.
Qed.

(** X10.  In a tree with unique ids, adding under the id of a node appends
    one new node, with a drawn id, as the last child of that node, and
    changes nothing else. *)
Theorem addNodeToTree_appends_once (gen : nat -> string) (t : TreeNode)
        (parentId : string) (ty : NodeType) (draws : nat) (n : TreeNode) :
  uniqueIds t = true -> findNode t parentId = Some n ->
  exists p k,
    (draws <= k < snd (addNodeToTree gen t parentId ty draws))%nat /\
    subtree t p = Some n /\
    fst (addNodeToTree gen t parentId ty draws)
    = updateAt (fun m => with_children m (children m ++ [newNode (gen k) ty]))
               t p.
Proof.
  intros Hu Hf. apply distinct_NoDup in Hu.
  exact (addNodeToTree_at gen ty parentId t draws n Hu Hf).
Qed.

Lemma deleteChildren_absent i cs :
  ~ In i (flat_map treeIds cs) -> deleteChildren i cs = cs.
Proof.
  induction cs as [|c r IH]; intros Hn; [reflexivity|].
  simpl in Hn. rewrite deleteChildren_cons.
  assert (Hc : ~ In i (treeIds c)).
  { intros H. apply Hn. apply in_or_app. now left. }
  destruct (String.eqb (id c) i) eqn:E.
  - apply String.eqb_eq in E. elim Hc. rewrite treeIds_eq. now left.
  - simpl. rewrite IH, deleteNodeFromTree_absent_below; [reflexivity| |].
    + intros H. apply Hc. rewrite treeIds_eq. now right.
    + intros H. apply Hn. apply in_or_app. now right.
Qed.

Lemma deleteChildren_app i l1 l2 :
  deleteChildren i (l1 ++ l2) = deleteChildren i l1 ++ deleteChildren i l2.
Proof.
  induction l1 as [|c r IH]; [reflexivity|].
  simpl. destruct (negb (String.eqb (id c) i)); simpl; now rewrite <- IH.
Qed.

Lemma delete_appended ty g : forall p t n,
  ~ In g (treeIds t) -> subtree t p = Some n ->
  deleteNodeFromTree (updateAt (appendChild (newNode g ty)) t p) g = t.
Proof.
  induction p as [|k q IH]; intros t n Hn Hp.
  - cbn [updateAt]. unfold appendChild. rewrite deleteNodeFromTree_eq.
    cbn [with_children children id type label value probability collapsed
         calculatedValue isOptimal notes].
    rewrite deleteChildren_app, deleteChildren_absent.
    + rewrite deleteChildren_cons. cbn [newNode id].
      rewrite String.eqb_refl. cbn [negb deleteChildren].
      rewrite app_nil_r. now destruct t.
    + intros H. apply Hn. rewrite treeIds_eq. now right.
  - cbn [updateAt]. simpl in Hp.
    destruct (nth_error (children t) k) as [c|] eqn:Hk; [|discriminate].
    rewrite deleteNodeFromTree_eq.
    cbn [with_children children id type label value probability collapsed
         calculatedValue isOptimal notes].
    rewrite treeIds_eq in Hn.
    assert (Hb : ~ In g (flat_map treeIds (children t))).
    { intros H. apply Hn. now right. }
    replace (deleteChildren g (updateNth k _ (children t)))
      with (children t); [now destruct t|].
    clear Hn. revert k Hk Hb. generalize (children t) as cs.
    induction cs as [|a r IHr]; intros k Hk Hb; [now destruct k|].
    simpl in Hb.
    assert (Ha : ~ In g (treeIds a)).
    { intros H. apply Hb. apply in_or_app. now left. }
    assert (Hr : ~ In g (flat_map treeIds r)).
    { intros H. apply Hb. apply in_or_app. now right. }
    destruct k as [|k]; cbn [updateNth]; rewrite deleteChildren_cons.
    + injection Hk as ->.
      assert (Hid : id (updateAt (appendChild (newNode g ty)) c q) = id c).
      { destruct q; reflexivity. }
      rewrite Hid.
      destruct (String.eqb (id c) g) eqn:E.
      { apply String.eqb_eq in E. elim Ha. rewrite treeIds_eq. now left. }
      cbn [negb]. rewrite (IH c n Ha Hp), deleteChildren_absent; auto.
    + destruct (String.eqb (id a) g) eqn:E.
      { apply String.eqb_eq in E. elim Ha. rewrite treeIds_eq. now left. }
      cbn [negb]. rewrite deleteNodeFromTree_absent_below.
      * f_equal. now apply IHr.
      * intros H. apply Ha. rewrite treeIds_eq. now right.
Qed.

Lemma findFirst_absent i cs :
  ~ In i (flat_map treeIds cs) -> findFirst i cs = None.
Proof.
  induction cs as [|c r IH]; intros Hn; [reflexivity|].
  simpl in Hn |- *.
  destruct (findNode c i) eqn:E.
  - elim Hn. apply in_or_app. left. eapply findNode_found; eauto.
  - apply IH. intros H. apply Hn. apply in_or_app. now right.
Qed.

Lemma findFirst_app i l1 l2 :
  findFirst i (l1 ++ l2) =
  match findFirst i l1 with Some f => Some f | None => findFirst i l2 end.
Proof.
  induction l1 as [|c r IH]; [reflexivity|].
  simpl. destruct (findNode c i); [reflexivity | exact IH].
Qed.

Lemma find_appended ty g : forall p t n,
  ~ In g (treeIds t) -> subtree t p = Some n ->
  findNode (updateAt (appendChild (newNode g ty)) t p) g
  = Some (newNode g ty).
Proof.
  induction p as [|k q IH]; intros t n Hn Hp; rewrite treeIds_eq in Hn;
    rewrite findNode_eq.
  - cbn [updateAt]. unfold appendChild. cbn [with_children id children].
    destruct (String.eqb (id t) g) eqn:E.
    { apply String.eqb_eq in E. elim Hn. now left. }
    rewrite findFirst_app, findFirst_absent.
    + simpl. now rewrite String.eqb_refl.
    + intros H. apply Hn. now right.
  - cbn [updateAt with_children id children]. simpl in Hp.
    destruct (String.eqb (id t) g) eqn:E.
    { apply String.eqb_eq in E. elim Hn. now left. }
    destruct (nth_error (children t) k) as [c|] eqn:Hk; [|discriminate].
    assert (Hb : ~ In g (flat_map treeIds (children t))).
    { intros H. apply Hn. now right. }
    clear Hn E. revert k Hk Hb. generalize (children t) as cs.
    induction cs as [|a r IHr]; intros k Hk Hb; [now destruct k|].
    simpl in Hb.
    assert (Ha : ~ In g (treeIds a)).
    { intros H. apply Hb. apply in_or_app. now left. }
    assert (Hr : ~ In g (flat_map treeIds r)).
    { intros H. apply Hb. apply in_or_app. now right. }
    destruct k as [|k]; cbn [updateNth]; simpl.
    + injection Hk as ->. now rewrite (IH c n Ha Hp).
    + destruct (findNode a g) eqn:Ef.
      { elim Ha. eapply findNode_found; eauto. }
      now apply IHr.
Qed.

(** X11.  Add, then look up, then delete: in a tree with unique ids, when
    the drawn ids are not ids of the tree, the node added under an existing
    parent is found under its drawn id, and deleting that id gives back the
    tree as it was. *)
Theorem addNodeToTree_then_delete (gen : nat -> string) (t : TreeNode)
        (parentId : string) (ty : NodeType) (draws : nat) :
  uniqueIds t = true -> In parentId (treeIds t) ->
  (forall k, ~ In (gen k) (treeIds t)) ->
  exists k,
    (draws <= k < snd (addNodeToTree gen t parentId ty draws))%nat /\
    findNode (fst (addNodeToTree gen t parentId ty draws)) (gen k)
    = Some (newNode (gen k) ty) /\
    deleteNodeFromTree (fst (addNodeToTree gen t parentId ty draws)) (gen k)
    = t.
Proof.
  intros Hu Hin Hfresh. apply distinct_NoDup in Hu.
  destruct (findNode t parentId) as [n|] eqn:Hf.
  - destruct (addNodeToTree_at gen ty parentId t draws n Hu Hf)
      as (p & k & Hk & Hp & Heq).
    exists k. rewrite Heq. repeat split; try lia.
    + eapply find_appended; eauto.
    + eapply delete_appended; eauto.
  - elim (findNode_missing t parentId Hf Hin).
Qed.

(** ** The Solved state *)

Lemma stepCalculate_flag node here st :
  fst st = true -> fst (snd (stepCalculate here node st)) = true.
Proof.
  intros Hst.
  destruct (stepCalculate_spec node here st) as [_ [[E _] | (Hf & _)]].
  - now rewrite E.
  - congruence.
Qed.

Lemma stepChildren_flag here cs : forall i st,
  fst st = true -> fst (snd (stepChildren here i cs st)) = true.
Proof.
  induction cs as [|c r IH]; intros i st Hst; [exact Hst|].
  rewrite stepChildren_cons. cbn [snd]. apply IH.
  now apply stepCalculate_flag.
Qed.

Lemma leavesWithValues_child t k c :
  leavesWithValues t -> nth_error (children t) k = Some c ->
  leavesWithValues c.
Proof.
  intros H Hk p n Hn. apply (H (k :: p)). simpl. now rewrite Hk.
Qed.

Lemma fullBelow_child t k c :
  fullBelow t -> nth_error (children t) k = Some c -> fullBelow c.
Proof.
  intros H Hk p n Hn Hcv q m Hm.
  apply (H (k :: p) n) with (q := q); auto. simpl. now rewrite Hk.
Qed.

(** A step that solves nothing leaves no node without a calculatedValue. *)
Lemma stepCalculate_quiet node : forall here st,
  leavesWithValues node -> fullBelow node ->
  fst st = false -> fst (snd (stepCalculate here node st)) = false ->
  forall p n', subtree (fst (stepCalculate here node st)) p = Some n' ->
               calculatedValue n' <> None.
Proof.
  induction node as [node IH] using TreeNode_nested_ind.
  intros here st Hl Hb Hst. rewrite stepCalculate_eq.
  destruct (calculatedValue node) as [v|] eqn:Hcv.
  { cbn [fst snd]. intros _ p n' Hn'.
    apply (Hb [] node eq_refl) with (q := p); [congruence | exact Hn']. }
  destruct (NodeType_eqb (type node) TERMINAL) eqn:Hty.
  { apply NodeType_eqb_eq in Hty. cbn [fst snd]. intros _ p n' Hn'.
    destruct (Hl [] node eq_refl Hty) as [Hch Hval].
    destruct p as [|k q].
    - injection Hn' as <-. exact Hval.
    - simpl in Hn'. rewrite Hch in Hn'. now destruct k. }
  assert (G : forall cs i st0,
    Forall (fun c => forall here st,
              leavesWithValues c -> fullBelow c -> fst st = false ->
              fst (snd (stepCalculate here c st)) = false ->
              forall p n', subtree (fst (stepCalculate here c st)) p = Some n' ->
                           calculatedValue n' <> None) cs ->
    (forall c, In c cs -> leavesWithValues c /\ fullBelow c) ->
    fst st0 = false -> fst (snd (stepChildren here i cs st0)) = false ->
    forall c', In c' (fst (stepChildren here i cs st0)) ->
      forall p n', subtree c' p = Some n' -> calculatedValue n' <> None).
  { clear. intros cs. induction cs as [|c r IHr]; intros i st0 HF Hin Hst Hq c' Hc'.
    - destruct Hc'.
    - rewrite stepChildren_cons in Hq, Hc'. cbn [fst snd] in Hq, Hc'.
      inversion HF as [|? ? Hc HFr]; subst.
      assert (H1 : fst (snd (stepCalculate (here ++ [i]) c st0)) = false).
      { destruct (fst (snd (stepCalculate (here ++ [i]) c st0))) eqn:E;
          [|reflexivity].
        rewrite (stepChildren_flag here r (S i) _ E) in Hq. discriminate. }
      destruct Hc' as [<-|Hc'].
      + destruct (Hin c (or_introl eq_refl)) as [Hlc Hbc].
        apply (Hc (here ++ [i]) st0 Hlc Hbc Hst H1).
      + apply (IHr (S i) _ HFr (fun x Hx => Hin x (or_intror Hx)) H1 Hq c' Hc'). }
  assert (Hkids : forall c, In c (children node) ->
                            leavesWithValues c /\ fullBelow c).
  { intros c Hc. destruct (In_nth_error _ _ Hc) as (k & Hk).
    split; [eapply leavesWithValues_child | eapply fullBelow_child]; eauto. }
  specialize (G (children node) 0%nat st IH Hkids Hst).
  destruct (stepChildren here 0 (children node) st) as [children' st1] eqn:Es.
  cbn [fst snd] in G. cbv zeta.
  destruct (forallb (fun c => isSome (calculatedValue c)) children'
            && negb (fst st1)) eqn:Ec; cbn [fst snd]; [discriminate|].
  intros Hq. specialize (G Hq).
  exfalso. rewrite Hq in Ec. cbn [negb] in Ec. rewrite andb_true_r in Ec.
  assert (forallb (fun c => isSome (calculatedValue c)) children' = true);
    [|congruence].
  apply forallb_forall. intros c' Hc'.
  specialize (G c' Hc' [] c' eq_refl).
  now destruct (calculatedValue c').
Qed.

Lemma TreeInv_ValueInv_fullBelow t lp :
  TreeInv t lp -> ValueInv t -> fullBelow t.
Proof.
  intros Hinv Hval p n Hn Hcv q. revert p n Hn Hcv.
  induction q as [|k q IH]; intros p n Hn Hcv m Hm.
  - injection Hm as <-. exact Hcv.
  - simpl in Hm.
    destruct (nth_error (children n) k) as [c|] eqn:Hk; [|discriminate].
    assert (Hty : type n <> TERMINAL).
    { intros Hty. pose proof (inv_leaves _ _ Hinv p n Hn Hty) as Hlen.
      destruct (children n); [now destruct k | discriminate]. }
    apply (IH (p ++ [k]) c); [|  |exact Hm].
    + now rewrite (subtree_child _ _ _ k Hn).
    + exact (vi_children _ Hval p n k c Hn Hty Hcv Hk).
Qed.

Lemma TreeInv_ValueInv_leavesWithValues t lp :
  TreeInv t lp -> ValueInv t -> leavesWithValues t.
Proof.
  intros Hinv Hval p n Hn Hty. split.
  - pose proof (inv_leaves _ _ Hinv p n Hn Hty).
    now destruct (children n).
  - exact (vi_values _ Hval p n Hn Hty).
Qed.

Lemma handleSolveStep_mode s :
  calculationMode (handleSolveStep s) = AutoMode ->
  fst (snd (stepCalculate [] (root s) (false, logs s))) = false /\
  root (handleSolveStep s)
  = markOptimalPath (fst (stepCalculate [] (root s) (false, logs s))).
Proof.
  unfold handleSolveStep.
  destruct (stepCalculate [] (root s) (false, logs s)) as [nr [found l]].
  destruct found; cbn [calculationMode fst snd root]; [discriminate|].
  now split.
Qed.

Lemma markOptimalPath_keeps_values w :
  (forall p n, subtree w p = Some n -> calculatedValue n <> None) ->
  forall p n, subtree (markOptimalPath w) p = Some n ->
              calculatedValue n <> None.
Proof.
  intros H p n Hn.
  destruct (related_Some_r _ _ _ _ _ (sameView_markOptimalPath w) Hn)
    as (m & Hm & _ & E).
  rewrite E. exact (H p m Hm).
Qed.

Lemma handleSolveStep_solvedComplete t0 s :
  StateInv t0 s -> StateValues s -> solvedComplete (handleSolveStep s).
Proof.
  intros [Hinv _] [Hval _] Hmode.
  destruct (handleSolveStep_mode s Hmode) as [Hq ->].
  apply markOptimalPath_keeps_values.
  apply stepCalculate_quiet; auto.
  - eapply TreeInv_ValueInv_leavesWithValues; eauto.
  - eapply TreeInv_ValueInv_fullBelow; eauto.
Qed.

Lemma handleSolveAuto_solvedComplete c t0 s :
  StateInv t0 s -> StateValues s -> solvedComplete (app (handleSolveAuto c s)).
Proof.
  intros Hs Hsv. destruct (autoEntry_LoopInv t0 s Hs) as [H0 _].
  pose proof (autoEntry_LoopValues s Hsv) as V0.
  unfold handleSolveAuto.
  pose proof (autoLoop_invariant c
                (postOrderPaths (workingRoot (autoEntry s)))
                (fun visited r =>
                   LoopInv (workingRoot (autoEntry s)) visited r /\
                   LoopValues visited r)
                (fun visited p rest r r' Hall HI Hstep =>
                   conj (LoopInv_step _ visited p rest r r' Hall (proj1 HI) Hstep)
                        (LoopValues_step _ visited p rest r r' Hall
                           (proj1 HI) (proj2 HI) Hstep))
                (postOrderPaths (workingRoot (autoEntry s))) []
                (autoEntry s) eq_refl (conj H0 V0)) as Hloop.
  destruct (autoLoop c (postOrderPaths (workingRoot (autoEntry s)))
              (autoEntry s)) as [r|r].
  - destruct Hloop as [[_ _ Hshape _ _] [_ _ Vm Vv]].
    destruct (aborted c r).
    + intros Hmode. congruence.
    + cbn [app]. intros _. cbn [root].
      apply markOptimalPath_keeps_values. intros p n Hn.
      apply (Vv p n); [|exact Hn].
      destruct (related_Some_r _ _ _ _ _ Hshape Hn) as (n0 & Hn0 & _).
      apply in_postOrderPaths. eauto.
  - destruct Hloop as (visited & r'' & [_ [_ _ Vm _]] & _ & ->).
    intros Hmode. congruence.
Qed.

Lemma run_solvedComplete t0 actions : forall s,
  StateInv t0 s -> StateValues s -> solvedComplete s ->
  solvedComplete (run actions s).
Proof.
  induction actions as [|a actions IH]; intros s Hs Hv Hc; [exact Hc|].
  simpl.
  destruct (run_invariants t0 [a] s Hs Hv) as [Hs1 Hv1]. simpl in Hs1, Hv1.
  apply IH; auto.
  destruct a; simpl.
  - eapply handleSolveStep_solvedComplete; eauto.
  - eapply handleSolveAuto_solvedComplete; eauto.
  - intros Hmode. discriminate.
Qed.

Lemma run_fullyEvaluated t actions :
  terminalsAreLeaves t = true -> unevaluated t = true ->
  terminalsHaveValue t = true ->
  calculationMode (run actions (freshState t)) = AutoMode ->
  fullyEvaluated (root (run actions (freshState t))).
Proof.
  intros Hwf Hu Hhv Hmode.
  destruct (run_invariants t actions _ (StateInv_fresh t Hwf Hu)
              (StateValues_fresh t Hhv Hu)) as [[Hinv _] [Hval _]].
  pose proof (run_solvedComplete t actions _ (StateInv_fresh t Hwf Hu)
                (StateValues_fresh t Hhv Hu)) as Hc.
  assert (H0 : solvedComplete (freshState t)) by (intros E; discriminate).
  specialize (Hc H0 Hmode).
  intros p n Hn. pose proof (Hc p n Hn) as Hcv. split; [exact Hcv|]. split.
  - intros Hty. destruct (calculatedValue n) as [v|] eqn:E; [|congruence].
    symmetry. exact (inv_terminal _ _ Hinv p n v Hn Hty E).
  - intros Hty. exact (vi_consistent _ Hval p n Hn Hty Hcv).
Qed.

(** X12.  The Solved state is complete and correct, on a tree whose values
    and probabilities are finite numbers: in every state of a run whose
    mode is 'auto', every node has a calculatedValue, a TERMINAL node its
    value and an internal node the EMV of its children, whether the state
    was reached by steps, by a replay or by both.  (Not stated of a tree
    holding NaN, whose JSON copy holds [null] instead.) *)
Theorem solved_state_fully_evaluated (t : TreeNode) (actions : list Action) :
  terminalsAreLeaves t = true -> unevaluated t = true ->
  terminalsHaveValue t = true ->
  calculationMode (run actions (freshState t)) = AutoMode ->
  forall p n, subtree (root (run actions (freshState t))) p = Some n ->
    calculatedValue n <> None /\
    (type n = TERMINAL -> calculatedValue n = value n) /\
    (type n <> TERMINAL -> calculatedValue n = Some (calculateNodeEMV n)).
Proof. exact (run_fullyEvaluated t actions). Qed.

Lemma related_child (R : TreeNode -> TreeNode -> Prop) a b k ca cb :
  related R a b -> nth_error (children a) k = Some ca ->
  nth_error (children b) k = Some cb -> related R ca cb.
Proof.
  intros H Ha Hb p. specialize (H (k :: p)). simpl in H.
  now rewrite Ha, Hb in H.
Qed.

Lemma fullyEvaluated_child t k c :
  fullyEvaluated t -> nth_error (children t) k = Some c -> fullyEvaluated c.
Proof.
  intros H Hk p n Hn. apply (H (k :: p)). simpl. now rewrite Hk.
Qed.

Lemma fullyEvaluated_root_unique a : forall b,
  sameShape a b -> fullyEvaluated a -> fullyEvaluated b ->
  calculatedValue a = calculatedValue b.
Proof.
  induction a as [a IH] using TreeNode_nested_ind. intros b Hs Ha Hb.
  pose proof (Hs []) as H0. simpl in H0.
  destruct H0 as (Ht & Hv & _ & _ & Hlen).
  destruct (Ha [] a eq_refl) as (_ & Hta & Hia).
  destruct (Hb [] b eq_refl) as (_ & Htb & Hib).
  destruct (NodeType_eqb (type a) TERMINAL) eqn:E.
  - apply NodeType_eqb_eq in E. rewrite (Hta E), Htb; congruence.
  - apply NodeType_eqb_neq in E. rewrite (Hia E), Hib by congruence.
    f_equal. apply calculateNodeEMV_ext; auto.
    apply Forall2_pointwise; [congruence|].
    intros i ca cb Hca Hcb. split.
    + rewrite Forall_forall in IH.
      exact (IH ca (nth_error_In _ _ Hca) cb
               (related_child _ _ _ _ _ _ Hs Hca Hcb)
               (fullyEvaluated_child _ _ _ Ha Hca)
               (fullyEvaluated_child _ _ _ Hb Hcb)).
    + pose proof (Hs [i]) as Hi. simpl in Hi. rewrite Hca, Hcb in Hi.
      destruct Hi as (_ & _ & _ & Hp & _). congruence.
Qed.

Lemma related_subtree (R : TreeNode -> TreeNode -> Prop) : forall p a b na nb,
  related R a b -> subtree a p = Some na -> subtree b p = Some nb ->
  related R na nb.
Proof.
  intros p a b na nb H Ha Hb q. specialize (H (p ++ q)).
  now rewrite (subtree_app a p q), (subtree_app b p q), Ha, Hb in H.
Qed.

Lemma fullyEvaluated_subtree p t n :
  fullyEvaluated t -> subtree t p = Some n -> fullyEvaluated n.
Proof.
  intros H Hn q m Hm. apply (H (p ++ q)).
  now rewrite subtree_app, Hn.
Qed.

Lemma fullyEvaluated_sameView a b :
  sameShape a b -> fullyEvaluated a -> fullyEvaluated b -> sameView a b.
Proof.
  intros Hs Ha Hb p. pose proof (Hs p) as Hp.
  destruct (subtree a p) as [na|] eqn:Ea, (subtree b p) as [nb|] eqn:Eb; auto.
  split; [exact Hp|]. symmetry.
  apply fullyEvaluated_root_unique.
  - exact (related_subtree staticEq p a b na nb Hs Ea Eb).
  - exact (fullyEvaluated_subtree p a na Ha Ea).
  - exact (fullyEvaluated_subtree p b nb Hb Eb).
Qed.

Lemma staticEq_sym a b : staticEq a b -> staticEq b a.
Proof. intros (H1 & H2 & H3 & H4 & H5). repeat split; congruence. Qed.

(** X13.  The values of the Solved state depend on the tree only, when the
    values and probabilities of the tree are finite numbers: two runs over
    the same tree that both end in 'auto' mode, whatever their steps,
    replays, cancellations and resets, hold the same calculatedValue at
    every node.  (Not stated of a tree holding NaN: steps keep the NaN, a
    replay reads its JSON copy, [null], as 0.) *)
Theorem solved_values_agree (t : TreeNode) (actions1 actions2 : list Action) :
  terminalsAreLeaves t = true -> unevaluated t = true ->
  terminalsHaveValue t = true ->
  calculationMode (run actions1 (freshState t)) = AutoMode ->
  calculationMode (run actions2 (freshState t)) = AutoMode ->
  sameView (root (run actions1 (freshState t)))
           (root (run actions2 (freshState t))).
Proof.
  intros Hwf Hu Hhv H1 H2.
  destruct (run_invariants t actions1 _ (StateInv_fresh t Hwf Hu)
              (StateValues_fresh t Hhv Hu)) as [[_ Hs1] _].
  destruct (run_invariants t actions2 _ (StateInv_fresh t Hwf Hu)
              (StateValues_fresh t Hhv Hu)) as [[_ Hs2] _].
  apply fullyEvaluated_sameView.
  - eapply sameShape_trans; [|exact Hs2].
    apply related_sym; [apply staticEq_sym | exact Hs1].
  - now apply run_fullyEvaluated.
  - now apply run_fullyEvaluated.
Qed.

Lemma with_isOptimal_twice n b b' :
  with_isOptimal (with_isOptimal n b) b' = with_isOptimal n b'.
Proof. reflexivity. Qed.

Lemma markOptimalPath_with_isOptimal n b :
  markOptimalPath (with_isOptimal n b)
  = with_isOptimal (markOptimalPath n) b.
Proof.
  rewrite !markOptimalPath_eq. cbn [with_isOptimal type children calculatedValue].
  destruct (NodeType_eqb (type n) TERMINAL || (List.length (children n) =? 0)%nat);
    [reflexivity|].
  cbv zeta. destruct (NodeType_eqb (type n) DECISION), (calculatedValue n);
    reflexivity.
Qed.

Lemma markOptimalPath_idem t :
  markOptimalPath (markOptimalPath t) = markOptimalPath t.
Proof.
  induction t as [t IH] using TreeNode_nested_ind.
  rewrite (markOptimalPath_eq t).
  destruct (NodeType_eqb (type t) TERMINAL || (List.length (children t) =? 0)%nat)
    eqn:E.
  { rewrite markOptimalPath_eq, E. reflexivity. }
  cbv zeta.
  assert (Hne : forall f : TreeNode -> TreeNode,
             (List.length (map f (children t)) =? 0)%nat
             = (List.length (children t) =? 0)%nat).
  { intros f. now rewrite length_map. }
  destruct (NodeType_eqb (type t) DECISION) eqn:Ed;
    [destruct (calculatedValue t) as [maxVal|] eqn:Ecv|].
  - rewrite markOptimalPath_eq.
    cbn [with_children type children calculatedValue].
    rewrite !length_map, E, Ed, Ecv. cbv zeta.
    unfold with_children. cbn [id type label value probability collapsed
      calculatedValue isOptimal notes]. f_equal.
    rewrite !map_map. apply map_ext_in. intros c Hc.
    rewrite Forall_forall in IH.
    rewrite markOptimalPath_with_isOptimal, (IH c Hc).
    cbn [with_isOptimal calculatedValue]. reflexivity.
  - rewrite markOptimalPath_eq.
    cbn [with_children type children calculatedValue].
    rewrite !length_map, E, Ed, Ecv. cbv zeta.
    unfold with_children. cbn [id type label value probability collapsed
      calculatedValue isOptimal notes]. f_equal.
    rewrite !map_map. apply map_ext_in. intros c Hc.
    rewrite Forall_forall in IH. now rewrite (IH c Hc).
  - rewrite markOptimalPath_eq.
    cbn [with_children type children calculatedValue].
    rewrite !length_map, E, Ed. cbv zeta.
    unfold with_children. cbn [id type label value probability collapsed
      calculatedValue isOptimal notes]. f_equal.
    rewrite !map_map. apply map_ext_in. intros c Hc.
    rewrite Forall_forall in IH. now rewrite (IH c Hc).
Qed.

(** X14.  Marking is idempotent: marking a marked tree changes nothing. *)
Theorem markOptimalPath_idempotent (t : TreeNode) :
  markOptimalPath (markOptimalPath t) = markOptimalPath t.
Proof. apply markOptimalPath_idem. Qed.

(** X15.  A step requested in the Solved state changes nothing: the tree,
    the mode and the log stay as they are. *)
Theorem step_in_solved_state (t : TreeNode) (actions : list Action) :
  terminalsAreLeaves t = true -> unevaluated t = true ->
  terminalsHaveValue t = true ->
  calculationMode (run actions (freshState t)) = AutoMode ->
  handleSolveStep (run actions (freshState t)) = run actions (freshState t).
Proof.
  intros Hwf Hu Hhv Hmode.
  destruct (run_invariants t actions _ (StateInv_fresh t Hwf Hu)
              (StateValues_fresh t Hhv Hu)) as [_ [_ Hmark]].
  destruct (Hmark Hmode) as (w & Ew).
  destruct (run_fullyEvaluated t actions Hwf Hu Hhv Hmode [] _ eq_refl)
    as (Hcv & _).
  destruct (run actions (freshState t)) as [r m l].
  cbn [root calculationMode] in *. subst m.
  unfold handleSolveStep. cbn [root logs]. rewrite stepCalculate_eq.
  destruct (calculatedValue r) as [v|]; [|congruence].
  now rewrite Ew, markOptimalPath_idem.
Qed.

(** ** A cancelled replay *)

Lemma autoVisit_cancel k p r :
  (delays r <= k)%nat ->
  match autoVisit (Some k) p r with
  | Finished r' =>
      visitStep p r r' /\ (delays r' <= k)%nat /\
      calculationMode (app r') = calculationMode (app r)
  | Returned r' =>
      delays r = k /\ app r' = app r /\
      exists n, subtree (workingRoot r) p = Some n /\ type n <> TERMINAL /\
                calculatedValue n = None
  end.
Proof.
  intros Hk. destruct (autoVisit (Some k) p r) as [r'|r'] eqn:E.
  - split; [now apply autoVisit_Finished in E|].
    revert E. unfold autoVisit, aborted.
    destruct (k <? delays r)%nat; [discriminate|].
    destruct (subtree (workingRoot r) p) as [n|].
    + destruct (NodeType_eqb (type n) TERMINAL).
      * intros H. injection H as <-. now split.
      * destruct (isSome (calculatedValue n)).
        -- intros H. injection H as <-. now split.
        -- cbn [delays].
           destruct (k <? S (delays r))%nat eqn:Ek; [discriminate|].
           intros H. injection H as <-. cbn [delays app calculationMode].
           apply Nat.ltb_ge in Ek. now split.
    + intros H. injection H as <-. now split.
  - revert E. unfold autoVisit, aborted.
    destruct (k <? delays r)%nat eqn:E0.
    { apply Nat.ltb_lt in E0. lia. }
    destruct (subtree (workingRoot r) p) as [n|]; [|discriminate].
    destruct (NodeType_eqb (type n) TERMINAL) eqn:Hty; [discriminate|].
    destruct (calculatedValue n) as [v|] eqn:Hcv; [discriminate|].
    cbn [isSome delays].
    destruct (k <? S (delays r))%nat eqn:Ek; [|discriminate].
    intros H. injection H as <-. cbn [app].
    apply Nat.ltb_lt in Ek. split; [lia|]. split; [reflexivity|].
    exists n. split; [reflexivity|].
    split; [now apply NodeType_eqb_neq | exact Hcv].
Qed.

Lemma autoLoop_cancel k r0 : forall rest visited r,
  postOrderPaths (workingRoot r0) = visited ++ rest ->
  ReplayProgress r0 visited r -> (delays r <= k)%nat ->
  calculationMode (app r) = calculationMode (app r0) ->
  match autoLoop (Some k) rest r with
  | Finished r' =>
      ReplayProgress r0 (postOrderPaths (workingRoot r0)) r' /\
      (delays r' <= k)%nat /\
      calculationMode (app r') = calculationMode (app r0)
  | Returned r' =>
      exists visited' p rest' r'',
        postOrderPaths (workingRoot r0) = visited' ++ p :: rest' /\
        ReplayProgress r0 visited' r'' /\ delays r'' = k /\
        app r' = app r'' /\
        calculationMode (app r'') = calculationMode (app r0) /\
        pending (workingRoot r0) p = true
  end.
Proof.
  induction rest as [|p rest IH]; intros visited r Hall Hp Hk Hm.
  - simpl. rewrite Hall, app_nil_r. now split.
  - simpl. pose proof (autoVisit_cancel k p r Hk) as Hv.
    destruct (autoVisit (Some k) p r) as [r1|r1].
    + destruct Hv as (Hstep & Hk1 & Hm1).
      apply (IH (visited ++ [p])).
      * now rewrite <- app_assoc.
      * eapply ReplayProgress_step; eauto.
      * exact Hk1.
      * congruence.
    + destruct Hv as (Hd & Ha & n & Hn & Hty & Hcv).
      exists visited, p, rest, r.
      split; [exact Hall|]. split; [exact Hp|]. split; [exact Hd|].
      split; [exact Ha|]. split; [exact Hm|].
      assert (Hnd : ~ In p visited).
      { pose proof (NoDup_postOrderPaths (workingRoot r0)) as H.
        rewrite Hall in H. apply NoDup_remove_2 in H.
        intros Hin. apply H. apply in_or_app. now left. }
      destruct Hp as [Hs Hu _ _ _].
      destruct (related_Some_r _ _ _ _ _ Hs Hn) as (n0 & Hn0 & (Ht & _)).
      unfold pending. rewrite Hn0.
      rewrite <- (Hu p n0 n Hnd Hn0 Hn), Hcv.
      assert (E : NodeType_eqb (type n0) TERMINAL = false).
      { apply NodeType_eqb_neq. congruence. }
      now rewrite E.
Qed.

Lemma firstn_length_app A (l1 l2 : list A) :
  firstn (List.length l1) (l1 ++ l2) = l1.
Proof.
  induction l1 as [|a l IH]; simpl; [now destruct l2 | now rewrite IH].
Qed.

Lemma autoEntry_start s :
  delays (autoEntry s) = 0%nat /\
  calculationMode (app (autoEntry s)) = StepMode.
Proof. unfold autoEntry. now destruct (calculationMode s). Qed.

(** X16.  A replay whose cancellation arrives during the pacing delay that
    follows [k] completed ones appends exactly the first [k] of the entries
    a complete replay would append, and stays in 'step' mode; if fewer than
    [k + 1] nodes were left to evaluate, the replay completes and the mode
    becomes 'auto'. *)
Theorem cancelled_replay_log (s : AppState) (k : nat) :
  let r0 := autoEntry s in
  let todo := filter (pending (workingRoot r0))
                     (postOrderPaths (workingRoot r0)) in
  let r := handleSolveAuto (Some k) s in
  exists new,
    logs (app r) = logs (app r0) ++ new /\
    map logNode new = firstn k todo /\
    calculationMode (app r)
    = if (k <? List.length todo)%nat then StepMode else AutoMode.
Proof.
  intros r0 todo r. subst r. unfold handleSolveAuto. fold r0.
  destruct (autoEntry_start s) as [Hd0 Hm0]. fold r0 in Hd0, Hm0.
  pose proof (autoLoop_cancel k r0 (postOrderPaths (workingRoot r0)) [] r0
                eq_refl (ReplayProgress_start r0)) as H.
  rewrite Hd0 in H. specialize (H (Nat.le_0_l k) eq_refl).
  destruct (autoLoop (Some k) (postOrderPaths (workingRoot r0)) r0) as [r|r].
  - destruct H as ([_ _ (new & Hlogs & Hmap & _) Hd _] & Hk & Hm).
    fold todo in Hmap, Hd. rewrite Hd0 in Hd. simpl in Hd.
    assert (Hab : aborted (Some k) r = false).
    { unfold aborted. apply Nat.ltb_ge. exact Hk. }
    rewrite Hab. cbn [app logs calculationMode].
    exists new. split; [exact Hlogs|]. split.
    + rewrite firstn_all2; [exact Hmap | lia].
    + assert (E : (k <? List.length todo)%nat = false)
        by (apply Nat.ltb_ge; lia).
      now rewrite E.
  - destruct H as (visited & p & rest & r'' & Hall & Hp & Hk & Ha & Hm & Hpend).
    destruct Hp as [_ _ (new & Hlogs & Hmap & _) Hd _].
    rewrite Hd0 in Hd. simpl in Hd.
    assert (Htodo : todo = filter (pending (workingRoot r0)) visited
                           ++ p :: filter (pending (workingRoot r0)) rest).
    { unfold todo. rewrite Hall, filter_app. simpl. now rewrite Hpend. }
    rewrite Ha. exists new. split; [exact Hlogs|]. split.
    + rewrite Hmap, Htodo, <- Hk, Hd. symmetry. apply firstn_length_app.
    + rewrite Hm, Hm0.
      assert (E : (k <? List.length todo)%nat = true).
      { apply Nat.ltb_lt. rewrite Htodo, length_app. simpl. lia. }
      now rewrite E.
Qed.

(** ** What a run leaves untouched *)

Lemma clearValues_eq t :
  clearValues t =
  mkTreeNode (id t) (type t) (label t) (value t) (probability t)
             (map clearValues (children t)) (collapsed t) None None (notes t).
Proof. destruct t; reflexivity. Qed.

Lemma clearValues_ext a b :
  id a = id b -> type a = type b -> label a = label b ->
  value a = value b -> probability a = probability b ->
  collapsed a = collapsed b -> notes a = notes b ->
  map clearValues (children a) = map clearValues (children b) ->
  clearValues a = clearValues b.
Proof.
  intros. rewrite (clearValues_eq a), (clearValues_eq b). congruence.
Qed.

Lemma clearValues_with_calculatedValue n v :
  clearValues (with_calculatedValue n v) = clearValues n.
Proof. now apply clearValues_ext. Qed.

Lemma clearValues_with_isOptimal n b :
  clearValues (with_isOptimal n b) = clearValues n.
Proof. now apply clearValues_ext. Qed.

Lemma clearValues_with_children n cs :
  map clearValues cs = map clearValues (children n) ->
  clearValues (with_children n cs) = clearValues n.
Proof. intros H. now apply clearValues_ext. Qed.

Lemma clearValues_idem t : clearValues (clearValues t) = clearValues t.
Proof.
  induction t as [t IH] using TreeNode_nested_ind.
  rewrite (clearValues_eq (clearValues t)), (clearValues_eq t).
  cbn [id type label value probability children collapsed notes].
  f_equal. rewrite map_map. apply map_ext_in. intros c Hc.
  rewrite Forall_forall in IH. exact (IH c Hc).
Qed.

Lemma clearValues_markOptimalPath t :
  clearValues (markOptimalPath t) = clearValues t.
Proof.
  induction t as [t IH] using TreeNode_nested_ind.
  rewrite Forall_forall in IH.
  rewrite markOptimalPath_eq.
  destruct (NodeType_eqb (type t) TERMINAL || (List.length (children t) =? 0)%nat);
    [reflexivity|].
  cbv zeta.
  destruct (NodeType_eqb (type t) DECISION), (calculatedValue t);
    apply clearValues_with_children; rewrite ?map_map;
    apply map_ext_in; intros c Hc;
    rewrite ?clearValues_with_isOptimal; exact (IH c Hc).
Qed.

Lemma clearValues_clearValuesAuto t :
  clearValues (clearValuesAuto t) = clearValues t.
Proof.
  induction t as [t IH] using TreeNode_nested_ind.
  rewrite Forall_forall in IH.
  assert (Hm : map clearValues (map clearValuesAuto (children t))
               = map clearValues (children t)).
  { rewrite map_map. apply map_ext_in. exact IH. }
  destruct t as [i ty l v pr cs co cv io no]. simpl in *.
  destruct (NodeType_eqb ty TERMINAL); simpl; now rewrite Hm.
Qed.

Lemma clearValues_updateAt f :
  (forall n, clearValues (f n) = clearValues n) ->
  forall p t, clearValues (updateAt f t p) = clearValues t.
Proof.
  intros Hf. induction p as [|k q IH]; intros t; [apply Hf|].
  cbn [updateAt]. apply clearValues_with_children.
  generalize (children t) as cs. revert k.
  induction k as [|k IHk]; intros [|c r]; simpl; try reflexivity.
  - now rewrite IH.
  - f_equal. apply IHk.
Qed.

Lemma clearValues_assign t p v :
  clearValues (assignCalculatedValue t p v) = clearValues t.
Proof.
  apply clearValues_updateAt. intros n.
  apply clearValues_with_calculatedValue.
Qed.

Lemma clearValues_stepCalculate node : forall here st,
  clearValues (fst (stepCalculate here node st)) = clearValues node.
Proof.
  induction node as [node IH] using TreeNode_nested_ind. intros here st.
  rewrite stepCalculate_eq.
  destruct (calculatedValue node); [reflexivity|].
  destruct (NodeType_eqb (type node) TERMINAL);
    [apply clearValues_with_calculatedValue|].
  assert (G : forall i st0,
             map clearValues (fst (stepChildren here i (children node) st0))
             = map clearValues (children node)).
  { induction IH as [|c r Hc _ IHr]; intros i st0; [reflexivity|].
    rewrite stepChildren_cons. cbn [fst map]. now rewrite Hc, IHr. }
  specialize (G 0%nat st).
  destruct (stepChildren here 0 (children node) st) as [children' st1].
  cbn [fst] in G. cbv zeta.
  destruct (forallb (fun c => isSome (calculatedValue c)) children'
            && negb (fst st1)); cbn [fst];
    rewrite ?clearValues_with_calculatedValue;
    now apply clearValues_with_children.
Qed.

Lemma clearValues_handleSolveStep s :
  clearValues (root (handleSolveStep s)) = clearValues (root s).
Proof.
  unfold handleSolveStep.
  pose proof (clearValues_stepCalculate (root s) [] (false, logs s)) as H.
  destruct (stepCalculate [] (root s) (false, logs s)) as [nr [found l]].
  cbn [fst] in H. destruct found; cbn [root];
    now rewrite ?clearValues_markOptimalPath.
Qed.

Lemma clearValues_visitStep p r r' X :
  visitStep p r r' ->
  clearValues (workingRoot r) = X /\ clearValues (root (app r)) = X ->
  clearValues (workingRoot r') = X /\ clearValues (root (app r')) = X.
Proof.
  intros Hstep [Hw Ha].
  destruct Hstep as [Hnone | n Hn Hty | n Hn Hty Hcv | n Hn Hty Hcv]; auto.
  - unfold afterTerminal. cbn [workingRoot app].
    now rewrite clearValues_assign.
  - unfold afterEvaluation. cbn [workingRoot app root].
    now rewrite clearValues_assign.
Qed.

Lemma clearValues_handleSolveAuto c s :
  clearValues (root (app (handleSolveAuto c s))) = clearValues (root s).
Proof.
  unfold handleSolveAuto.
  assert (H0 : clearValues (workingRoot (autoEntry s)) = clearValues (root s) /\
               clearValues (root (app (autoEntry s))) = clearValues (root s)).
  { unfold autoEntry. destruct (calculationMode s);
      cbn [workingRoot app root]; now rewrite ?clearValues_clearValuesAuto. }
  pose proof (autoLoop_invariant c
                (postOrderPaths (workingRoot (autoEntry s)))
                (fun _ r =>
                   clearValues (workingRoot r) = clearValues (root s) /\
                   clearValues (root (app r)) = clearValues (root s))
                (fun visited p rest r r' _ HI Hstep =>
                   clearValues_visitStep p r r' _ Hstep HI)
                (postOrderPaths (workingRoot (autoEntry s))) []
                (autoEntry s) eq_refl H0) as Hloop.
  destruct (autoLoop c (postOrderPaths (workingRoot (autoEntry s)))
              (autoEntry s)) as [r|r].
  - destruct Hloop as [Hw Ha]. destruct (aborted c r); [exact Ha|].
    cbn [app root]. now rewrite clearValues_markOptimalPath.
  - destruct Hloop as (visited & r'' & [_ Ha] & _ & ->). exact Ha.
Qed.

Lemma clearValues_perform a s :
  clearValues (root (perform a s)) = clearValues (root s).
Proof.
  destruct a; simpl.
  - apply clearValues_handleSolveStep.
  - apply clearValues_handleSolveAuto.
  - apply clearValues_idem.
Qed.

Lemma clearValues_run actions : forall s,
  clearValues (root (run actions s)) = clearValues (root s).
Proof.
  induction actions as [|a actions IH]; intros s; [reflexivity|].
  simpl. now rewrite IH, clearValues_perform.
Qed.

(** X17.  An evaluation run over a tree whose number fields hold finite
    numbers changes derived fields only: after any sequence of steps,
    replays (complete or cancelled) and resets, a reset gives the state
    that a reset of the starting state gives.  Ids, types, labels, values,
    probabilities, notes and the shape of the tree are never touched.
    (Not stated of a tree holding NaN or an infinity, which the JSON copy
    of a replay replaces by [null].) *)
Theorem reset_after_run (actions : list Action) (s : AppState) :
  resetCalculation (run actions s) = resetCalculation s.
Proof.
  unfold resetCalculation. now rewrite clearValues_run.
Qed.

(** ** Editing during a run *)

Lemma handleSolveStep_not_edit s :
  calculationMode (handleSolveStep s) <> EditMode.
Proof.
  unfold handleSolveStep.
  destruct (stepCalculate [] (root s) (false, logs s)) as [nr [found l]].
  now destruct found.
Qed.

Lemma visitStep_mode p r r' :
  visitStep p r r' -> calculationMode (app r') = calculationMode (app r).
Proof. now destruct 1. Qed.

Lemma handleSolveAuto_not_edit c s :
  calculationMode (app (handleSolveAuto c s)) <> EditMode.
Proof.
  unfold handleSolveAuto.
  pose proof (autoLoop_invariant c
                (postOrderPaths (workingRoot (autoEntry s)))
                (fun _ r => calculationMode (app r) = StepMode)
                (fun visited p rest r r' _ HI Hstep =>
                   eq_trans (visitStep_mode p r r' Hstep) HI)
                (postOrderPaths (workingRoot (autoEntry s))) []
                (autoEntry s) eq_refl (proj2 (autoEntry_start s))) as Hloop.
  destruct (autoLoop c (postOrderPaths (workingRoot (autoEntry s)))
              (autoEntry s)) as [r|r].
  - destruct (aborted c r); [congruence | discriminate].
  - destruct Hloop as (visited & r'' & Hm & _ & ->). congruence.
Qed.

Lemma perform_editClean a s : editClean (perform a s).
Proof.
  destruct a; simpl; intros Hm.
  - now elim (handleSolveStep_not_edit s).
  - now elim (handleSolveAuto_not_edit cancelAt s).
  - split; [reflexivity | apply clearValues_idem].
Qed.

Lemma run_editClean actions : forall s,
  editClean s -> editClean (run actions s).
Proof.
  induction actions as [|a actions IH]; intros s Hs; [exact Hs|].
  simpl. apply IH, perform_editClean.
Qed.

(** The state an edit starts from, at any point of a run over a tree without
    derived fields, is the fresh state of that tree. *)
Lemma edit_base t actions :
  clearValues t = t ->
  (if match calculationMode (run actions (freshState t)) with
      | EditMode => false
      | _ => true
      end
   then resetCalculation (run actions (freshState t))
   else run actions (freshState t)) = freshState t.
Proof.
  intros Ht.
  assert (H0 : editClean (freshState t)) by (intros _; now split).
  pose proof (run_editClean actions _ H0) as Hc.
  pose proof (clearValues_run actions (freshState t)) as Hr.
  cbn [freshState root] in Hr. rewrite Ht in Hr.
  destruct (run actions (freshState t)) as [r m l].
  cbn [root calculationMode] in *.
  destruct m; unfold resetCalculation, freshState; cbn [root];
    try now rewrite Hr.
  destruct (Hc eq_refl) as [Hl He]. cbn [logs root] in Hl, He.
  congruence.
Qed.

Lemma handleUpdateNode_run t actions i u :
  clearValues t = t ->
  handleUpdateNode i u (run actions (freshState t))
  = freshState (updateNodeInTree t i u).
Proof.
  intros Ht. unfold handleUpdateNode. now rewrite (edit_base t actions Ht).
Qed.

Lemma handleAddNode_run t actions gen i ty draws :
  clearValues t = t ->
  handleAddNode gen i ty (run actions (freshState t)) draws
  = (freshState (fst (addNodeToTree gen t i ty draws)),
     snd (addNodeToTree gen t i ty draws)).
Proof.
  intros Ht. unfold handleAddNode. rewrite (edit_base t actions Ht).
  cbn [freshState root calculationMode logs].
  now destruct (addNodeToTree gen t i ty draws).
Qed.

Lemma handleDeleteNode_run t actions i sel draws :
  clearValues t = t ->
  handleDeleteNode i (mkSession (run actions (freshState t)) sel draws)
  = mkSession (freshState (deleteNodeFromTree t i)) None draws.
Proof.
  intros Ht. unfold handleDeleteNode. cbn [sessionApp idDraws].
  now rewrite (edit_base t actions Ht).
Qed.

(** X18.  An edit discards the run: updating, adding or deleting a node at
    any point of an evaluation run over a tree without derived fields,
    whose number fields hold finite numbers, gives the state that the same
    edit gives before the run started, in 'edit' mode, with an empty log
    and no calculatedValue or isOptimal anywhere.  (Not stated of a tree
    holding NaN or an infinity, which the JSON copy of a replay replaces by
    [null].) *)
Theorem edit_discards_run (t : TreeNode) (actions : list Action)
        (i : string) (u : TreeNodeUpdates) (gen : nat -> string)
        (ty : NodeType) (draws : nat) (sel : option string) :
  clearValues t = t ->
  let s := run actions (freshState t) in
  handleUpdateNode i u s = freshState (updateNodeInTree t i u) /\
  handleAddNode gen i ty s draws
  = (freshState (fst (addNodeToTree gen t i ty draws)),
     snd (addNodeToTree gen t i ty draws)) /\
  handleDeleteNode i (mkSession s sel draws)
  = mkSession (freshState (deleteNodeFromTree t i)) None draws.
Proof.
  intros Ht s. subst s. split; [|split].
  - now apply handleUpdateNode_run.
  - now apply handleAddNode_run.
  - now apply handleDeleteNode_run.
Qed.

(** ** The session *)

Lemma clearValues_applyUpdates t u :
  upd_children u = None -> upd_calculatedValue u = None ->
  upd_isOptimal u = None ->
  clearValues (applyUpdates t u) = applyUpdates (clearValues t) u.
Proof.
  intros Hc Hv Ho. rewrite (clearValues_eq (applyUpdates t u)).
  unfold applyUpdates. rewrite (clearValues_eq t).
  cbn [id type label value probability children collapsed calculatedValue
       isOptimal notes].
  now rewrite Hc, Hv, Ho.
Qed.

Lemma clearValues_id t : id (clearValues t) = id t.
Proof. now rewrite clearValues_eq. Qed.

Lemma clearValues_updateNodeInTree t i u :
  upd_children u = None -> upd_calculatedValue u = None ->
  upd_isOptimal u = None ->
  clearValues (updateNodeInTree t i u)
  = updateNodeInTree (clearValues t) i u.
Proof.
  intros Hc Hv Ho. induction t as [t IH] using TreeNode_nested_ind.
  rewrite (updateNodeInTree_eq t), (updateNodeInTree_eq (clearValues t)),
    clearValues_id.
  destruct (String.eqb (id t) i); [now apply clearValues_applyUpdates|].
  rewrite (clearValues_eq (with_children _ _)), (clearValues_eq t).
  unfold with_children.
  cbn [id type label value probability children collapsed calculatedValue
       isOptimal notes].
  f_equal. rewrite !map_map. apply map_ext_in.
  rewrite Forall_forall in IH. exact IH.
Qed.

Lemma clearValues_deleteNodeFromTree t i :
  clearValues (deleteNodeFromTree t i)
  = deleteNodeFromTree (clearValues t) i.
Proof.
  induction t as [t IH] using TreeNode_nested_ind.
  rewrite (deleteNodeFromTree_eq t), (deleteNodeFromTree_eq (clearValues t)).
  rewrite (clearValues_eq (with_children _ _)), (clearValues_eq t).
  unfold with_children.
  cbn [id type label value probability children collapsed calculatedValue
       isOptimal notes].
  f_equal.
  induction IH as [|c r Hc _ IHr]; [reflexivity|].
  cbn [map]. rewrite !deleteChildren_cons, clearValues_id.
  destruct (String.eqb (id c) i); cbn [negb map]; [exact IHr|].
  now rewrite Hc, IHr.
Qed.

Lemma clearValues_addNodeToTree gen pid ty t : forall d,
  addNodeToTree gen (clearValues t) pid ty d
  = (clearValues (fst (addNodeToTree gen t pid ty d)),
     snd (addNodeToTree gen t pid ty d)).
Proof.
  induction t as [t IH] using TreeNode_nested_ind. intros d.
  rewrite (addNodeToTree_eq gen t), (addNodeToTree_eq gen (clearValues t)),
    clearValues_id.
  destruct (String.eqb (id t) pid); cbn [fst snd].
  - f_equal. rewrite (clearValues_eq (with_children _ _)), (clearValues_eq t).
    unfold with_children.
    cbn [id type label value probability children collapsed calculatedValue
         isOptimal notes].
    f_equal. rewrite map_app. reflexivity.
  - assert (G : forall d',
      addNodeChildren gen pid ty (map clearValues (children t)) d'
      = (map clearValues (fst (addNodeChildren gen pid ty (children t) d')),
         snd (addNodeChildren gen pid ty (children t) d'))).
    { induction IH as [|c r Hc _ IHr]; intros d'; [reflexivity|].
      cbn [map]. rewrite !addNodeChildren_cons, Hc. cbn [fst snd].
      rewrite IHr. reflexivity. }
    assert (Hch : children (clearValues t) = map clearValues (children t)).
    { now rewrite clearValues_eq. }
    rewrite Hch, G. cbn [fst snd]. f_equal.
    rewrite (clearValues_eq (with_children _ _)), (clearValues_eq t).
    reflexivity.
Qed.

(** X19.  Reset commutes with the edits: clearing the derived fields and
    then updating a label, value or probability, deleting, or adding a node
    gives the same tree as editing first and clearing afterwards. *)
Theorem clearValues_commutes_with_edits (t : TreeNode) (i : string)
        (u : TreeNodeUpdates) (gen : nat -> string) (ty : NodeType)
        (draws : nat) :
  (upd_children u = None -> upd_calculatedValue u = None ->
   upd_isOptimal u = None ->
   updateNodeInTree (clearValues t) i u
   = clearValues (updateNodeInTree t i u)) /\
  deleteNodeFromTree (clearValues t) i
  = clearValues (deleteNodeFromTree t i) /\
  addNodeToTree gen (clearValues t) i ty draws
  = (clearValues (fst (addNodeToTree gen t i ty draws)),
     snd (addNodeToTree gen t i ty draws)).
Proof.
  split; [|split].
  - intros Hc Hv Ho. symmetry. now apply clearValues_updateNodeInTree.
  - symmetry. apply clearValues_deleteNodeFromTree.
  - apply clearValues_addNodeToTree.
Qed.

Lemma findNode_clearValues t : forall i,
  findNode (clearValues t) i = option_map clearValues (findNode t i).
Proof.
  induction t as [t IH] using TreeNode_nested_ind. intros i.
  rewrite (findNode_eq (clearValues t)), (findNode_eq t), clearValues_id.
  destruct (String.eqb (id t) i); [reflexivity|].
  replace (children (clearValues t)) with (map clearValues (children t))
    by now rewrite clearValues_eq.
  induction IH as [|c r Hc _ IHr]; [reflexivity|].
  simpl. rewrite Hc. destruct (findNode c i); [reflexivity | exact IHr].
Qed.

Lemma terminalsHaveValue_applyUpdates t u :
  fieldUpdate u ->
  terminalsHaveValue t = true -> terminalsHaveValue (applyUpdates t u) = true.
Proof.
  intros (_ & Hty & Hc & _ & _ & Hv).
  rewrite (terminalsHaveValue_eq (applyUpdates t u)), (terminalsHaveValue_eq t).
  unfold applyUpdates. cbn [type value children]. rewrite Hty, Hc.
  cbn [override]. rewrite !andb_true_iff. intros [H1 H2]. split; [|exact H2].
  destruct Hv as [->|[v ->]]; [exact H1|]. cbn [override isSome].
  apply orb_true_r.
Qed.

Lemma terminalsHaveValue_update t i u :
  fieldUpdate u ->
  terminalsHaveValue t = true ->
  terminalsHaveValue (updateNodeInTree t i u) = true.
Proof.
  intros Hu. induction t as [t IH] using TreeNode_nested_ind.
  rewrite updateNodeInTree_eq.
  destruct (String.eqb (id t) i); [now apply terminalsHaveValue_applyUpdates|].
  rewrite (terminalsHaveValue_eq (with_children _ _)), (terminalsHaveValue_eq t).
  cbn [with_children type value children].
  rewrite !andb_true_iff. intros [H1 H2]. split; [exact H1|].
  rewrite forallb_forall in *. intros x Hx.
  apply in_map_iff in Hx as (c & <- & Hc).
  rewrite Forall_forall in IH. apply (IH c Hc), H2, Hc.
Qed.

Lemma terminalsHaveValue_delete t i :
  terminalsHaveValue t = true ->
  terminalsHaveValue (deleteNodeFromTree t i) = true.
Proof.
  induction t as [t IH] using TreeNode_nested_ind.
  rewrite (terminalsHaveValue_eq (deleteNodeFromTree t i)),
    (terminalsHaveValue_eq t), deleteNodeFromTree_children.
  rewrite (deleteNodeFromTree_eq t i) at 1 2. cbn [with_children type value].
  rewrite !andb_true_iff. intros [H1 H2]. split; [exact H1|].
  rewrite forallb_forall in *. intros x Hx.
  apply in_deleteChildren in Hx as (c & Hc & _ & ->).
  rewrite Forall_forall in IH. apply (IH c Hc), H2, Hc.
Qed.

Lemma terminalsHaveValue_add gen pid ty t : forall d,
  terminalsHaveValue t = true ->
  terminalsHaveValue (fst (addNodeToTree gen t pid ty d)) = true.
Proof.
  induction t as [t IH] using TreeNode_nested_ind. intros d.
  rewrite addNodeToTree_eq, (terminalsHaveValue_eq t).
  rewrite andb_true_iff. intros [H1 H2].
  destruct (String.eqb (id t) pid); cbn [fst];
    rewrite (terminalsHaveValue_eq (with_children _ _));
    cbn [with_children type value children]; rewrite H1; cbn [andb].
  - rewrite forallb_app, H2. cbn [forallb andb].
    rewrite andb_true_r. now destruct ty.
  - generalize (S d). rewrite forallb_forall in H2.
    induction IH as [|c r Hc _ IHr]; intros d'; [reflexivity|].
    rewrite addNodeChildren_cons. cbn [fst forallb].
    rewrite Hc, IHr; auto.
    + intros x Hx. apply H2. now right.
    + apply H2. now left.
Qed.

Lemma treeIds_updateNth_perm f e k : forall cs c,
  nth_error cs k = Some c ->
  Permutation (treeIds (f c)) (e :: treeIds c) ->
  Permutation (flat_map treeIds (updateNth k f cs))
              (e :: flat_map treeIds cs).
Proof.
  induction k as [|k IH]; intros [|a r] c Hk Hp; try discriminate.
  - injection Hk as ->. cbn [updateNth flat_map].
    change (e :: treeIds c ++ flat_map treeIds r)
      with ((e :: treeIds c) ++ flat_map treeIds r).
    now apply Permutation_app_tail.
  - cbn [updateNth flat_map]. simpl in Hk.
    eapply perm_trans;
      [apply Permutation_app_head, (IH r c Hk Hp)|].
    symmetry. apply Permutation_middle.
Qed.

Lemma treeIds_appended c : forall p t n,
  children c = [] -> subtree t p = Some n ->
  Permutation (treeIds (updateAt (appendChild c) t p)) (id c :: treeIds t).
Proof.
  intros p t n Hc. revert t n.
  induction p as [|k q IH]; intros t n Hn.
  - cbn [updateAt]. unfold appendChild.
    rewrite (treeIds_eq (with_children _ _)), (treeIds_eq t).
    cbn [with_children id children].
    rewrite flat_map_app. cbn [flat_map]. rewrite (treeIds_eq c), Hc.
    cbn [flat_map app].
    eapply perm_trans; [|apply perm_swap]. constructor.
    symmetry. apply Permutation_cons_append.
  - cbn [updateAt]. simpl in Hn.
    destruct (nth_error (children t) k) as [a|] eqn:Hk; [|discriminate].
    rewrite (treeIds_eq (with_children _ _)), (treeIds_eq t).
    cbn [with_children id children].
    eapply perm_trans; [|apply perm_swap]. constructor.
    apply (treeIds_updateNth_perm _ (id c) k (children t) a Hk).
    exact (IH a n Hn).
Qed.

Lemma NoDup_gen_seq (gen : nat -> string) : forall n,
  NoDup (map gen (seq 0 n)) ->
  forall j k, (j < k < n)%nat -> gen j <> gen k.
Proof.
  induction n as [|n IH]; intros Hnd j k Hjk; [lia|].
  rewrite seq_S, map_app in Hnd. cbn [map Nat.add] in Hnd.
  destruct (Nat.eq_dec k n) as [->|Hne].
  - intros E. apply (NoDup_app_disjoint _ _ _ (gen j) Hnd).
    + apply in_map, in_seq. lia.
    + rewrite E. now left.
  - apply IH; [exact (NoDup_app_remove_r _ _ Hnd) | lia].
Qed.

Lemma freshDraws_facts gen n :
  freshDraws gen n = true ->
  (forall k, (k < n)%nat -> gen k <> "root"%string) /\
  (forall j k, (j < k < n)%nat -> gen j <> gen k).
Proof.
  intros H. apply distinct_NoDup in H. apply NoDup_cons_iff in H as [Hr Hn].
  split.
  - intros k Hk E. apply Hr. rewrite <- E. apply in_map, in_seq. lia.
  - now apply NoDup_gen_seq.
Qed.

Lemma selected_in_tree gen u t actions n :
  SessionInv gen u t actions ->
  selectedNode (root (sessionApp u)) (selectedNodeId u) = Some n ->
  findNode t (id n) = Some (clearValues n).
Proof.
  intros [Hrun Hclean _ _ _ _ _] Hsel. unfold selectedNode in Hsel.
  destruct (selectedNodeId u) as [i|]; [|discriminate].
  destruct (String.eqb i ""); [discriminate|].
  rewrite (findNode_id _ _ _ Hsel).
  assert (E : clearValues (root (sessionApp u)) = t).
  { rewrite Hrun, clearValues_run. exact Hclean. }
  rewrite <- E, findNode_clearValues, Hsel. reflexivity.
Qed.

Lemma updateNodeInTree_root t i u :
  fieldUpdate u ->
  id (updateNodeInTree t i u) = id t /\ type (updateNodeInTree t i u) = type t.
Proof.
  intros (Hid & Hty & _). rewrite updateNodeInTree_eq.
  destruct (String.eqb (id t) i); [|now split].
  unfold applyUpdates. cbn [id type]. now rewrite Hid, Hty.
Qed.

Lemma SessionInv_update gen u t actions i upd :
  fieldUpdate upd -> SessionInv gen u t actions ->
  SessionInv gen
    (mkSession (handleUpdateNode i upd (sessionApp u)) (selectedNodeId u)
               (idDraws u))
    (updateNodeInTree t i upd) [].
Proof.
  intros Hu [Hrun Hclean [Hrid Hrty] Hl Hv Hnd Hids].
  pose proof Hu as (Hid & Hty & Hc & Hcv & Hopt & _).
  destruct (updateNodeInTree_structure t i upd Hid Hc) as (Eids & _ & El).
  destruct (updateNodeInTree_root t i upd Hu) as [E1 E2].
  constructor; cbn [sessionApp idDraws].
  - rewrite Hrun. now apply handleUpdateNode_run.
  - now rewrite clearValues_updateNodeInTree, Hclean.
  - split; congruence.
  - now rewrite (El Hty).
  - now apply terminalsHaveValue_update.
  - now rewrite Eids.
  - now rewrite Eids.
Qed.

Lemma SessionInv_delete gen u t actions i :
  SessionInv gen u t actions ->
  SessionInv gen (handleDeleteNode i u) (deleteNodeFromTree t i) [].
Proof.
  intros [Hrun Hclean [Hrid Hrty] Hl Hv Hnd Hids].
  assert (E : handleDeleteNode i u
              = mkSession (freshState (deleteNodeFromTree t i)) None (idDraws u)).
  { destruct u as [s sel d]. cbn [sessionApp idDraws] in *. rewrite Hrun.
    now apply handleDeleteNode_run. }
  rewrite E. constructor; cbn [sessionApp idDraws].
  - reflexivity.
  - now rewrite clearValues_deleteNodeFromTree, Hclean.
  - now rewrite deleteNodeFromTree_eq.
  - now apply terminalsAreLeaves_delete.
  - now apply terminalsHaveValue_delete.
  - now apply NoDup_treeIds_delete.
  - intros x Hx. apply Hids. exact (treeIds_delete_incl t i x Hx).
Qed.

Lemma addNodeToTree_root gen t pid ty d :
  id (fst (addNodeToTree gen t pid ty d)) = id t /\
  type (fst (addNodeToTree gen t pid ty d)) = type t.
Proof.
  rewrite addNodeToTree_eq. now destruct (String.eqb (id t) pid).
Qed.

Lemma SessionInv_add gen u t actions n ty :
  SessionInv gen u t actions ->
  findNode t (id n) = Some (clearValues n) -> type n <> TERMINAL ->
  freshDraws gen (snd (addNodeToTree gen t (id n) ty (idDraws u))) = true ->
  SessionInv gen
    (mkSession (freshState (fst (addNodeToTree gen t (id n) ty (idDraws u))))
               (selectedNodeId u)
               (snd (addNodeToTree gen t (id n) ty (idDraws u))))
    (fst (addNodeToTree gen t (id n) ty (idDraws u))) [].
Proof.
  intros [Hrun Hclean [Hrid Hrty] Hl Hv Hnd Hids] Hf Hty Hfresh.
  destruct (freshDraws_facts _ _ Hfresh) as [Hroot Hinj].
  destruct (addNodeToTree_at gen ty (id n) t (idDraws u) _ Hnd Hf)
    as (p & k & Hk & Hp & Heq).
  assert (Hnew : ~ In (gen k) (treeIds t)).
  { intros Hin. destruct (Hids _ Hin) as [E|(j & Hj & E)].
    - apply (Hroot k); [lia | exact E].
    - apply (Hinj j k); [lia | now symmetry]. }
  pose proof (treeIds_appended (newNode (gen k) ty) p t _ eq_refl Hp) as Hperm.
  rewrite <- Heq in Hperm. cbn [newNode id] in Hperm.
  destruct (addNodeToTree_root gen t (id n) ty (idDraws u)) as [E1 E2].
  constructor; cbn [sessionApp idDraws].
  - reflexivity.
  - pose proof (clearValues_addNodeToTree gen (id n) ty t (idDraws u)) as E.
    rewrite Hclean in E.
    exact (eq_sym (f_equal fst E)).
  - split; congruence.
  - apply addNodeToTree_keeps_leaves; [|exact Hl].
    apply (findNode_only t (id n) (clearValues n) Hnd Hf).
    now rewrite clearValues_eq.
  - now apply terminalsHaveValue_add.
  - apply (Permutation_NoDup (Permutation_sym Hperm)).
    now constructor.
  - intros x Hx. apply (Permutation_in _ Hperm) in Hx.
    destruct Hx as [<-|Hx].
    + right. exists k. split; [lia | reflexivity].
    + destruct (Hids x Hx) as [E|(j & Hj & E)]; [now left|].
      right. exists j. split; [lia | exact E].
Qed.

Lemma run_snoc actions a s : run (actions ++ [a]) s = perform a (run actions s).
Proof. unfold run. now rewrite fold_left_app. Qed.

Lemma handleEvent_draws gen e u :
  (idDraws u <= idDraws (handleEvent gen e u))%nat.
Proof.
  unfold handleEvent.
  destruct e; cbn [idDraws]; try lia;
    destruct (selectedNode (root (sessionApp u)) (selectedNodeId u)) as [n|];
    cbn [idDraws]; try lia.
  - destruct (NodeType_eqb (type n) TERMINAL); cbn [idDraws]; lia.
  - destruct (negb (NodeType_eqb (type n) DECISION)
              && negb (String.eqb (id n) "root")); cbn [idDraws]; lia.
  - destruct (negb (NodeType_eqb (type n) TERMINAL)); [|lia].
    unfold handleAddNode.
    set (s1 := if match calculationMode (sessionApp u) with
                  | EditMode => false | _ => true end
               then resetCalculation (sessionApp u) else sessionApp u).
    pose proof (addNodeToTree_draws gen ty (id n) (root s1) (idDraws u)).
    destruct (addNodeToTree gen (root s1) (id n) ty (idDraws u)).
    cbn [idDraws snd] in *. lia.
  - destruct (String.eqb (id n) "root"); [lia|].
    unfold handleDeleteNode. cbn [idDraws]. lia.
Qed.

Lemma fieldUpdate_label l : fieldUpdate (labelUpdate l).
Proof. unfold fieldUpdate. cbn. tauto. Qed.

Lemma fieldUpdate_value v : fieldUpdate (valueUpdate v).
Proof. unfold fieldUpdate. cbn. repeat split; eauto. Qed.

Lemma fieldUpdate_probability p : fieldUpdate (probabilityUpdate p).
Proof. unfold fieldUpdate. cbn. tauto. Qed.

Lemma SessionInv_same gen u u' t actions :
  sessionApp u' = sessionApp u -> idDraws u' = idDraws u ->
  SessionInv gen u t actions -> SessionInv gen u' t actions.
Proof.
  intros Ea Ed [Hrun Hclean Hr Hl Hv Hnd Hids].
  constructor; auto; [congruence|]. now rewrite Ed.
Qed.

Lemma handleEvent_SessionInv gen e u t actions :
  SessionInv gen u t actions ->
  freshDraws gen (idDraws (handleEvent gen e u)) = true ->
  exists t' actions', SessionInv gen (handleEvent gen e u) t' actions'.
Proof.
  intros Hinv Hfresh. unfold handleEvent in *.
  destruct e.
  - exists t, actions.
    refine (SessionInv_same gen u _ t actions _ _ Hinv); reflexivity.
  - exists t, actions.
    refine (SessionInv_same gen u _ t actions _ _ Hinv); reflexivity.
  - destruct (selectedNode _ _) as [n|]; [|eauto].
    eexists _, _.
    apply (SessionInv_update gen u t actions);
      [apply fieldUpdate_label | exact Hinv].
  - destruct (selectedNode _ _) as [n|]; [|eauto].
    destruct (NodeType_eqb (type n) TERMINAL); [|eauto].
    eexists _, _.
    apply (SessionInv_update gen u t actions);
      [apply fieldUpdate_value | exact Hinv].
  - destruct (selectedNode _ _) as [n|]; [|eauto].
    destruct (negb (NodeType_eqb (type n) DECISION)
              && negb (String.eqb (id n) "root")); [|eauto].
    eexists _, _.
    apply (SessionInv_update gen u t actions);
      [apply fieldUpdate_probability | exact Hinv].
  - destruct (selectedNode _ _) as [n|] eqn:Hsel; [|eauto].
    destruct (NodeType_eqb (type n) TERMINAL) eqn:Hty; cbn [negb] in *;
      [eauto|].
    apply NodeType_eqb_neq in Hty.
    pose proof (selected_in_tree gen u t actions n Hinv Hsel) as Hf.
    rewrite (si_run _ _ _ _ Hinv) in *.
    rewrite (handleAddNode_run t actions gen (id n) ty (idDraws u)
               (si_clean _ _ _ _ Hinv)) in *.
    cbn [idDraws] in Hfresh.
    eexists _, _. apply (SessionInv_add gen u t actions n ty); eauto.
  - destruct (selectedNode _ _) as [n|]; [|eauto].
    destruct (String.eqb (id n) "root"); [eauto|].
    eexists _, _. apply (SessionInv_delete gen u t actions). exact Hinv.
  - exists t, (actions ++ [a]).
    destruct Hinv as [Hrun Hclean Hr Hl Hv Hnd Hids].
    constructor; auto. cbn [sessionApp]. now rewrite run_snoc, Hrun.
Qed.

Lemma freshDraws_le gen n m :
  (n <= m)%nat -> freshDraws gen m = true -> freshDraws gen n = true.
Proof.
  intros Hle H. apply distinct_NoDup in H. apply NoDup_cons_iff in H as [Hr Hn].
  apply NoDup_distinct.
  replace m with (n + (m - n))%nat in Hr, Hn by lia.
  rewrite seq_app, map_app in Hr, Hn. constructor.
  - intros Hin. apply Hr. apply in_or_app. now left.
  - exact (NoDup_app_remove_r _ _ Hn).
Qed.

Lemma fold_handleEvent_draws gen events : forall u,
  (idDraws u <= idDraws (fold_left (fun u e => handleEvent gen e u) events u))%nat.
Proof.
  induction events as [|e es IH]; intros u; [simpl; lia|].
  simpl. pose proof (handleEvent_draws gen e u).
  specialize (IH (handleEvent gen e u)). lia.
Qed.

Lemma fold_handleEvent_SessionInv gen events : forall u t actions,
  SessionInv gen u t actions ->
  freshDraws gen
    (idDraws (fold_left (fun u e => handleEvent gen e u) events u)) = true ->
  exists t' actions',
    SessionInv gen (fold_left (fun u e => handleEvent gen e u) events u)
               t' actions'.
Proof.
  induction events as [|e es IH]; intros u t actions Hinv Hfresh; [eauto|].
  simpl in *.
  destruct (handleEvent_SessionInv gen e u t actions Hinv) as (t1 & a1 & H1).
  - eapply freshDraws_le; [|exact Hfresh]. apply fold_handleEvent_draws.
  - exact (IH _ t1 a1 H1 Hfresh).
Qed.

Lemma initialSession_SessionInv gen :
  freshDraws gen 9 = true ->
  SessionInv gen (initialSession gen) (fst (createInitialTree gen 0)) [].
Proof.
  intros H. destruct (freshDraws_facts _ _ H) as [Hroot Hinj].
  constructor; try reflexivity.
  - now split.
  - cbn. repeat (constructor;
      [cbn; intros Hin;
       repeat match goal with
              | Hd : _ \/ _ |- _ => destruct Hd
              | Hf : False |- _ => destruct Hf
              | He : "root"%string = gen ?k |- _ =>
                  exact (Hroot k ltac:(lia) (eq_sym He))
              | He : gen ?k = "root"%string |- _ =>
                  exact (Hroot k ltac:(lia) He)
              | He : gen ?a = gen ?b |- _ =>
                  first [ exact (Hinj a b ltac:(lia) He)
                        | exact (Hinj b a ltac:(lia) (eq_sym He)) ]
              end|]).
    constructor.
  - cbn. intros i Hin.
    repeat match goal with
           | Hd : _ \/ _ |- _ => destruct Hd as [<-|Hd]
           | Hf : False |- _ => destruct Hf
           end;
      first [ now left
            | right; eexists; split; [|reflexivity]; cbn; lia ].
Qed.

Lemma clearValues_fixed_unevaluated t :
  clearValues t = t -> unevaluated t = true.
Proof.
  induction t as [t IH] using TreeNode_nested_ind. intros H.
  rewrite unevaluated_eq. rewrite clearValues_eq in H.
  assert (Hcv : calculatedValue t = None).
  { rewrite <- H. reflexivity. }
  assert (Hcs : map clearValues (children t) = children t).
  { rewrite <- H at 2. reflexivity. }
  rewrite Hcv. cbn [isSome negb andb].
  apply forallb_forall. intros c Hc.
  rewrite Forall_forall in IH. apply (IH c Hc).
  clear - Hcs Hc. induction (children t) as [|a r IHr]; [destruct Hc|].
  simpl in Hcs. injection Hcs as Ha Hr.
  destruct Hc as [<-|Hc]; auto.
Qed.

(** X20.  The invariants of a session in which every change of a value or
    probability field types a number.  Whatever else the user does, as long
    as the ids drawn are different from each other and from 'root', the
    state of the application is a state of an evaluation run over a tree in
    which the root is the DECISION node 'root', all ids are different,
    TERMINAL nodes are leaves and carry a value, and nothing is evaluated:
    the assumptions of the properties of a run hold at all times.  (A
    session in which a number field is emptied stores NaN and is not among
    the sessions of [UserEvent].) *)
Theorem session_invariants (gen : nat -> string) (events : list UserEvent) :
  freshDraws gen (idDraws (session gen events)) = true ->
  exists t actions,
    sessionApp (session gen events) = run actions (freshState t) /\
    id t = "root"%string /\ type t = DECISION /\
    uniqueIds t = true /\ terminalsAreLeaves t = true /\
    terminalsHaveValue t = true /\ unevaluated t = true.
Proof.
  intros Hfresh. unfold session in *.
  assert (H9 : freshDraws gen 9 = true).
  { eapply freshDraws_le; [|exact Hfresh].
    exact (fold_handleEvent_draws gen events (initialSession gen)). }
  destruct (fold_handleEvent_SessionInv gen events _ _ _
              (initialSession_SessionInv gen H9) Hfresh)
    as (t & actions & [Hrun Hclean [Hrid Hrty] Hl Hv Hnd Hids]).
  exists t, actions. repeat split; auto.
  - now apply NoDup_distinct.
  - now apply clearValues_fixed_unevaluated.
Qed.

Lemma clearValues_type t : type (clearValues t) = type t.
Proof. now rewrite clearValues_eq. Qed.

Lemma perform_root a s :
  id (root (perform a s)) = id (root s) /\
  type (root (perform a s)) = type (root s).
Proof.
  pose proof (clearValues_perform a s) as H. split.
  - apply (f_equal id) in H. now rewrite !clearValues_id in H.
  - apply (f_equal type) in H. now rewrite !clearValues_type in H.
Qed.

Lemma edit_base_root s :
  id (root (if match calculationMode s with EditMode => false | _ => true end
            then resetCalculation s else s)) = id (root s) /\
  type (root (if match calculationMode s with EditMode => false | _ => true end
              then resetCalculation s else s)) = type (root s).
Proof.
  destruct (calculationMode s); cbn [resetCalculation root];
    now rewrite ?clearValues_id, ?clearValues_type.
Qed.

Lemma handleUpdateNode_root i upd s :
  fieldUpdate upd ->
  id (root (handleUpdateNode i upd s)) = id (root s) /\
  type (root (handleUpdateNode i upd s)) = type (root s).
Proof.
  intros Hu. unfold handleUpdateNode. cbn [root].
  destruct (updateNodeInTree_root
              (root (if match calculationMode s with
                        | EditMode => false | _ => true end
                     then resetCalculation s else s)) i upd Hu) as [-> ->].
  apply edit_base_root.
Qed.

Lemma handleEvent_root gen e u :
  id (root (sessionApp (handleEvent gen e u))) = id (root (sessionApp u)) /\
  type (root (sessionApp (handleEvent gen e u))) = type (root (sessionApp u)).
Proof.
  unfold handleEvent.
  destruct e; cbn [sessionApp]; auto using perform_root;
    destruct (selectedNode (root (sessionApp u)) (selectedNodeId u)) as [n|];
    auto.
  - apply handleUpdateNode_root, fieldUpdate_label.
  - destruct (NodeType_eqb (type n) TERMINAL); auto.
    apply handleUpdateNode_root, fieldUpdate_value.
  - destruct (negb (NodeType_eqb (type n) DECISION)
              && negb (String.eqb (id n) "root")); auto.
    apply handleUpdateNode_root, fieldUpdate_probability.
  - destruct (negb (NodeType_eqb (type n) TERMINAL)); auto.
    unfold handleAddNode.
    set (s1 := if match calculationMode (sessionApp u) with
                  | EditMode => false | _ => true end
               then resetCalculation (sessionApp u) else sessionApp u).
    destruct (addNodeToTree_root gen (root s1) (id n) ty (idDraws u))
      as [E1 E2].
    destruct (addNodeToTree gen (root s1) (id n) ty (idDraws u)) as [r d].
    cbn [sessionApp root fst] in *. rewrite E1, E2.
    apply edit_base_root.
  - destruct (String.eqb (id n) "root"); auto.
    unfold handleDeleteNode. cbn [sessionApp root].
    rewrite deleteNodeFromTree_eq. cbn [with_children id type].
    apply edit_base_root.
Qed.

(** X21.  The root is permanent: after any sequence of events the root of
    the tree is still the node named 'root', and it is still a DECISION
    node; no event deletes, renames or retypes it. *)
Theorem root_is_permanent (gen : nat -> string) (events : list UserEvent) :
  id (root (sessionApp (session gen events))) = "root"%string /\
  type (root (sessionApp (session gen events))) = DECISION.
Proof.
  unfold session.
  assert (H0 : id (root (sessionApp (initialSession gen))) = "root"%string /\
               type (root (sessionApp (initialSession gen))) = DECISION)
    by (split; reflexivity).
  revert H0. generalize (initialSession gen).
  induction events as [|e es IH]; intros u Hu; [exact Hu|].
  simpl. apply IH.
  destruct (handleEvent_root gen e u) as [-> ->]. exact Hu.
Qed.

(** ** Zoom and pan *)

Lemma Qmin2_le_r a b : Qmin2 a b <= b.
Proof.
  unfold Qmin2. destruct (Qle_bool a b) eqn:E.
  - now apply Qle_bool_iff.
  - apply Qle_refl.
Qed.

Lemma Qmin2_ge a b c : c <= a -> c <= b -> c <= Qmin2 a b.
Proof. intros Ha Hb. unfold Qmin2. now destruct (Qle_bool a b). Qed.

Lemma handleWheel_range deltaY v :
  1 # 10 <= tr_k (transform (handleWheel deltaY v)) /\
  tr_k (transform (handleWheel deltaY v)) <= 5.
Proof.
  unfold handleWheel. cbn [transform tr_k]. split.
  - apply Qmin2_ge; [apply Qmax2_ge_r | discriminate].
  - apply Qmin2_le_r.
Qed.

(** X23.  The zoom stays in range: whatever mouse and wheel events the
    canvas receives, the scale stays between 0.1 and 5; only the wheel
    changes it, and the wheel does not move the tree. *)
Theorem zoom_stays_in_range (events : list CanvasEvent) :
  let v := fold_left (fun v e => handleCanvasEvent e v) events initialView in
  (1 # 10 <= tr_k (transform v) /\ tr_k (transform v) <= 5) /\
  (forall e, (forall d, e <> Wheel d) ->
             tr_k (transform (handleCanvasEvent e v)) = tr_k (transform v)) /\
  (forall d, tr_x (transform (handleWheel d v)) = tr_x (transform v) /\
             tr_y (transform (handleWheel d v)) = tr_y (transform v)).
Proof.
  intros v. split; [|split].
  - subst v.
    assert (H0 : 1 # 10 <= tr_k (transform initialView) /\
                 tr_k (transform initialView) <= 5)
      by (split; discriminate).
    revert H0. generalize initialView.
    induction events as [|e es IH]; intros v Hv; [exact Hv|].
    simpl. apply IH.
    destruct e; cbn [handleCanvasEvent]; try exact Hv.
    + unfold handleMouseMove. now destruct (negb (isDragging v)).
    + apply handleWheel_range.
  - intros e He. destruct e; cbn [handleCanvasEvent]; try reflexivity.
    + unfold handleMouseMove. now destruct (negb (isDragging v)).
    + now elim (He deltaY).
  - intros d. now split.
Qed.

Lemma last_cons_default A (l : list A) : forall a d,
  last (a :: l) d = last l a.
Proof.
  induction l as [|b l IH]; intros a d; [reflexivity|].
  change (last (a :: b :: l) d) with (last (b :: l) d).
  now rewrite (IH b d), (IH b a).
Qed.

(** X24.  A drag pans by the displacement of the mouse: after the button
    goes down at a point and the mouse moves through any number of points,
    the tree has moved by the difference between the last point and the
    first, whatever the points in between; the scale is unchanged. *)
Theorem drag_pans_by_displacement (v : View) (x0 y0 : Q)
        (moves : list (Q * Q)) :
  let v' := fold_left (fun v m => handleMouseMove (fst m) (snd m) v) moves
                      (handleMouseDown x0 y0 v) in
  tr_x (transform v')
  == tr_x (transform v) + (fst (last moves (x0, y0)) - x0) /\
  tr_y (transform v')
  == tr_y (transform v) + (snd (last moves (x0, y0)) - y0) /\
  tr_k (transform v') = tr_k (transform v).
Proof.
  intros v'. subst v'.
  assert (G : forall ms w,
    isDragging w = true ->
    let w' := fold_left (fun v m => handleMouseMove (fst m) (snd m) v) ms w in
    tr_x (transform w')
    == tr_x (transform w) + (fst (last ms (lastMouse w)) - fst (lastMouse w)) /\
    tr_y (transform w')
    == tr_y (transform w) + (snd (last ms (lastMouse w)) - snd (lastMouse w)) /\
    tr_k (transform w') = tr_k (transform w)).
  { induction ms as [|m ms IH]; intros w Hw.
    - simpl. repeat split; ring.
    - destruct m as [mx my]. cbn [fold_left].
      set (m := (mx, my)).
      assert (E : handleMouseMove (fst m) (snd m) w
                  = mkView (mkTransform
                              (tr_x (transform w) + (fst m - fst (lastMouse w)))
                              (tr_y (transform w) + (snd m - snd (lastMouse w)))
                              (tr_k (transform w)))
                           true (fst m, snd m)).
      { unfold handleMouseMove. now rewrite Hw. }
      rewrite E.
      destruct (IH (mkView (mkTransform
                              (tr_x (transform w) + (fst m - fst (lastMouse w)))
                              (tr_y (transform w) + (snd m - snd (lastMouse w)))
                              (tr_k (transform w)))
                           true (fst m, snd m)) eq_refl) as (Ix & Iy & Ik).
      cbn [transform tr_x tr_y tr_k lastMouse fst snd] in Ix, Iy, Ik.
      rewrite (last_cons_default _ ms m (lastMouse w)).
      change (fst m, snd m) with m in Ix, Iy.
      split; [|split].
      + eapply Qeq_trans; [exact Ix|]. ring.
      + eapply Qeq_trans; [exact Iy|]. ring.
      + exact Ik. }
  exact (G moves (handleMouseDown x0 y0 v) eq_refl).
Qed.

(** ** What the canvas draws *)

Lemma renderLinks_eq l :
  renderLinks l
  = flat_map (fun c => linkTo l c :: renderLinks c) (layoutChildren l).
Proof.
  assert (G : forall node cs,
             linksEach node cs
             = flat_map (fun c => linkTo node c :: renderLinks c) cs).
  { intros node cs. induction cs as [|c r IH]; [reflexivity|].
    cbn [flat_map linksEach]. now rewrite <- IH. }
  rewrite <- G. destruct l; reflexivity.
Qed.

Lemma renderNodes_eq sel sv l :
  renderNodes sel sv l
  = nodeView sel sv l :: flat_map (renderNodes sel sv) (layoutChildren l).
Proof. destruct l; reflexivity. Qed.

Lemma layoutNodes_eq l :
  layoutNodes l = l :: flat_map layoutNodes (layoutChildren l).
Proof. destruct l; reflexivity. Qed.

Lemma renderNodes_map sel sv l :
  renderNodes sel sv l = map (nodeView sel sv) (layoutNodes l).
Proof.
  induction l as [l IH] using LayoutNode_nested_ind.
  rewrite renderNodes_eq, layoutNodes_eq. cbn [map]. f_equal.
  induction IH as [|c r Hc _ IHr]; [reflexivity|].
  cbn [flat_map]. now rewrite map_app, Hc, IHr.
Qed.

Lemma renderLinks_length l :
  (List.length (renderLinks l) + 1 = List.length (layoutNodes l))%nat.
Proof.
  induction l as [l IH] using LayoutNode_nested_ind.
  rewrite renderLinks_eq, layoutNodes_eq. cbn [List.length].
  induction IH as [|c r Hc _ IHr]; [reflexivity|].
  cbn [flat_map]. rewrite !length_app. cbn [List.length]. lia.
Qed.

Lemma layoutNodes_data t : forall depth nextY,
  map data (layoutNodes (fst (calculateLayout t depth nextY))) = treeNodes t.
Proof.
  induction t as [t IH] using TreeNode_nested_ind. intros depth nextY.
  rewrite layoutNodes_eq, treeNodes_eq, layoutChildren_calculateLayout.
  cbn [map]. rewrite (proj1 (calculateLayout_data t depth nextY)). f_equal.
  generalize nextY.
  induction IH as [|c r Hc _ IHr]; intros y0; [reflexivity|].
  rewrite layoutEach_cons. cbn [fst flat_map].
  now rewrite map_app, Hc, IHr.
Qed.

Lemma depthQ_S d : depthQ (S d) == depthQ d + 1.
Proof.
  unfold depthQ. rewrite Nat2Z.inj_succ, <- Z.add_1_r, inject_Z_plus.
  reflexivity.
Qed.

Lemma renderLinks_span t : forall depth nextY,
  Forall (fun k => fst (p2 k) - fst (p1 k) == 240 /\
                   fst (control1 k) == fst (p1 k) + 140 /\
                   fst (control2 k) == fst (p2 k) - 140)
         (renderLinks (fst (calculateLayout t depth nextY))).
Proof.
  induction t as [t IH] using TreeNode_nested_ind. intros depth nextY.
  rewrite renderLinks_eq, layoutChildren_calculateLayout.
  pose proof (proj2 (calculateLayout_data t depth nextY)) as Hx.
  set (L := fst (calculateLayout t depth nextY)) in *.
  generalize nextY.
  induction IH as [|c r Hc _ IHr]; intros y0; [constructor|].
  rewrite layoutEach_cons. cbn [fst flat_map].
  apply Forall_app. split; [|apply IHr].
  constructor; [|apply Hc].
  unfold linkTo. cbn [p1 p2 control1 control2 fst snd].
  rewrite Hx, (proj2 (calculateLayout_data c (S depth) y0)).
  unfold HORIZONTAL_SPACING. pose proof (depthQ_S depth) as Hd.
  repeat split; try (rewrite Hd; field); field.
Qed.

(** X25.  The connectors: the canvas draws one connector per node other than
    the root, and every connector spans 240 units horizontally, from 20
    right of the parent to 20 left of the child, with its control points
    140 inside either end. *)
Theorem renderLinks_connectors (t : TreeNode) :
  (List.length (renderLinks (layoutTree t)) + 1
   = List.length (treeNodes t))%nat /\
  Forall (fun k => fst (p2 k) - fst (p1 k) == 240 /\
                   fst (control1 k) == fst (p1 k) + 140 /\
                   fst (control2 k) == fst (p2 k) - 140)
         (renderLinks (layoutTree t)).
Proof.
  split.
  - rewrite renderLinks_length. unfold layoutTree.
    now rewrite <- (layoutNodes_data t 0 0), length_map.
  - apply renderLinks_span.
Qed.

Lemma canvasNodes_map s sel :
  canvasNodes s sel
  = map (nodeView sel (match calculationMode s with
                       | EditMode => false | _ => true end))
        (layoutNodes (layoutTree (root s))).
Proof. apply renderNodes_map. Qed.

Lemma treeIds_treeNodes t : treeIds t = map id (treeNodes t).
Proof.
  induction t as [t IH] using TreeNode_nested_ind.
  rewrite treeNodes_eq, treeIds_eq. cbn [map]. f_equal.
  induction IH as [|c r Hc _ IHr]; [reflexivity|].
  cbn [flat_map]. now rewrite map_app, Hc, IHr.
Qed.

(** X26.  The nodes: the canvas draws one element per node of the tree, in
    the order "node, then its children left to right", keyed by the node's
    id and showing its type and label; with unique ids no key occurs
    twice. *)
Theorem renderNodes_elements (s : AppState) (selectedId : option string) :
  map (fun v => (nodeKey v, shape v, labelText v)) (canvasNodes s selectedId)
  = map (fun n => (id n, type n, label n)) (treeNodes (root s)) /\
  (uniqueIds (root s) = true ->
   NoDup (map nodeKey (canvasNodes s selectedId))).
Proof.
  split.
  - rewrite canvasNodes_map, map_map. unfold layoutTree.
    rewrite <- (layoutNodes_data (root s) 0 0), map_map. reflexivity.
  - intros Hu. apply distinct_NoDup in Hu.
    rewrite canvasNodes_map, map_map. unfold layoutTree.
    rewrite treeIds_treeNodes, <- (layoutNodes_data (root s) 0 0), map_map
      in Hu.
    exact Hu.
Qed.

(** ** The canvas in the Solved state *)

Lemma in_treeNodes_subtree t : forall n,
  In n (treeNodes t) -> exists p, subtree t p = Some n.
Proof.
  induction t as [t IH] using TreeNode_nested_ind. intros n.
  rewrite treeNodes_eq. intros [<-|Hin]; [now exists []|].
  apply in_flat_map in Hin as (c & Hc & Hn).
  rewrite Forall_forall in IH. destruct (IH c Hc n Hn) as (p & Hp).
  destruct (In_nth_error _ _ Hc) as (k & Hk).
  exists (k :: p). simpl. now rewrite Hk.
Qed.

Lemma isOptimal_stepCalculate node here st :
  isOptimal (fst (stepCalculate here node st)) = isOptimal node.
Proof.
  rewrite stepCalculate_eq. destruct (calculatedValue node); [reflexivity|].
  destruct (NodeType_eqb (type node) TERMINAL); [reflexivity|].
  destruct (stepChildren here 0 (children node) st) as [cs st1]. cbv zeta.
  now destruct (forallb _ cs && negb (fst st1)).
Qed.

Lemma isOptimal_assign t p v :
  isOptimal (assignCalculatedValue t p v) = isOptimal t.
Proof. now destruct p. Qed.

Lemma isOptimal_clearValuesAuto t :
  isOptimal (clearValuesAuto t) <> Some false \/
  isOptimal (clearValuesAuto t) = isOptimal t.
Proof.
  destruct t as [i ty l v pr cs co cv io no]. simpl.
  destruct (NodeType_eqb ty TERMINAL); simpl; [now right | left; discriminate].
Qed.

Lemma isOptimal_visitStep p r r' :
  visitStep p r r' ->
  isOptimal (workingRoot r) <> Some false /\
  isOptimal (root (app r)) <> Some false ->
  isOptimal (workingRoot r') <> Some false /\
  isOptimal (root (app r')) <> Some false.
Proof.
  intros Hstep [Hw Ha].
  destruct Hstep as [Hnone | n Hn Hty | n Hn Hty Hcv | n Hn Hty Hcv]; auto.
  - unfold afterTerminal. cbn [workingRoot app].
    now rewrite isOptimal_assign.
  - unfold afterEvaluation. cbn [workingRoot app root].
    now rewrite isOptimal_assign.
Qed.

Lemma isOptimal_perform a s :
  isOptimal (root s) <> Some false ->
  isOptimal (root (perform a s)) <> Some false.
Proof.
  intros H. destruct a; cbn [perform].
  - unfold handleSolveStep.
    pose proof (isOptimal_stepCalculate (root s) [] (false, logs s)) as E.
    destruct (stepCalculate [] (root s) (false, logs s)) as [nr [found l]].
    cbn [fst] in E. destruct found; cbn [root];
      rewrite ?markOptimalPath_isOptimal; congruence.
  - unfold handleSolveAuto.
    assert (H0 : isOptimal (workingRoot (autoEntry s)) <> Some false /\
                 isOptimal (root (app (autoEntry s))) <> Some false).
    { unfold autoEntry. destruct (calculationMode s);
        cbn [workingRoot app root]; auto;
        destruct (isOptimal_clearValuesAuto (root s)) as [E|E];
        split; congruence. }
    pose proof (autoLoop_invariant cancelAt
                  (postOrderPaths (workingRoot (autoEntry s)))
                  (fun _ r =>
                     isOptimal (workingRoot r) <> Some false /\
                     isOptimal (root (app r)) <> Some false)
                  (fun visited p rest r r' _ HI Hstep =>
                     isOptimal_visitStep p r r' Hstep HI)
                  (postOrderPaths (workingRoot (autoEntry s))) []
                  (autoEntry s) eq_refl H0) as Hloop.
    destruct (autoLoop cancelAt (postOrderPaths (workingRoot (autoEntry s)))
                (autoEntry s)) as [r|r].
    + destruct Hloop as [Hw Ha]. destruct (aborted cancelAt r); [exact Ha|].
      cbn [app root]. now rewrite markOptimalPath_isOptimal.
    + destruct Hloop as (visited & r'' & [_ Ha] & _ & ->). exact Ha.
  - cbn [resetCalculation root]. rewrite clearValues_eq. discriminate.
Qed.

Lemma isOptimal_run actions : forall s,
  isOptimal (root s) <> Some false ->
  isOptimal (root (run actions s)) <> Some false.
Proof.
  induction actions as [|a actions IH]; intros s H; [exact H|].
  simpl. now apply IH, isOptimal_perform.
Qed.

(** In a marked, fully evaluated tree a DECISION root with children has a
    child flagged as optimal. *)
Lemma marked_root_has_optimal_child w :
  fullyEvaluated (markOptimalPath w) ->
  type w = DECISION -> children w <> [] ->
  exists c, In c (children (markOptimalPath w)) /\ isOptimal c = Some true.
Proof.
  intros Hfe Hty Hne.
  destruct (Hfe [] _ eq_refl) as (_ & _ & Hemv).
  rewrite markOptimalPath_type in Hemv.
  specialize (Hemv ltac:(congruence)).
  assert (Hch : children (markOptimalPath w) = map (markedChild w) (children w)).
  { apply markOptimalPath_children. congruence. }
  assert (HtyM : type (markOptimalPath w) = DECISION)
    by now rewrite markOptimalPath_type.
  destruct (calculateNodeEMV_decision _ HtyM) as (_ & Hmax).
  destruct Hmax as ((c & Hin & Hc) & _).
  { rewrite Hch. now destruct (children w). }
  exists c. split; [exact Hin|].
  assert (Hcv : calculatedValue c <> None).
  { destruct (In_nth_error _ _ Hin) as (k & Hk).
    apply (Hfe [k] c). simpl. now rewrite Hk. }
  rewrite Hch in Hin. apply in_map_iff in Hin as (c0 & <- & _).
  rewrite markOptimalPath_calculatedValue in Hemv.
  unfold markedChild in *.
  assert (E1 : NodeType_eqb (type w) DECISION = true)
    by now apply NodeType_eqb_eq.
  rewrite E1, Hemv in *. cbn [with_isOptimal isOptimal calculatedValue] in *.
  rewrite markOptimalPath_calculatedValue in *.
  destruct (calculatedValue c0) as [v|]; [|congruence].
  cbn [orElse] in Hc. rewrite <- Hc. now rewrite withinTolerance_self.
Qed.

(** X27.  The canvas in the Solved state of a run over a tree whose values
    and probabilities are finite numbers: every node is drawn with a value
    line, a TERMINAL node with its value and any other node with its EMV;
    and when the root is a DECISION node with children that was not flagged
    as not optimal, at least one connector is drawn as part of the optimal
    path.  (Not stated of a tree holding NaN, where no child passes the
    tolerance test.) *)
Theorem solved_canvas (t : TreeNode) (actions : list Action)
        (selectedId : option string) :
  terminalsAreLeaves t = true -> unevaluated t = true ->
  terminalsHaveValue t = true ->
  calculationMode (run actions (freshState t)) = AutoMode ->
  let s := run actions (freshState t) in
  Forall (fun v => valueLine v <> NoValue) (canvasNodes s selectedId) /\
  (type (root s) = DECISION -> children (root s) <> [] ->
   isOptimal t <> Some false ->
   exists k, In k (canvasLinks s) /\ isOptimalPath k = true).
Proof.
  intros Hwf Hu Hhv Hmode s.
  pose proof (run_fullyEvaluated t actions Hwf Hu Hhv Hmode) as Hfe.
  fold s in Hfe, Hmode. split.
  - rewrite canvasNodes_map, Hmode. apply Forall_forall. intros v Hv.
    apply in_map_iff in Hv as (l & <- & Hl).
    assert (Hd : In (data l) (treeNodes (root s))).
    { unfold layoutTree in Hl.
      rewrite <- (layoutNodes_data (root s) 0 0). now apply in_map. }
    destruct (in_treeNodes_subtree _ _ Hd) as (p & Hp).
    destruct (Hfe p _ Hp) as (Hcv & _).
    unfold nodeView. cbn [valueLine orb].
    destruct (NodeType_eqb (type (data l)) TERMINAL); [discriminate|].
    destruct (calculatedValue (data l)); [discriminate | congruence].
  - intros Hty Hne Hopt.
    destruct (run_invariants t actions _ (StateInv_fresh t Hwf Hu)
                (StateValues_fresh t Hhv Hu)) as [_ [_ Hmark]].
    fold s in Hmark. destruct (Hmark Hmode) as (w & Ew).
    assert (Hroot : isOptimal (root s) <> Some false).
    { apply isOptimal_run. exact Hopt. }
    rewrite Ew in Hfe, Hty, Hne.
    rewrite markOptimalPath_type in Hty.
    assert (Hnew : children w <> []).
    { intros E. apply Hne. rewrite markOptimalPath_eq, E.
      rewrite orb_true_r. exact E. }
    destruct (marked_root_has_optimal_child w Hfe Hty Hnew) as (c & Hin & Hc).
    rewrite <- Ew in Hin.
    unfold canvasLinks, layoutTree.
    rewrite renderLinks_eq, layoutChildren_calculateLayout.
    pose proof (layoutEach_data 1 (children (root s)) 0) as Hdata.
    rewrite <- Hdata in Hin. apply in_map_iff in Hin as (lc & Hlc & Hinl).
    exists (linkTo (fst (calculateLayout (root s) 0 0)) lc). split.
    + apply in_flat_map. exists lc. split; [exact Hinl | now left].
    + unfold linkTo. cbn [isOptimalPath].
      rewrite (proj1 (calculateLayout_data (root s) 0 0)), Hlc.
      unfold optimalLink. rewrite Hc.
      destruct (isOptimal (root s)) as [[|]|]; congruence.
Qed.

(** ** The log explains the tree *)

Lemma getCalculationFormula_ext n m :
  type n = type m -> value n = value m ->
  Forall2 (fun c d => calculatedValue c = calculatedValue d /\
                      probability c = probability d)
          (children n) (children m) ->
  getCalculationFormula n = getCalculationFormula m.
Proof.
  intros Ht Hv Hc. unfold getCalculationFormula. rewrite Ht, Hv.
  assert (H1 : map calculatedValue (children n)
               = map calculatedValue (children m)).
  { induction Hc as [|a b l l' [E _] _ IH]; simpl; congruence. }
  assert (H2 : map (fun c => (probability c, calculatedValue c)) (children n)
               = map (fun c => (probability c, calculatedValue c)) (children m)).
  { clear H1. induction Hc as [|a b l l' [E1 E2] _ IH];
      [reflexivity | cbn [map]; now rewrite E1, E2, IH]. }
  now rewrite H1, H2.
Qed.

Lemma keeps_entry t t' e :
  related keeps t t' -> entryExplains t e -> entryExplains t' e.
Proof.
  intros H (n & Hn & Hty & Hl & Hnt & Hf & Hr & Hcv & Hch).
  destruct (related_Some _ _ _ _ _ H Hn)
    as (n' & Hn' & (Ht & Hv & Hlab & _ & Hlen) & Hkeep).
  assert (Hops : Forall2 (fun c d => calculatedValue c = calculatedValue d /\
                                     probability c = probability d)
                         (children n) (children n')).
  { apply Forall2_pointwise; [congruence|].
    intros i c c' Hc Hc'.
    assert (Hcc : calculatedValue c <> None).
    { rewrite Forall_forall in Hch. apply Hch. eapply nth_error_In; eauto. }
    rewrite <- (subtree_child _ _ _ i Hn) in Hc.
    rewrite <- (subtree_child _ _ _ i Hn') in Hc'.
    pose proof (H (logNode e ++ [i])) as Hi. rewrite Hc, Hc' in Hi.
    destruct Hi as ((_ & _ & _ & Hp & _) & Hk). split; [|congruence].
    symmetry. now apply Hk. }
  exists n'. split; [exact Hn'|]. split; [congruence|].
  split; [congruence|]. split; [congruence|].
  split; [rewrite Hf; apply getCalculationFormula_ext; congruence|].
  split; [rewrite Hr; apply calculateNodeEMV_ext; congruence|].
  split; [rewrite Hkeep; congruence|].
  clear - Hops Hch. induction Hops as [|c d l l' [E _] _ IH]; constructor.
  - inversion Hch; subst. congruence.
  - apply IH. now inversion Hch.
Qed.

Lemma stepChange_keeps t t' : related stepChange t t' -> related keeps t t'.
Proof.
  intros H p. specialize (H p).
  destruct (subtree t p), (subtree t' p); auto.
  destruct H as [Hs [E|(E & _)]]; split; auto; congruence.
Qed.

Lemma sameView_keeps t t' : sameView t t' -> related keeps t t'.
Proof.
  intros H p. specialize (H p).
  destruct (subtree t p), (subtree t' p); auto.
  destruct H as [Hs E]. split; auto.
Qed.

Lemma terminalStep_keeps t t' lp :
  TreeInv t lp -> related terminalStep t t' -> related keeps t t'.
Proof.
  intros Hinv H p. specialize (H p).
  destruct (subtree t p) as [n|] eqn:Hn, (subtree t' p); auto.
  destruct H as [Hs [E|[Hty E]]]; split; auto. intros Hcv.
  destruct (calculatedValue n) as [v|] eqn:Ev; [|congruence].
  rewrite E. exact (inv_terminal _ _ Hinv p n v Hn Hty Ev).
Qed.

Lemma evalStep_keeps p0 t t' lp :
  TreeInv t lp -> evalStep p0 t t' -> related keeps t t'.
Proof.
  intros Hinv H p. specialize (H p).
  destruct (subtree t p) as [n|] eqn:Hn, (subtree t' p); auto.
  destruct (samePath p p0).
  - destruct H as (Hs & _ & Hcv & _). split; [exact Hs | congruence].
  - destruct H as [Hs [E|[Hty E]]]; split; auto. intros Hcv.
    destruct (calculatedValue n) as [v|] eqn:Ev; [|congruence].
    rewrite E. exact (inv_terminal _ _ Hinv p n v Hn Hty Ev).
Qed.

Lemma keeps_trans t t' t'' :
  related keeps t t' -> related keeps t' t'' -> related keeps t t''.
Proof.
  apply related_trans. intros a b c [S1 K1] [S2 K2]. split.
  - eapply staticEq_trans; eauto.
  - intros H. rewrite K2, K1; auto. rewrite K1; auto.
Qed.

Lemma stepCalculate_formula node : forall here st e,
  In e (snd (snd (stepCalculate here node st))) ->
  In e (snd st) \/
  exists q n', logNode e = here ++ q /\
               subtree (fst (stepCalculate here node st)) q = Some n' /\
               formula e = getCalculationFormula n'.
Proof.
  induction node as [node IH] using TreeNode_nested_ind. intros here st e.
  rewrite stepCalculate_eq.
  destruct (calculatedValue node); [now left|].
  destruct (NodeType_eqb (type node) TERMINAL); [now left|].
  assert (G : forall cs, Forall (fun c => forall here st e,
      In e (snd (snd (stepCalculate here c st))) ->
      In e (snd st) \/
      exists q n', logNode e = here ++ q /\
                   subtree (fst (stepCalculate here c st)) q = Some n' /\
                   formula e = getCalculationFormula n') cs ->
    forall i st0,
      In e (snd (snd (stepChildren here i cs st0))) ->
      In e (snd st0) \/
      exists k c' q n',
        nth_error (fst (stepChildren here i cs st0)) k = Some c' /\
        logNode e = here ++ (i + k)%nat :: q /\
        subtree c' q = Some n' /\ formula e = getCalculationFormula n').
  { clear. intros cs HF. induction HF as [|c r Hc _ IHr]; intros i st0 Hin.
    - now left.
    - rewrite stepChildren_cons in Hin |- *. cbn [fst snd] in *.
      destruct (IHr (S i) _ Hin) as [Hold|(k & c' & q & n' & Hk & Hl & Hq & Hf)].
      + destruct (Hc (here ++ [i]) st0 e Hold) as [H0|(q & n' & Hl & Hq & Hf)].
        * now left.
        * right. exists 0%nat, (fst (stepCalculate (here ++ [i]) c st0)), q, n'.
          rewrite Nat.add_0_r, <- app_assoc in *. now repeat split.
      + right. exists (S k), c', q, n'.
        rewrite Nat.add_succ_r. now repeat split. }
  specialize (G (children node) IH 0%nat st).
  destruct (stepChildren here 0 (children node) st) as [children' st1].
  cbn [fst snd] in G. cbv zeta.
  destruct (forallb (fun c => isSome (calculatedValue c)) children'
            && negb (fst st1)); cbn [fst snd].
  - intros Hin. apply in_app_or in Hin as [Hin|[<-|[]]].
    + destruct (G Hin) as [H0|(k & c' & q & n' & Hk & Hl & Hq & Hf)];
        [now left|].
      right. exists (k :: q), n'. split; [exact Hl|].
      split; [|exact Hf]. simpl. now rewrite Hk.
    + right. eexists [], _. cbn [logNode formula subtree].
      rewrite app_nil_r. repeat split.
  - intros Hin.
    destruct (G Hin) as [H0|(k & c' & q & n' & Hk & Hl & Hq & Hf)];
      [now left|].
    right. exists (k :: q), n'. split; [exact Hl|].
    split; [|exact Hf]. simpl. now rewrite Hk.
Qed.

Lemma handleSolveStep_explains t0 s :
  StateInv t0 s ->
  Forall (entryExplains (root s)) (logs s) ->
  Forall (entryExplains (root (handleSolveStep s))) (logs (handleSolveStep s)).
Proof.
  intros [Hinv _] Hlog.
  pose proof (stepCalculate_formula (root s) [] (false, logs s)) as Hform.
  destruct (handleSolveStep_cases s)
    as [[Hrel E] | (q0 & n0 & n0' & e & L0 & L0' & S0 & E & HN & H)];
    rewrite E; cbn [root logs].
  - apply stepChange_keeps in Hrel.
    pose proof (sameView_keeps _ _ (sameView_markOptimalPath
                  (fst (stepCalculate [] (root s) (false, logs s))))) as Hm.
    eapply Forall_impl; [|exact Hlog].
    intros e He. eapply keeps_entry; [|exact He].
    eapply keeps_trans; eauto.
  - assert (Hlogs : snd (snd (stepCalculate [] (root s) (false, logs s)))
                    = logs s ++ [e]).
    { unfold handleSolveStep in E.
      destruct (stepCalculate [] (root s) (false, logs s)) as [nr [found l]].
      cbn [fst snd] in *. destruct found; injection E; auto. }
    set (nextRoot := fst (stepCalculate [] (root s) (false, logs s))) in *.
    assert (Hk : related keeps (root s) nextRoot).
    { intros q. destruct (subtree (root s) q) as [n|] eqn:Hn.
      - destruct (list_eq_dec Nat.eq_dec q q0) as [->|Hne].
        + rewrite L0'. rewrite L0 in Hn. injection Hn as <-.
          destruct S0 as (Hs0 & _ & Hcv0 & _). split; [exact Hs0|congruence].
        + destruct (H q n Hne Hn) as (n' & -> & Hs & [Ec|(Ec & _)]);
            split; auto; congruence.
      - now rewrite HN. }
    apply Forall_app. split.
    + eapply Forall_impl; [|exact Hlog].
      intros e' He'. eapply keeps_entry; eauto.
    + constructor; [|constructor].
      destruct S0 as (Hs0 & Hty0 & Hcv0 & Hcv0' & Hch & Hln & Hlab & Hnt & Hres).
      destruct Hs0 as (Ht & Hv & Hl & _).
      exists n0'. rewrite Hln. split; [exact L0'|].
      split; [congruence|]. split; [congruence|]. split; [congruence|].
      split; [|split; [exact Hres | split; [congruence | exact Hch]]].
      destruct (Hform e) as [Hold|(q & n' & Hq & Hsub & Hf)].
      * rewrite Hlogs. apply in_or_app. right. now left.
      * exfalso. cbn [snd] in Hold.
        assert (Hin : In q0 (map logNode (logs s))).
        { rewrite <- Hln. now apply in_map. }
        apply (inv_logged _ _ Hinv) in Hin.
        destruct Hin as (m & Hm & _ & Hcm). congruence.
      * change ([] ++ q) with q in Hq. rewrite Hln in Hq. subst q.
        fold nextRoot in Hsub. congruence.
Qed.

Lemma visitStep_explains w0 visited p rest r r' :
  postOrderPaths w0 = visited ++ p :: rest ->
  LoopInv w0 visited r -> LoopValues visited r ->
  Forall (entryExplains (workingRoot r)) (logs (app r)) /\
  Forall (entryExplains (root (app r))) (logs (app r)) ->
  visitStep p r r' ->
  Forall (entryExplains (workingRoot r')) (logs (app r')) /\
  Forall (entryExplains (root (app r'))) (logs (app r')).
Proof.
  intros Hall [Hw _ Hs _ _] [_ _ _ Vv] [Lw La] Hstep.
  destruct Hstep as [Hnone | n Hn Hty | n Hn Hty Hcv | n Hn Hty Hcv];
    try (now split).
  - unfold afterTerminal. cbn [workingRoot app]. split; [|exact La].
    pose proof (terminalStep_keeps _ _ _ Hw (assign_terminalStep _ _ _ Hn Hty))
      as Hk.
    eapply Forall_impl; [|exact Lw]. intros e He. eapply keeps_entry; eauto.
  - unfold afterEvaluation. cbn [workingRoot app root logs].
    set (w' := assignCalculatedValue (workingRoot r) p
                 (Some (calculateNodeEMV n))).
    assert (Hall' : Forall (entryExplains w')
              (logs (app r)
               ++ [mkLog (label n) (type n) (getCalculationFormula n)
                         (calculateNodeEMV n) p])).
    { apply Forall_app. split.
      - pose proof (evalStep_keeps _ _ _ _ Hw
                      (assign_evalStep _ _ _ (calculateNodeEMV n) Hn Hty Hcv))
          as Hk.
        eapply Forall_impl; [|exact Lw]. intros e He.
        eapply keeps_entry; eauto.
      - constructor; [|constructor].
        destruct (assign_here _ p (Some (calculateNodeEMV n)) n Hn)
          as (n' & Hn' & E1 & E2 & E3 & E4 & E5).
        fold w' in Hn'.
        destruct (subtree_assign (workingRoot r) p
                    (Some (calculateNodeEMV n)) p n Hn)
          as (n2 & Hn2 & Hlen & _).
        fold w' in Hn2. rewrite Hn' in Hn2. injection Hn2 as <-.
        assert (Hops : Forall2 (fun c d =>
                          calculatedValue c = calculatedValue d /\
                          probability c = probability d)
                        (children n) (children n')).
        { apply Forall2_pointwise; [congruence|].
          intros i c c' Hc Hc'.
          rewrite <- (subtree_child _ _ _ i Hn) in Hc.
          rewrite <- (subtree_child _ _ _ i Hn') in Hc'.
          destruct (subtree_assign (workingRoot r) p
                      (Some (calculateNodeEMV n)) (p ++ [i]) c Hc)
            as (c2 & Hc2 & _ & _ & _ & _ & Hp & _ & Hv).
          fold w' in Hc2. rewrite Hc' in Hc2. injection Hc2 as <-.
          destruct (samePath (p ++ [i]) p) as [E|_].
          - exfalso. rewrite <- (app_nil_r p) in E at 2.
            apply app_inv_head in E. discriminate.
          - split; congruence. }
        exists n'. cbn [logNode nodeLabel nodeType formula result].
        split; [exact Hn'|]. split; [congruence|]. split; [congruence|].
        split; [congruence|].
        split; [apply getCalculationFormula_ext; congruence|].
        split; [congruence|]. split; [congruence|].
        apply Forall_forall. intros c' Hc'.
        destruct (In_nth_error _ _ Hc') as (i & Hi).
        rewrite <- (subtree_child _ _ _ i Hn') in Hi.
        destruct (related_Some_r _ _ _ _ _
                    (sameShape_assign (workingRoot r) p
                       (Some (calculateNodeEMV n))) Hi) as (c & Hc & _).
        destruct (subtree_assign (workingRoot r) p
                    (Some (calculateNodeEMV n)) (p ++ [i]) c Hc)
          as (c2 & Hc2 & _ & _ & _ & _ & _ & _ & Hv).
        fold w' in Hi. fold w' in Hc2. rewrite Hi in Hc2. injection Hc2 as <-.
        destruct (samePath (p ++ [i]) p) as [E|_].
        + exfalso. rewrite <- (app_nil_r p) in E at 2.
          apply app_inv_head in E. discriminate.
        + rewrite Hv. apply (Vv (p ++ [i]) c); [|exact Hc].
          destruct (related_Some_r _ _ _ _ _ Hs Hc) as (c0 & Hc0 & _).
          eapply postOrder_below_done; eauto. apply strictlyBelow_child. }
    now split.
Qed.

Lemma handleSolveAuto_explains c t0 s :
  StateInv t0 s -> StateValues s ->
  Forall (entryExplains (root s)) (logs s) ->
  Forall (entryExplains (root (app (handleSolveAuto c s))))
         (logs (app (handleSolveAuto c s))).
Proof.
  intros Hs Hsv Hlog. destruct (autoEntry_LoopInv t0 s Hs) as [H0 _].
  pose proof (autoEntry_LoopValues s Hsv) as V0.
  assert (L0 : Forall (entryExplains (workingRoot (autoEntry s)))
                      (logs (app (autoEntry s))) /\
               Forall (entryExplains (root (app (autoEntry s))))
                      (logs (app (autoEntry s)))).
  { unfold autoEntry. destruct (calculationMode s);
      cbn [workingRoot app root logs]; split; auto. }
  unfold handleSolveAuto.
  pose proof (autoLoop_invariant c
                (postOrderPaths (workingRoot (autoEntry s)))
                (fun visited r =>
                   (LoopInv (workingRoot (autoEntry s)) visited r /\
                    LoopValues visited r) /\
                   (Forall (entryExplains (workingRoot r)) (logs (app r)) /\
                    Forall (entryExplains (root (app r))) (logs (app r))))
                (fun visited p rest r r' Hall HI Hstep =>
                   conj
                     (conj (LoopInv_step _ visited p rest r r' Hall
                              (proj1 (proj1 HI)) Hstep)
                           (LoopValues_step _ visited p rest r r' Hall
                              (proj1 (proj1 HI)) (proj2 (proj1 HI)) Hstep))
                     (visitStep_explains _ visited p rest r r' Hall
                        (proj1 (proj1 HI)) (proj2 (proj1 HI)) (proj2 HI) Hstep))
                (postOrderPaths (workingRoot (autoEntry s))) []
                (autoEntry s) eq_refl (conj (conj H0 V0) L0)) as Hloop.
  destruct (autoLoop c (postOrderPaths (workingRoot (autoEntry s)))
              (autoEntry s)) as [r|r].
  - destruct Hloop as [_ [Lw La]].
    destruct (aborted c r); [exact La|].
    cbn [app root logs].
    eapply Forall_impl; [|exact Lw]. intros e He.
    eapply keeps_entry; [|exact He].
    apply sameView_keeps, sameView_markOptimalPath.
  - destruct Hloop as (visited & r'' & [_ [_ La]] & _ & ->). exact La.
Qed.

Lemma run_explains t0 actions : forall s,
  StateInv t0 s -> StateValues s ->
  Forall (entryExplains (root s)) (logs s) ->
  Forall (entryExplains (root (run actions s))) (logs (run actions s)).
Proof.
  induction actions as [|a actions IH]; intros s Hs Hv Hl; [exact Hl|].
  simpl.
  destruct (run_invariants t0 [a] s Hs Hv) as [Hs1 Hv1]. simpl in Hs1, Hv1.
  apply IH; auto.
  destruct a; simpl.
  - eapply handleSolveStep_explains; eauto.
  - eapply handleSolveAuto_explains; eauto.
  - constructor.
Qed.

(** X28.  The log explains the tree.  At every point of a run over a tree
    whose values and probabilities are finite numbers, each entry of the
    log belongs to an internal node of the tree as it is now: the entry's
    formula is the formula of that node, every operand of the formula (the
    calculatedValue of a child) is defined, and the entry's result is the
    EMV of the node and the calculatedValue the node holds.  (Not stated of
    a tree holding NaN, whose JSON copy holds [null] instead.) *)
Theorem log_explains_tree (t : TreeNode) (actions : list Action) :
  terminalsAreLeaves t = true -> unevaluated t = true ->
  terminalsHaveValue t = true ->
  let s := run actions (freshState t) in
  forall e, In e (logs s) ->
    exists n,
      subtree (root s) (logNode e) = Some n /\ type n <> TERMINAL /\
      nodeLabel e = label n /\ nodeType e = type n /\
      formula e = getCalculationFormula n /\
      result e = calculateNodeEMV n /\
      calculatedValue n = Some (result e) /\
      Forall (fun c => calculatedValue c <> None) (children n).
Proof.
  intros Hwf Hu Hhv s e He.
  pose proof (run_explains t actions _ (StateInv_fresh t Hwf Hu)
                (StateValues_fresh t Hhv Hu) (Forall_nil _)) as H.
  rewrite Forall_forall in H. exact (H e He).
Qed.

(** ** The evaluation order *)

Lemma flat_map_perm (f g : TreeNode -> list TreeNode) cs :
  Forall (fun c => Permutation (f c) (g c)) cs ->
  Permutation (flat_map f cs) (flat_map g cs).
Proof.
  induction 1 as [|c r Hc _ IH]; [constructor|].
  cbn [flat_map]. now apply Permutation_app.
Qed.

(** X29.  The evaluation order lists every node of the tree exactly once:
    [flattenTreePostOrder] is a rearrangement of the nodes of the tree, with
    the nodes of each child's subtree before the node itself and the root
    last. *)
Theorem flattenTreePostOrder_nodes (t : TreeNode) :
  Permutation (flattenTreePostOrder t) (treeNodes t) /\
  flattenTreePostOrder t
  = flat_map flattenTreePostOrder (children t) ++ [t] /\
  List.length (flattenTreePostOrder t) = List.length (treeIds t).
Proof.
  assert (H : Permutation (flattenTreePostOrder t) (treeNodes t)).
  { induction t as [t IH] using TreeNode_nested_ind.
    rewrite flattenTreePostOrder_eq, treeNodes_eq.
    eapply perm_trans; [symmetry; apply Permutation_cons_append|].
    constructor. now apply flat_map_perm. }
  split; [exact H|]. split; [apply flattenTreePostOrder_eq|].
  rewrite (Permutation_length H), treeIds_treeNodes. now rewrite length_map.
Qed.

(** ** The analysis request *)

Lemma handleAnalysisEvent_inv e a (seen : list AnalysisEvent) :
  (isAnalyzing a = true -> aiAnalysis a = None) /\
  (forall r, aiAnalysis a = Some r ->
             In (Settled (analysisRequestId a) (inl r)) seen) ->
  (isAnalyzing (handleAnalysisEvent e a) = true ->
   aiAnalysis (handleAnalysisEvent e a) = None) /\
  (forall r, aiAnalysis (handleAnalysisEvent e a) = Some r ->
             In (Settled (analysisRequestId (handleAnalysisEvent e a)) (inl r))
                (seen ++ [e])).
Proof.
  intros [H1 H2]. destruct e as [blank | rid outcome | | |];
    cbn [handleAnalysisEvent].
  - unfold handleAnalyze. destruct blank; cbn [fst analysisRequestId
      aiAnalysis isAnalyzing].
    + split; [exact H1|]. intros r Hr. apply in_or_app. left. auto.
    + split; [reflexivity | discriminate].
  - unfold handleAnalyzeSettled.
    destruct (rid =? analysisRequestId a)%nat eqn:E.
    + apply Nat.eqb_eq in E. subst rid.
      destruct outcome as [result|message];
        cbn [analysisRequestId aiAnalysis isAnalyzing]; split;
        try discriminate.
      * intros r Hr. injection Hr as <-. apply in_or_app. right. now left.
      * intros r Hr. apply in_or_app. left. auto.
    + destruct outcome; split; auto; intros r Hr; apply in_or_app; left; auto.
  - cbn [analysisRequestId aiAnalysis isAnalyzing]. split; [reflexivity|].
    discriminate.
  - cbn [analysisRequestId aiAnalysis isAnalyzing]. split; [exact H1|].
    intros r Hr. apply in_or_app. left. auto.
  - cbn [analysisRequestId aiAnalysis isAnalyzing]. split; [exact H1|].
    intros r Hr. apply in_or_app. left. auto.
Qed.

(** X30.  The report shown belongs to the latest request: whatever the order
    in which analysis requests are started and settled, a report that is
    displayed is the one delivered for the request started last, and while
    a request is marked as running no report is displayed; the answer to an
    earlier request is ignored. *)
Theorem analysis_shows_latest_request (events : list AnalysisEvent) :
  let a := fold_left (fun a e => handleAnalysisEvent e a) events
                     initialAnalysis in
  (isAnalyzing a = true -> aiAnalysis a = None) /\
  (forall r, aiAnalysis a = Some r ->
             In (Settled (analysisRequestId a) (inl r)) events) /\
  (forall requestId outcome,
     requestId <> analysisRequestId a ->
     handleAnalyzeSettled requestId outcome a = a).
Proof.
  intros a.
  assert (G : forall evs seen a0,
    (isAnalyzing a0 = true -> aiAnalysis a0 = None) /\
    (forall r, aiAnalysis a0 = Some r ->
               In (Settled (analysisRequestId a0) (inl r)) seen) ->
    let a1 := fold_left (fun a e => handleAnalysisEvent e a) evs a0 in
    (isAnalyzing a1 = true -> aiAnalysis a1 = None) /\
    (forall r, aiAnalysis a1 = Some r ->
               In (Settled (analysisRequestId a1) (inl r)) (seen ++ evs))).
  { induction evs as [|e es IH]; intros seen a0 H0.
    - simpl. now rewrite app_nil_r.
    - simpl.
      pose proof (IH (seen ++ [e]) _ (handleAnalysisEvent_inv e a0 seen H0))
        as H.
      now rewrite <- app_assoc in H. }
  destruct (G events [] initialAnalysis) as [H1 H2].
  { split; [reflexivity | discriminate]. }
  split; [exact H1|]. split; [exact H2|].
  intros rid outcome Hne. unfold handleAnalyzeSettled.
  apply Nat.eqb_neq in Hne. rewrite Hne. now destruct outcome.
Qed.

(** ** The theorems on the example trees *)

Lemma calculateNodeEMV_cases_witness :
  type scenarioASolved = DECISION /\ children scenarioASolved <> [] /\
  forall c, In c (children scenarioASolved) ->
            orElse (calculatedValue c) 0 <= calculateNodeEMV scenarioASolved.
Proof.
  split; [reflexivity|]. split; [discriminate|].
  apply (proj1 (proj2 (calculateNodeEMV_cases scenarioASolved)) eq_refl).
  discriminate.
Defined.


Lemma requestAuto_log_witness :
  calculationMode twoOutcomesSolved <> StepMode /\
  map logNode (logs (app (handleSolveAuto None twoOutcomesSolved)))
  = filter (internalAt (root twoOutcomesSolved))
           (postOrderPaths (root twoOutcomesSolved)).
Proof.
  assert (H : calculationMode twoOutcomesSolved <> StepMode)
    by (vm_compute; discriminate).
  split; [exact H|].
  apply (proj2 (requestAuto_log twoOutcomesSolved H)).
Defined.

Lemma addChild_guarded_by_controls_witness :
  terminalsAreLeaves (root (freshState scenarioA)) = true /\
  uniqueIds (root (freshState scenarioA)) = true /\
  In ("A"%string, TERMINAL)
     (addChildActions (selectedNode (root (freshState scenarioA)) (Some "A"%string))) /\
  terminalsAreLeaves
    (root (fst (handleAddNode (fun _ => "fresh"%string) "A" TERMINAL
                              (freshState scenarioA) 0))) = true.
Proof.
  assert (H : In ("A"%string, TERMINAL)
                 (addChildActions
                    (selectedNode (root (freshState scenarioA))
                                  (Some "A"%string))))
    by (vm_compute; tauto).
  split; [reflexivity|]. split; [reflexivity|]. split; [exact H|].
  apply (addChild_guarded_by_controls (fun _ => "fresh"%string)
           (freshState scenarioA) (Some "A"%string) "A" TERMINAL 0
           eq_refl eq_refl H).
Defined.

Lemma autoEntry_reset_witness :
  calculationMode twoOutcomesSolved <> StepMode /\
  logs (app (autoEntry twoOutcomesSolved)) = [].
Proof.
  assert (H : calculationMode twoOutcomesSolved <> StepMode)
    by (vm_compute; discriminate).
  split; [exact H|].
  apply (proj1 (autoEntry_reset twoOutcomesSolved H)).
Defined.

Lemma logs_postOrdered_witness :
  terminalsAreLeaves scenarioB = true /\ unevaluated scenarioB = true /\
  postOrdered
    (map logNode
       (logs (run [RequestStep; RequestAuto (Some 1%nat); RequestStep;
                   RequestAuto None]
                  (freshState scenarioB)))).
Proof.
  split; [reflexivity|]. split; [reflexivity|].
  apply (logs_postOrdered scenarioB); reflexivity.
Defined.


Lemma requestAuto_resumes_witness :
  terminalsAreLeaves scenarioB = true /\ unevaluated scenarioB = true /\
  calculationMode (run [RequestStep] (freshState scenarioB)) = StepMode /\
  exists new,
    logs (app (handleSolveAuto None (run [RequestStep] (freshState scenarioB))))
    = logs (run [RequestStep] (freshState scenarioB)) ++ new /\
    map logNode new = [[1%nat]; []].
Proof.
  split; [reflexivity|]. split; [reflexivity|]. split; [reflexivity|].
  destruct (requestAuto_resumes scenarioB [RequestStep]
              eq_refl eq_refl eq_refl)
    as (new & w & H1 & H2 & _).
  exists new. split; [exact H1 | exact H2].
Defined.

Lemma layoutTree_coordinates_witness :
  subtree scenarioB [1%nat; 0%nat] <> None /\
  exists l,
    layoutAt (layoutTree scenarioB) [1%nat; 0%nat] = Some l /\
    x l = depthQ 2 * HORIZONTAL_SPACING.
Proof.
  split; [discriminate|].
  destruct (proj1 (layoutTree_coordinates scenarioB) [1%nat; 0%nat] _ eq_refl)
    as (l & H1 & _ & _ & H2 & _).
  exists l. split; [exact H1 | exact H2].
Defined.

Lemma decision_optimality_witness :
  terminalsAreLeaves scenarioA = true /\ unevaluated scenarioA = true /\
  terminalsHaveValue scenarioA = true /\
  calculationMode (run [RequestStep; RequestAuto None] (freshState scenarioA))
  = AutoMode /\
  exists c,
    In c (children (root (run [RequestStep; RequestAuto None]
                              (freshState scenarioA)))) /\
    calculatedValue c = Some (200 # 4) /\ isOptimal c = Some true.
Proof.
  split; [reflexivity|]. split; [reflexivity|]. split; [reflexivity|].
  split; [reflexivity|].
  apply (proj2 (decision_optimality scenarioA [RequestStep; RequestAuto None]
                  eq_refl eq_refl eq_refl eq_refl
                  [] _ (200 # 4) eq_refl eq_refl eq_refl)).
  discriminate.
Defined.

(** ** The further properties on the example trees *)

Lemma missing_id_is_noop_witness :
  ~ In "nobody"%string (treeIds scenarioA) /\
  deleteNodeFromTree scenarioA "nobody" = scenarioA.
Proof.
  assert (H : ~ In "nobody"%string (treeIds scenarioA))
    by (cbn; intuition discriminate).
  split; [exact H|].
  apply (proj1 (proj2 (missing_id_is_noop scenarioA "nobody" noUpdates
                         exampleIds CHANCE 0 H))).
Defined.

Lemma updateNodeInTree_findNode_witness :
  upd_id (labelUpdate "demand") = None /\
  findNode (updateNodeInTree scenarioA "A" (labelUpdate "demand")) "A"
  = option_map (fun n => applyUpdates n (labelUpdate "demand"))
               (findNode scenarioA "A").
Proof.
  split; [reflexivity|].
  apply (updateNodeInTree_findNode scenarioA "A" (labelUpdate "demand")
           eq_refl).
Defined.

Lemma updateNodeInTree_only_that_node_witness :
  uniqueIds scenarioA = true /\ upd_children (valueUpdate 7) = None /\
  exists n',
    subtree (updateNodeInTree scenarioA "a1" (valueUpdate 7)) [0%nat; 0%nat]
    = Some n' /\
    value n' = Some 7.
Proof.
  split; [reflexivity|]. split; [reflexivity|].
  destruct (updateNodeInTree_only_that_node scenarioA "a1" (valueUpdate 7)
              [0%nat; 0%nat] _ eq_refl eq_refl eq_refl) as (n' & H1 & H2).
  exists n'. split; [exact H1|]. exact (f_equal value H2).
Defined.

Lemma updateNodeInTree_keeps_structure_witness :
  upd_id (probabilityUpdate (1 # 4)) = None /\
  upd_children (probabilityUpdate (1 # 4)) = None /\
  treeIds (updateNodeInTree scenarioA "a2" (probabilityUpdate (1 # 4)))
  = treeIds scenarioA.
Proof.
  split; [reflexivity|]. split; [reflexivity|].
  apply (proj1 (updateNodeInTree_keeps_structure scenarioA "a2"
                  (probabilityUpdate (1 # 4)) eq_refl eq_refl)).
Defined.

Lemma addNodeToTree_appends_once_witness :
  uniqueIds scenarioA = true /\
  findNode scenarioA "B" <> None /\
  exists p k,
    fst (addNodeToTree exampleIds scenarioA "B" TERMINAL 0)
    = updateAt (fun m => with_children m
                           (children m ++ [newNode (exampleIds k) TERMINAL]))
               scenarioA p.
Proof.
  split; [reflexivity|]. split; [discriminate|].
  destruct (addNodeToTree_appends_once exampleIds scenarioA "B" TERMINAL 0 _
              eq_refl eq_refl) as (p & k & _ & _ & H).
  exists p, k. exact H.
Defined.

Lemma addNodeToTree_then_delete_witness :
  uniqueIds scenarioA = true /\ In "B"%string (treeIds scenarioA) /\
  (forall k, ~ In ((fun _ : nat => "fresh"%string) k) (treeIds scenarioA)) /\
  exists k,
    deleteNodeFromTree
      (fst (addNodeToTree (fun _ : nat => "fresh"%string) scenarioA "B" TERMINAL 0))
      ((fun _ : nat => "fresh"%string) k)
    = scenarioA.
Proof.
  assert (H1 : In "B"%string (treeIds scenarioA)) by (cbn; tauto).
  assert (H2 : forall k : nat,
             ~ In ((fun _ : nat => "fresh"%string) k) (treeIds scenarioA))
    by (intros k; cbn; intuition discriminate).
  split; [reflexivity|]. split; [exact H1|]. split; [exact H2|].
  destruct (addNodeToTree_then_delete (fun _ : nat => "fresh"%string) scenarioA "B"
              TERMINAL 0 eq_refl H1 H2) as (k & _ & _ & H).
  exists k. exact H.
Defined.

Lemma solved_state_fully_evaluated_witness :
  terminalsAreLeaves scenarioA = true /\ unevaluated scenarioA = true /\
  terminalsHaveValue scenarioA = true /\
  calculationMode (run fourSteps (freshState scenarioA)) = AutoMode /\
  calculatedValue (root (run fourSteps (freshState scenarioA)))
  = Some (calculateNodeEMV (root (run fourSteps (freshState scenarioA)))).
Proof.
  split; [reflexivity|]. split; [reflexivity|]. split; [reflexivity|].
  split; [reflexivity|].
  apply (proj2 (proj2 (solved_state_fully_evaluated scenarioA fourSteps
                         eq_refl eq_refl eq_refl eq_refl [] _ eq_refl))).
  discriminate.
Defined.

Lemma solved_values_agree_witness :
  terminalsAreLeaves scenarioA = true /\ unevaluated scenarioA = true /\
  terminalsHaveValue scenarioA = true /\
  calculationMode (run fourSteps (freshState scenarioA)) = AutoMode /\
  calculationMode (run [RequestAuto (Some 1%nat); RequestAuto None]
                       (freshState scenarioA)) = AutoMode /\
  sameView (root (run fourSteps (freshState scenarioA)))
           (root (run [RequestAuto (Some 1%nat); RequestAuto None]
                      (freshState scenarioA))).
Proof.
  split; [reflexivity|]. split; [reflexivity|]. split; [reflexivity|].
  split; [reflexivity|]. split; [reflexivity|].
  apply (solved_values_agree scenarioA fourSteps
           [RequestAuto (Some 1%nat); RequestAuto None]); reflexivity.
Defined.

Lemma step_in_solved_state_witness :
  terminalsAreLeaves scenarioB = true /\ unevaluated scenarioB = true /\
  terminalsHaveValue scenarioB = true /\
  calculationMode (run [RequestAuto None] (freshState scenarioB)) = AutoMode /\
  handleSolveStep (run [RequestAuto None] (freshState scenarioB))
  = run [RequestAuto None] (freshState scenarioB).
Proof.
  split; [reflexivity|]. split; [reflexivity|]. split; [reflexivity|].
  split; [reflexivity|].
  apply (step_in_solved_state scenarioB [RequestAuto None]); reflexivity.
Defined.

Lemma edit_discards_run_witness :
  clearValues scenarioA = scenarioA /\
  handleUpdateNode "a1" (valueUpdate 120)
                   (run [RequestStep; RequestAuto None] (freshState scenarioA))
  = freshState (updateNodeInTree scenarioA "a1" (valueUpdate 120)).
Proof.
  split; [reflexivity|].
  apply (proj1 (edit_discards_run scenarioA [RequestStep; RequestAuto None]
                  "a1" (valueUpdate 120) exampleIds CHANCE 0 None
                  eq_refl)).
Defined.

Lemma session_invariants_witness :
  freshDraws exampleIds (idDraws (session exampleIds exampleEvents)) = true /\
  exists t actions,
    sessionApp (session exampleIds exampleEvents)
    = run actions (freshState t) /\
    uniqueIds t = true /\ terminalsAreLeaves t = true.
Proof.
  assert (H : freshDraws exampleIds
                (idDraws (session exampleIds exampleEvents)) = true)
    by (vm_compute; reflexivity).
  split; [exact H|].
  destruct (session_invariants exampleIds exampleEvents H)
    as (t & actions & H1 & _ & _ & H2 & H3 & _).
  exists t, actions. split; [exact H1|]. split; [exact H2 | exact H3].
Defined.


Lemma solved_canvas_witness :
  terminalsAreLeaves scenarioA = true /\ unevaluated scenarioA = true /\
  terminalsHaveValue scenarioA = true /\
  calculationMode (run [RequestAuto None] (freshState scenarioA)) = AutoMode /\
  Forall (fun v => valueLine v <> NoValue)
         (canvasNodes (run [RequestAuto None] (freshState scenarioA))
                      (Some "root"%string)) /\
  exists k,
    In k (canvasLinks (run [RequestAuto None] (freshState scenarioA))) /\
    isOptimalPath k = true.
Proof.
  split; [reflexivity|]. split; [reflexivity|]. split; [reflexivity|].
  split; [reflexivity|].
  destruct (solved_canvas scenarioA [RequestAuto None] (Some "root"%string)
              eq_refl eq_refl eq_refl eq_refl) as [H1 H2].
  split; [exact H1|].
  apply H2; [reflexivity | discriminate | discriminate].
Defined.

Lemma log_explains_tree_witness :
  terminalsAreLeaves scenarioB = true /\ unevaluated scenarioB = true /\
  terminalsHaveValue scenarioB = true /\
  Forall (fun e => exists n,
            subtree (root (run [RequestStep; RequestAuto None]
                               (freshState scenarioB))) (logNode e) = Some n /\
            formula e = getCalculationFormula n /\
            result e = calculateNodeEMV n)
         (logs (run [RequestStep; RequestAuto None] (freshState scenarioB))).
Proof.
  split; [reflexivity|]. split; [reflexivity|]. split; [reflexivity|].
  apply Forall_forall. intros e He.
  destruct (log_explains_tree scenarioB [RequestStep; RequestAuto None]
              eq_refl eq_refl eq_refl e He)
    as (n & H1 & _ & _ & _ & H2 & H3 & _).
  exists n. split; [exact H1|]. split; [exact H2 | exact H3].
Defined.
